(** * Symbolic rocket dynamics and its code generator

    A shallow embedding of [dynamics_generation.py]: the class [Dynamics]
    derives the right-hand side [f] of a thrust-vectored rigid body with
    depleting mass, its Jacobians [A] and [B], evaluates them by
    substitution ([get]) and lowers them to the text of a numeric module
    ([generate_functions]).

    The symbolic-algebra engine the script imports is modelled by a small
    expression language ([expr]) with automatic evaluation of the trivial
    cases (smart constructors), exact differentiation ([diff]), a printer
    ([str]) and a denotation in the real numbers.  Python floats are
    modelled by rationals and their arithmetic by exact arithmetic. *)

From Stdlib Require Import ZArith QArith Qcanon Qreals Reals Lra Lia List String Ascii.
From Stdlib Require Import RNsatz.
From stdpp Require Import base gmap strings list.

Unset Default Proof Using.

(* ===================================================================== *)
(** * Numbers *)
(* ===================================================================== *)

(** A numeric literal: a Python [int] (the engine's Integer) or a Python
    [float] (the engine's Float). *)
Inductive number : Type :=
| Int (z : Z)
| Flt (q : Q).

Definition nvalue (n : number) : Q :=
  match n with
  | Int z => inject_Z z
  | Flt q => q
  end.

(** A Float result that is zero collapses to the Integer zero; other Float
    results are kept in lowest terms. *)
Definition mkflt (q : Q) : number :=
  if Qeq_bool q 0 then Int 0 else Flt (Qred q).

Definition nadd (a b : number) : number :=
  match a, b with
  | Int x, Int y => Int (x + y)
  | _, _ => mkflt (nvalue a + nvalue b)
  end.

Definition nmul (a b : number) : number :=
  match a, b with
  | Int x, Int y => Int (x * y)
  | _, _ => mkflt (nvalue a * nvalue b)
  end.

Definition nis_zero (n : number) : bool := Qeq_bool (nvalue n) 0.

Definition nis_int_one (n : number) : bool :=
  match n with
  | Int 1 => true
  | _ => false
  end.

(** The integer an exponent stands for, when it is integral ([2], [2.],
    [-1]); other exponents are outside the model. *)
Definition exponent (k : number) : option Z :=
  match k with
  | Int z => Some z
  | Flt q => if Z.eqb (Zpos (Qden (Qred q))) 1 then Some (Qnum (Qred q)) else None
  end.

(* ===================================================================== *)
(** * Symbolic expressions *)
(* ===================================================================== *)

(** Expressions of the engine: numbers, named symbols, sums, products,
    powers with a literal exponent and square roots. *)
Inductive expr : Type :=
| Num (n : number)
| Sym (name : string)
| Add (a b : expr)
| Mul (a b : expr)
| Pow (a : expr) (k : number)
| Sqrt (a : expr).

Definition zero : expr := Num (Int 0).
Definition one : expr := Num (Int 1).

Definition is_zero (e : expr) : bool :=
  match e with
  | Num n => nis_zero n
  | _ => false
  end.

Definition is_one (e : expr) : bool :=
  match e with
  | Num n => nis_int_one n
  | _ => false
  end.

(** ** Automatic evaluation

    The engine evaluates sums and products of numbers, drops a zero summand
    and a unit factor, turns a product with a zero factor into zero, and
    reduces the powers [a ** 0] and [a ** 1]. *)

Definition eadd (a b : expr) : expr :=
  match a, b with
  | Num x, Num y => Num (nadd x y)
  | _, _ => if is_zero a then b else if is_zero b then a else Add a b
  end.

Definition emul (a b : expr) : expr :=
  match a, b with
  | Num x, Num y => Num (nmul x y)
  | _, _ =>
      if is_zero a then zero else if is_zero b then zero
      else if is_one a then b else if is_one b then a else Mul a b
  end.

Definition epow (a : expr) (k : number) : expr :=
  match k with
  | Int 0 => one
  | Int 1 => a
  | _ => Pow a k
  end.

Definition esqrt (a : expr) : expr := Sqrt a.

(** [-a], [a - b] and [a / b] are products with [-1] and powers [-1]. *)
Definition eneg (a : expr) : expr := emul (Num (Int (-1))) a.
Definition esub (a b : expr) : expr := eadd a (eneg b).
Definition einv (a : expr) : expr := epow a (Int (-1)).
Definition ediv (a b : expr) : expr := emul a (einv b).

(** ** Exact differentiation *)

Fixpoint diff (e : expr) (x : string) : expr :=
  match e with
  | Num _ => zero
  | Sym y => if String.eqb y x then one else zero
  | Add a b => eadd (diff a x) (diff b x)
  | Mul a b => eadd (emul (diff a x) b) (emul a (diff b x))
  | Pow a k =>
      emul (emul (Num k) (epow a (nadd k (Int (-1))))) (diff a x)
  | Sqrt a => ediv (diff a x) (emul (Num (Int 2)) (Sqrt a))
  end.

(** ** Substitution of numbers for symbols *)

(** One substitution pair [(name, value)], and the engine's [subs] with a
    list of pairs: the pairs are applied in sequence, so the first pair
    that names a symbol decides its value. *)
Definition binding (V : Type) : Type := (string * V)%type.

Fixpoint assoc {V : Type} (subst : list (binding V)) (x : string) : option V :=
  match subst with
  | [] => None
  | (y, v) :: rest => if String.eqb y x then Some v else assoc rest x
  end.

(* ===================================================================== *)
(** * Denotation in the real numbers *)
(* ===================================================================== *)

Definition nreal (n : number) : R := Q2R (nvalue n).

(** [b ** z] on reals. *)
Definition rpow (b : R) (z : Z) : R := powerRZ b z.

Section Denotation.
Local Open Scope R_scope.

(** Total denotation: symbols are read from [rho]; a power with a
    non-integral exponent denotes [0]. *)
Fixpoint evalR (rho : string -> R) (e : expr) : R :=
  match e with
  | Num n => nreal n
  | Sym x => rho x
  | Add a b => evalR rho a + evalR rho b
  | Mul a b => evalR rho a * evalR rho b
  | Pow a k =>
      match exponent k with
      | Some z => rpow (evalR rho a) z
      | None => 0
      end
  | Sqrt a => sqrt (evalR rho a)
  end.

(** The expression evaluates without dividing by zero, without the root
    of a negative number, and with integral exponents only. *)
Fixpoint defined (rho : string -> R) (e : expr) : Prop :=
  match e with
  | Num _ | Sym _ => True
  | Add a b | Mul a b => defined rho a /\ defined rho b
  | Pow a k =>
      defined rho a /\
      match exponent k with
      | Some z => (z < 0)%Z -> evalR rho a <> 0
      | None => False
      end
  | Sqrt a => defined rho a /\ 0 <= evalR rho a
  end.

(** The expression is differentiable at [rho]: as [defined], with the
    argument of every root strictly positive. *)
Fixpoint smooth (rho : string -> R) (e : expr) : Prop :=
  match e with
  | Num _ | Sym _ => True
  | Add a b | Mul a b => smooth rho a /\ smooth rho b
  | Pow a k =>
      smooth rho a /\
      match exponent k with
      | Some z => (z < 0)%Z -> evalR rho a <> 0
      | None => False
      end
  | Sqrt a => smooth rho a /\ 0 < evalR rho a
  end.
End Denotation.

(** Outcome of a numeric evaluation. *)
Inductive error : Type :=
| KeyError (key : string)
| AttributeError (attr : string)
| IndexError
| ValueError
| ShapeError
| TypeError
| ZeroDivisionError.

Inductive result (A : Type) : Type :=
| Ok (a : A)
| Raise (e : error).
Arguments Ok {A} a.
Arguments Raise {A} e.

Definition bind {A B : Type} (r : result A) (k : A -> result B) : result B :=
  match r with
  | Ok a => k a
  | Raise e => Raise e
  end.

Notation "'let*' x ':=' r 'in' k" := (bind r (fun x => k))
  (at level 10, x name, r at level 100, k at level 200).

Fixpoint mapM {A B : Type} (f : A -> result B) (l : list A) : result (list B) :=
  match l with
  | [] => Ok []
  | a :: rest => let* b := f a in let* bs := mapM f rest in Ok (b :: bs)
  end.

Section Evaluation.
Local Open Scope R_scope.

(** Reduction of an expression to a number after substitution:
    a symbol without a binding cannot be converted ([TypeError]); a
    division by zero or the root of a negative number has no finite
    real value ([ZeroDivisionError]). *)
Fixpoint eval (subst : list (binding R)) (e : expr) : result R :=
  match e with
  | Num n => Ok (nreal n)
  | Sym x =>
      match assoc subst x with
      | Some v => Ok v
      | None => Raise TypeError
      end
  | Add a b => let* x := eval subst a in let* y := eval subst b in Ok (x + y)
  | Mul a b => let* x := eval subst a in let* y := eval subst b in Ok (x * y)
  | Pow a k =>
      let* x := eval subst a in
      match exponent k with
      | Some z =>
          if (z <? 0)%Z
          then if Req_dec_T x 0 then Raise ZeroDivisionError else Ok (rpow x z)
          else Ok (rpow x z)
      | None => Raise TypeError
      end
  | Sqrt a =>
      let* x := eval subst a in
      if Rle_dec 0 x then Ok (sqrt x) else Raise ZeroDivisionError
  end.
End Evaluation.

(* ===================================================================== *)
(** * Matrices *)
(* ===================================================================== *)

(** A matrix is the list of its rows; a column vector has rows of length
    one. *)
Definition shape {T : Type} (M : list (list T)) : nat * nat :=
  (length M, match M with [] => 0%nat | row :: _ => length row end).

Definition entry {T : Type} (M : list (list T)) (n m : nat) : option T :=
  match M !! n with
  | Some row => row !! m
  | None => None
  end.

(** [M[n,m] = v] for an index inside the matrix. *)
Definition mset {T : Type} (M : list (list T)) (n m : nat) (v : T) : list (list T) :=
  match M !! n with
  | Some row => <[n := <[m := v]> row]> M
  | None => M
  end.

Definition column {T : Type} (l : list T) : list (list T) := map (fun a => [a]) l.

(** The entries of a matrix in row-major order. *)
Definition flat {T : Type} (M : list (list T)) : list T := concat M.

(** The arithmetic shared by the symbolic and the numeric construction of
    the kinematics matrices. *)
Class Scalar (T : Type) : Type := {
  s_int : Z -> T;
  s_add : T -> T -> T;
  s_sub : T -> T -> T;
  s_mul : T -> T -> T;
  s_div : T -> T -> T;
  s_neg : T -> T;
  s_pow : T -> Z -> T
}.

#[export] Instance expr_scalar : Scalar expr := {
  s_int z := Num (Int z);
  s_add := eadd;
  s_sub := esub;
  s_mul := emul;
  s_div := ediv;
  s_neg := eneg;
  s_pow a z := epow a (Int z)
}.

#[export] Instance real_scalar : Scalar R := {
  s_int := IZR;
  s_add := Rplus;
  s_sub := Rminus;
  s_mul := Rmult;
  s_div := Rdiv;
  s_neg := Ropp;
  s_pow := rpow
}.

Section MatrixOps.
Context {T : Type} `{Scalar T}.

Definition zeros (rows cols : nat) : list (list T) :=
  replicate rows (replicate cols (s_int 0)).

Definition dot (a b : list T) : T :=
  fold_right s_add (s_int 0) (zip_with s_mul a b).

Definition mcol (M : list (list T)) (j : nat) : list T :=
  omap (fun row => row !! j) M.

Definition ncols (M : list (list T)) : nat := snd (shape M).

(** [M * N]. *)
Definition mmul (M N : list (list T)) : list (list T) :=
  map (fun row => map (fun j => dot row (mcol N j)) (seq 0 (ncols N))) M.

(** [a * M] for a scalar [a]. *)
Definition smul (a : T) (M : list (list T)) : list (list T) :=
  map (map (s_mul a)) M.

Definition madd (M N : list (list T)) : list (list T) :=
  zip_with (zip_with s_add) M N.

Definition msub (M N : list (list T)) : list (list T) :=
  zip_with (zip_with s_sub) M N.

Definition mtranspose (M : list (list T)) : list (list T) :=
  map (mcol M) (seq 0 (ncols M)).

Definition identity3 : list (list T) :=
  [[s_int 1; s_int 0; s_int 0];
   [s_int 0; s_int 1; s_int 0];
   [s_int 0; s_int 0; s_int 1]].

(** The cross product of two vectors of three components. *)
Definition cross3 (a b : T * T * T) : T * T * T :=
  let '(a0, a1, a2) := a in
  let '(b0, b1, b2) := b in
  (s_sub (s_mul a1 b2) (s_mul a2 b1),
   s_sub (s_mul a2 b0) (s_mul a0 b2),
   s_sub (s_mul a0 b1) (s_mul a1 b0)).

(** ** Kinematics: [Dynamics.Om] and [Dynamics.cIB] *)

Definition Om (w : T * T * T) : list (list T) :=
  let '(w0, w1, w2) := w in
  let Omega := zeros 4 4 in
  let Omega := mset Omega 0 0 (s_int 0) in
  let Omega := mset Omega 0 1 (s_neg w0) in
  let Omega := mset Omega 0 2 (s_neg w1) in
  let Omega := mset Omega 0 3 (s_neg w2) in
  let Omega := mset Omega 1 0 w0 in
  let Omega := mset Omega 1 1 (s_int 0) in
  let Omega := mset Omega 1 2 w2 in
  let Omega := mset Omega 1 3 (s_neg w1) in
  let Omega := mset Omega 2 0 w1 in
  let Omega := mset Omega 2 1 (s_neg w2) in
  let Omega := mset Omega 2 2 (s_int 0) in
  let Omega := mset Omega 2 3 w0 in
  let Omega := mset Omega 3 0 w2 in
  let Omega := mset Omega 3 1 w1 in
  let Omega := mset Omega 3 2 (s_neg w0) in
  let Omega := mset Omega 3 3 (s_int 0) in
  Omega.

Definition cIB (q : T * T * T * T) : list (list T) :=
  let '(q0, q1, q2, q3) := q in
  let sq a := s_pow a 2 in
  let two := s_int 2 in
  let cIB_m := zeros 3 3 in
  let cIB_m := mset cIB_m 0 0 (s_sub (s_int 1) (s_mul two (s_add (sq q2) (sq q3)))) in
  let cIB_m := mset cIB_m 0 1 (s_mul two (s_add (s_mul q1 q2) (s_mul q0 q3))) in
  let cIB_m := mset cIB_m 0 2 (s_mul two (s_sub (s_mul q1 q3) (s_mul q0 q2))) in
  let cIB_m := mset cIB_m 1 0 (s_mul two (s_sub (s_mul q1 q2) (s_mul q0 q3))) in
  let cIB_m := mset cIB_m 1 1 (s_sub (s_int 1) (s_mul two (s_add (sq q1) (sq q3)))) in
  let cIB_m := mset cIB_m 1 2 (s_mul two (s_add (s_mul q2 q3) (s_mul q0 q1))) in
  let cIB_m := mset cIB_m 2 0 (s_mul two (s_add (s_mul q1 q3) (s_mul q0 q2))) in
  let cIB_m := mset cIB_m 2 1 (s_mul two (s_sub (s_mul q2 q3) (s_mul q0 q1))) in
  let cIB_m := mset cIB_m 2 2 (s_sub (s_int 1) (s_mul two (s_add (sq q1) (sq q2)))) in
  cIB_m.
End MatrixOps.

(** Determinant, inverse (adjugate over determinant) and pseudo-inverse
    [(M^T M)^-1 M^T] of a 3 x 3 matrix, and the solution [M^+ b] that
    [pinv_solve] returns for a tensor of full rank. *)
Section Inverse.
Context {T : Type} `{Scalar T}.

Definition det2 (a b c d : T) : T := s_sub (s_mul a d) (s_mul b c).

Definition det3 (M : list (list T)) : T :=
  match M with
  | [[a; b; c]; [d; e; f]; [g; h; i]] =>
      s_add (s_sub (s_mul a (det2 e f h i)) (s_mul b (det2 d f g i)))
            (s_mul c (det2 d e g h))
  | _ => s_int 0
  end.

Definition inv3 (M : list (list T)) : list (list T) :=
  match M with
  | [[a; b; c]; [d; e; f]; [g; h; i]] =>
      let D := det3 M in
      [[s_div (det2 e f h i) D; s_div (det2 c b i h) D; s_div (det2 b c e f) D];
       [s_div (det2 f d i g) D; s_div (det2 a c g i) D; s_div (det2 c a f d) D];
       [s_div (det2 d e g h) D; s_div (det2 b a h g) D; s_div (det2 a b d e) D]]
  | _ => []
  end.

Definition pinv (M : list (list T)) : list (list T) :=
  mmul (inv3 (mmul (mtranspose M) M)) (mtranspose M).

Definition pinv_solve (M b : list (list T)) : list (list T) :=
  mmul (pinv M) b.
End Inverse.

(* ===================================================================== *)
(** * The class [Dynamics] *)
(* ===================================================================== *)

(** A value of the constants mapping: a number, a one-dimensional array or
    a two-dimensional array. *)
Inductive pyval : Type :=
| PyNum (n : number)
| PyArray1 (l : list number)
| PyArray2 (l : list (list number)).

(** The attributes of an instance: [x] is the list of one-element lists of
    state symbols, [u] the control column, [s] the scaling symbol, and
    [f], [A], [B] the derived matrices. *)
Module Dynamics.
Record t : Type := mk {
  x : list (list expr);
  u : list (list expr);
  s : expr;
  f : list (list expr);
  A : list (list expr);
  B : list (list expr)
}.
End Dynamics.

(** [M[k:k+len(rows), :] = rows]. *)
Definition set_rows {T : Type} (M : list (list T)) (k : nat) (rows : list (list T))
  : list (list T) :=
  take k M ++ rows ++ drop (k + length rows) M.

(** [a.cross(b)] for two columns of three entries; the result has the
    shape of [a]. *)
Definition cross {T : Type} `{Scalar T} (a b : list (list T)) : list (list T) :=
  match flat a, flat b with
  | [a0; a1; a2], [b0; b1; b2] =>
      let '(c0, c1, c2) := cross3 (a0, a1, a2) (b0, b1, b2) in
      column [c0; c1; c2]
  | _, _ => []
  end.

(** [F.jacobian(X)]: entry [(i, j)] is the derivative of the [i]-th entry
    of [F] with respect to the [j]-th symbol of [X]. *)
Definition diff_wrt (e xj : expr) : expr :=
  match xj with
  | Sym name => diff e name
  | _ => zero
  end.

Definition jacobian (F X : list (list expr)) : list (list expr) :=
  map (fun fi => map (diff_wrt fi) (flat X)) (flat F).

(** The variable symbols. *)
Module Var.
Definition m : expr := Sym "m".
Definition r : list (list expr) := column [Sym "r0"; Sym "r1"; Sym "r2"].
Definition v : list (list expr) := column [Sym "v0"; Sym "v1"; Sym "v2"].
Definition q : list (list expr) := column [Sym "q0"; Sym "q1"; Sym "q2"; Sym "q3"].
Definition w : list (list expr) := column [Sym "w0"; Sym "w1"; Sym "w2"].
End Var.

Section Model.
Import Var.

Definition self_x : list (list expr) :=
  [ [m];
    [Sym "r0"]; [Sym "r1"]; [Sym "r2"];
    [Sym "v0"]; [Sym "v1"]; [Sym "v2"];
    [Sym "q0"]; [Sym "q1"]; [Sym "q2"]; [Sym "q3"];
    [Sym "w0"]; [Sym "w1"]; [Sym "w2"] ].

Definition self_u : list (list expr) := column [Sym "u0"; Sym "u1"; Sym "u2"].
Definition self_s : expr := Sym "s".

Definition u_mag : expr :=
  esqrt (eadd (eadd (epow (Sym "u0") (Flt 2)) (epow (Sym "u1") (Flt 2)))
              (epow (Sym "u2") (Flt 2))).

(** Lines 62-76: the right-hand side, for the constants [alpha], [rTB],
    [J] and [g] given as expressions. *)
Definition assemble (alpha : expr) (rTB J g : list (list expr)) : list (list expr) :=
  let f := zeros 14 1 in
  let f := mset f 0 0 (emul (eneg alpha) u_mag) in
  let f := set_rows f 1 v in
  let f :=
    set_rows f 4
      (madd (mmul (smul (ediv (Num (Flt 1)) m)
                        (cIB (Sym "q0", Sym "q1", Sym "q2", Sym "q3")))
                  self_u)
            g) in
  let f :=
    set_rows f 7
      (mmul (smul (Num (Flt (1 # 2))) (Om (Sym "w0", Sym "w1", Sym "w2"))) q) in
  let f :=
    set_rows f 11 (pinv_solve J (msub (cross rTB self_u) (cross w (mmul J w)))) in
  f.

(** Lines 62-79: [f] and its two Jacobians scaled by [s]. *)
Definition derive (alpha : expr) (rTB J g : list (list expr)) : Dynamics.t :=
  let f := assemble alpha rTB J g in
  Dynamics.mk self_x self_u self_s f
    (smul self_s (jacobian f self_x))
    (smul self_s (jacobian f self_u)).

(** The symbolic constants: a diagonal inertia tensor of three symbols. *)
Definition symbolic_alpha : expr := Sym "alpha".
Definition symbolic_rTB : list (list expr) :=
  column [Sym "rTB0"; Sym "rTB1"; Sym "rTB2"].
Definition symbolic_g : list (list expr) := column [Sym "gx"; Sym "gy"; Sym "gz"].
Definition symbolic_J : list (list expr) :=
  let J := zeros 3 3 in
  let J := mset J 0 0 (Sym "J00") in
  let J := mset J 1 1 (Sym "J11") in
  let J := mset J 2 2 (Sym "J22") in
  J.
End Model.

(** [constants[key]]. *)
Definition getitem (constants : gmap string pyval) (key : string) : result pyval :=
  match constants !! key with
  | Some val => Ok val
  | None => Raise (KeyError key)
  end.

(** [Matrix(val)]: a one-dimensional array becomes a column. *)
Definition Matrix (val : pyval) : result (list (list expr)) :=
  match val with
  | PyNum _ => Raise TypeError
  | PyArray1 l => Ok (column (map Num l))
  | PyArray2 l => Ok (map (map Num) l)
  end.

Definition scalar (val : pyval) : result expr :=
  match val with
  | PyNum n => Ok (Num n)
  | _ => Raise TypeError
  end.

(** The shapes the vector operations of lines 68-76 accept. *)
Definition require_shape {T : Type} (M : list (list T)) (rows cols : nat)
  : result unit :=
  if forallb (fun row => Nat.eqb (length row) cols) M && Nat.eqb (length M) rows
  then Ok tt else Raise ShapeError.

(** [get(name, xi, ui, si)]: the substitution list pairs the state symbols
    with [xi[n,0]], the control symbols with [ui[n]] and [s] with [si]. *)
Definition symbol_name (e : expr) : result string :=
  match e with
  | Sym name => Ok name
  | _ => Raise TypeError
  end.

Fixpoint state_substitutions (n : nat) (xs : list (list expr)) (xi : list (list R))
  : result (list (binding R)) :=
  match xs with
  | [] => Ok []
  | sym :: rest =>
      let* key :=
        match sym !! 0%nat with
        | Some e => symbol_name e
        | None => Raise IndexError
        end in
      let* val :=
        match entry xi n 0 with
        | Some val => Ok val
        | None => Raise IndexError
        end in
      let* more := state_substitutions (S n) rest xi in
      Ok ((key, val) :: more)
  end.

Fixpoint control_substitutions (n : nat) (us : list expr) (ui : list R)
  : result (list (binding R)) :=
  match us with
  | [] => Ok []
  | sym :: rest =>
      let* key := symbol_name sym in
      let* val :=
        match ui !! n with
        | Some val => Ok val
        | None => Raise IndexError
        end in
      let* more := control_substitutions (S n) rest ui in
      Ok ((key, val) :: more)
  end.

(** [getattr(self, name)] for the three matrices. *)
Definition getattr (self : Dynamics.t) (name : string) : result (list (list expr)) :=
  if String.eqb name "A" then Ok (Dynamics.A self)
  else if String.eqb name "B" then Ok (Dynamics.B self)
  else if String.eqb name "f" then Ok (Dynamics.f self)
  else Raise (AttributeError name).

Definition get (self : Dynamics.t) (name : string)
    (xi : list (list R)) (ui : list R) (si : R) : result (list (list R)) :=
  let* sx := state_substitutions 0 (Dynamics.x self) xi in
  let* su := control_substitutions 0 (flat (Dynamics.u self)) ui in
  let* ks := symbol_name (Dynamics.s self) in
  let substitutions := sx ++ su ++ [(ks, si)] in
  let* function := getattr self name in
  mapM (mapM (eval substitutions)) function.

(* ===================================================================== *)
(** * Printing *)
(* ===================================================================== *)

Definition nl : string := String (ascii_of_nat 10) EmptyString.
Definition quote : string := String (ascii_of_nat 34) EmptyString.
Definition tab : string := "    ".

Definition digit (n : N) : ascii := ascii_of_N (48 + n mod 10).

Fixpoint digits (fuel : nat) (n : N) (acc : string) : string :=
  match fuel with
  | O => acc
  | S fuel' =>
      let acc' := String (digit n) acc in
      if (n <? 10)%N then acc' else digits fuel' (n / 10) acc'
  end.

Definition str_N (n : N) : string := digits (S (N.size_nat n)) n EmptyString.
Definition str_nat (n : nat) : string := str_N (N.of_nat n).

Definition str_Z (z : Z) : string :=
  match z with
  | Zneg p => "-" +:+ str_N (Npos p)
  | _ => str_N (Z.to_N z)
  end.

(** The digits after the decimal point of [r / d], for [r < d]. *)
Fixpoint fraction (fuel : nat) (r d : N) : string :=
  match fuel with
  | O => EmptyString
  | S fuel' =>
      let r10 := (r * 10)%N in
      String (digit (r10 / d))
        (if (r10 mod d =? 0)%N then EmptyString else fraction fuel' (r10 mod d) d)
  end.

Definition str_Q (q : Q) : string :=
  let n := Z.abs_N (Qnum q) in
  let d := Npos (Qden q) in
  (if (Qnum q <? 0)%Z then "-" else "")
    +:+ str_N (n / d) +:+ "." +:+ fraction (S (N.size_nat d)) (n mod d) d.

Definition str_number (n : number) : string :=
  match n with
  | Int z => str_Z z
  | Flt q => str_Q q
  end.

Definition parens (text : string) : string := "(" +:+ text +:+ ")".

(** [str(e)]: sums are parenthesised inside products, and compound or
    numeric bases inside powers. *)
Fixpoint str (e : expr) : string :=
  match e with
  | Num n => str_number n
  | Sym name => name
  | Add a b => str a +:+ " + " +:+ str b
  | Mul a b =>
      let factor c text := match c with Add _ _ => parens text | _ => text end in
      factor a (str a) +:+ "*" +:+ factor b (str b)
  | Pow a k =>
      let base :=
        match a with
        | Sym _ | Sqrt _ => str a
        | _ => parens (str a)
        end in
      base +:+ "**" +:+ str_number k
  | Sqrt a => "sqrt(" +:+ str a +:+ ")"
  end.

(** [text.startswith(old)]. *)
Fixpoint starts_with (old text : string) : bool :=
  match old with
  | EmptyString => true
  | String a old' =>
      match text with
      | EmptyString => false
      | String b text' => Ascii.eqb a b && starts_with old' text'
      end
  end.

(** [text.replace(old, new)] for a non-empty [old]: the occurrences of
    [old] are replaced from left to right, without overlap. *)
Fixpoint replace_from (skip : nat) (old new text : string) : string :=
  match text with
  | EmptyString => EmptyString
  | String c rest =>
      match skip with
      | S skip' => replace_from skip' old new rest
      | O =>
          if starts_with old text
          then new +:+ replace_from (String.length old - 1) old new rest
          else String c (replace_from 0 old new rest)
      end
  end.

Definition replace (old new text : string) : string := replace_from 0 old new text.

(* ===================================================================== *)
(** * Code generation *)
(* ===================================================================== *)

Definition J_name (i j : nat) : string := "J" +:+ str_nat i +:+ str_nat j.
Definition J_index (i j : nat) : string :=
  "J[" +:+ str_nat i +:+ "," +:+ str_nat j +:+ "]".

(** Lines 243-249: the nine replacements, in loop order. *)
Definition index_pairs : list (nat * nat) :=
  i ← seq 0 3; j ← seq 0 3; [(i, j)].

Definition rewrite_J (genline : string) : string :=
  foldl (fun line '(i, j) => replace (J_name i j) (J_index i j) line)
        genline index_pairs.

(** Lines 233-249: the assignment line for entry [(n, m)] whose printed
    value is [value]. *)
Definition genline (name : string) (n m : nat) (value : string) : string :=
  let line := tab +:+ name +:+ "m" in
  let line :=
    if negb (String.eqb name "f")
    then line +:+ "[" +:+ str_nat n +:+ ", " +:+ str_nat m +:+ "]=" +:+ value
    else line +:+ "[" +:+ str_nat n +:+ "]=" +:+ value in
  rewrite_J line.

(** Lines 226-251: the assignments of one matrix, as the list of the
    entries written with the text written for each. *)
Definition assignments (name : string) (matrix : list (list expr))
  : list (nat * nat * string) :=
  n ← seq 0 (fst (shape matrix));
  m ← seq 0 (snd (shape matrix));
  match entry matrix n m with
  | Some e =>
      let value := str e in
      if negb (String.eqb value "0")
      then [(n, m, tab +:+ genline name n m value +:+ nl)]
      else []
  | None => []
  end.

Definition variables_unpacking : list string :=
  [ "m, r0, r1, r2, v0, v1, v2, q0, q1, q2, q3, w0, w1, w2 = x";
    "u0, u1, u2 = u" ].

Definition constants_unpacking : list string :=
  [ "J = self.J";
    "alpha = self.alpha";
    "gx, gy, gz = self.g_I";
    "rTB0, rTB1, rTB2 = self.rTB" ].

Definition str_shape (sh : nat * nat) : string :=
  "(" +:+ str_nat (fst sh) +:+ ", " +:+ str_nat (snd sh) +:+ ")".

Definition cat (pieces : list string) : string :=
  fold_right String.append EmptyString pieces.

(** Lines 185-253: the text of one evaluator. *)
Definition function_text (name : string) (matrix : list (list expr)) : string :=
  cat [
    nl; tab;
    (if negb (String.eqb name "f")
     then "def " +:+ name +:+ "(self, x, u, s):" +:+ nl
     else "def " +:+ name +:+ "(self, x, u):" +:+ nl);
    cat (map (fun v => tab +:+ tab +:+ v +:+ nl) variables_unpacking);
    nl;
    cat (map (fun c => tab +:+ tab +:+ c +:+ nl) constants_unpacking);
    nl +:+ tab;
    tab +:+ name +:+ "m";
    (if negb (String.eqb name "f")
     then " = np.zeros(" +:+ str_shape (shape matrix) +:+ ")" +:+ nl
     else " = np.zeros((" +:+ str_nat (fst (shape matrix)) +:+ ",))" +:+ nl);
    cat (map snd (assignments name matrix));
    tab +:+ tab +:+ "return " +:+ name +:+ "m" +:+ nl
  ].

Definition set_parameters_string : string :=
  cat [
    tab; "def set_parameters(self, parms):" +:+ nl; tab; tab;
    "for name, val in parms.items():" +:+ nl; tab; tab; tab;
    "setattr(self, name, val)"
  ].

(** The dictionary [functions], in insertion order. *)
Definition functions (self : Dynamics.t) : list (string * list (list expr)) :=
  [("A", Dynamics.A self); ("B", Dynamics.B self); ("f", Dynamics.f self)].

(** Lines 163-181: the text written before the evaluators. *)
Definition preamble : string :=
  cat [
    quote +:+ quote +:+ quote +:+ " This was generated by dynamics_generation.py "
      +:+ quote +:+ quote +:+ quote +:+ nl +:+ nl;
    "from numpy import sqrt" +:+ nl;
    "import numpy as np" +:+ nl +:+ nl;
    "class Dynamics:" +:+ nl +:+ nl;
    set_parameters_string +:+ nl
  ].

(** [generate_functions]: the text written to [dynamics_functions.py]. *)
Definition generate_functions (self : Dynamics.t) : string :=
  preamble
    +:+ cat (map (fun '(name, matrix) => function_text name matrix) (functions self)).

(** Lines 39-60: the constants as expressions, read from the mapping under
    the keys [alpha], [rTB], [J] and [g], or symbols when there is no
    mapping. *)
Definition bind_constants (constants : option (gmap string pyval))
  : result (expr * list (list expr) * list (list expr) * list (list expr)) :=
  match constants with
  | Some constants =>
      let* alpha := getitem constants "alpha" in
      let* rTB_val := getitem constants "rTB" in
      let* rTB := Matrix rTB_val in
      let* J_val := getitem constants "J" in
      let* J := Matrix J_val in
      let* g_val := getitem constants "g" in
      let* g := Matrix g_val in
      let* alpha := scalar alpha in
      Ok (alpha, rTB, J, g)
  | None => Ok (symbolic_alpha, symbolic_rTB, symbolic_J, symbolic_g)
  end.

(** [Dynamics(constants)]: the instance, and the text written to
    [dynamics_functions.py] when the constants are symbolic.  The vector
    operations of lines 72-76 reject constants of another shape. *)
Definition init (constants : option (gmap string pyval))
  : result (Dynamics.t * option string) :=
  let* bound := bind_constants constants in
  let '(alpha, rTB, J, g) := bound in
  let* _ := require_shape g 3 1 in
  let* _ := require_shape rTB 3 1 in
  let* _ := require_shape J 3 3 in
  let self := derive alpha rTB J g in
  Ok (self, match constants with
            | Some _ => None
            | None => Some (generate_functions self)
            end).

Definition symbolic : Dynamics.t :=
  derive symbolic_alpha symbolic_rTB symbolic_J symbolic_g.

Definition example_constants : gmap string pyval :=
  <["alpha" := PyNum (Flt (1 # 2))]>
  (<["rTB" := PyArray1 [Flt (-1); Flt 0; Flt 0]]>
  (<["J" := PyArray2 [[Flt 1; Flt 0; Flt 0];
                      [Flt 0; Flt 1; Flt 0];
                      [Flt 0; Flt 0; Flt 1]]]>
  (<["g" := PyArray1 [Int (-1); Int 0; Int 0]]> ∅))).

(* ===================================================================== *)
(** * The generated module *)
(* ===================================================================== *)

(** [text.split(sep)] for a non-empty separator. *)
Fixpoint split_from (skip : nat) (sep text : string) : list string :=
  match text with
  | EmptyString => [EmptyString]
  | String c rest =>
      match skip with
      | S skip' => split_from skip' sep rest
      | O =>
          if starts_with sep text
          then EmptyString :: split_from (String.length sep - 1) sep rest
          else
            match split_from 0 sep rest with
            | piece :: pieces => String c piece :: pieces
            | [] => [String c EmptyString]
            end
      end
  end.

Definition split (sep text : string) : list string := split_from 0 sep text.

(** An unpacking statement [targets = source] of the generated text: its
    target names, and its source, an argument or an attribute of [self]. *)
Inductive source : Type :=
| Argument (name : string)
| Attribute (attr : string).

Definition parse_source (text : string) : source :=
  if starts_with "self." text
  then Attribute (String.substring 5 (String.length text - 5) text)
  else Argument text.

Definition parse_unpacking (stmt : string) : option (list string * source) :=
  match split " = " stmt with
  | [targets; src] => Some (split ", " targets, parse_source src)
  | _ => None
  end.

(** The attribute names the evaluators read from [self]. *)
Definition attributes_read : list string :=
  omap (fun stmt =>
          match parse_unpacking stmt with
          | Some (_, Attribute attr) => Some attr
          | _ => None
          end) constants_unpacking.

(** [set_parameters(parms)]: every item of [parms] becomes an attribute. *)
Definition set_parameters (parms self : gmap string pyval) : gmap string pyval :=
  parms ∪ self.

(** The bindings made by [targets = val]: a number bound to one name is
    that name; a two-dimensional array bound to one name [J] is read in
    the assignments as [J[i,j]], the symbol [Jij]; several names unpack a
    one-dimensional array of as many numbers. *)
Definition bind_targets (targets : list string) (val : pyval) : result (list (binding R)) :=
  match targets, val with
  | [name], PyNum n => Ok [(name, nreal n)]
  | [name], PyArray2 rows =>
      Ok (flat (imap (fun i row =>
                        imap (fun j n => (name +:+ str_nat i +:+ str_nat j, nreal n)) row)
                     rows))
  | [name], PyArray1 _ => Raise TypeError
  | _, PyArray1 l =>
      if Nat.eqb (length targets) (length l)
      then Ok (zip targets (map nreal l))
      else Raise ValueError
  | _, _ => Raise TypeError
  end.

Definition bind_arguments (targets : list string) (vals : list R) : result (list (binding R)) :=
  if Nat.eqb (length targets) (length vals)
  then Ok (zip targets vals)
  else Raise ValueError.

Definition run_unpacking (self : gmap string pyval) (args : list (binding (list R)))
    (stmt : string) : result (list (binding R)) :=
  match parse_unpacking stmt with
  | Some (targets, Argument name) =>
      match assoc args name with
      | Some vals => bind_arguments targets vals
      | None => Raise TypeError
      end
  | Some (targets, Attribute attr) =>
      match self !! attr with
      | Some val => bind_targets targets val
      | None => Raise (AttributeError attr)
      end
  | None => Raise TypeError
  end.

Fixpoint run_unpackings (self : gmap string pyval) (args : list (binding (list R)))
    (stmts : list string) : result (list (binding R)) :=
  match stmts with
  | [] => Ok []
  | stmt :: rest =>
      let* here := run_unpacking self args stmt in
      let* more := run_unpackings self args rest in
      Ok (here ++ more)
  end.

(** The value of one entry of the returned array: the right-hand side of
    its assignment when one was written, the initial zero otherwise. *)
Definition entry_value (env : list (binding R)) (e : expr) : result R :=
  if negb (String.eqb (str e) "0") then eval env e else Ok 0%R.

(** One evaluator of the module generated from [derived], called on an
    instance with attributes [self]: the unpacking statements, the
    zero-filled array, and every written assignment, whose right-hand side
    is the printed entry.  [si] is absent for [f]. *)
Definition generated (derived : Dynamics.t) (name : string)
    (self : gmap string pyval) (xi ui : list R) (si : option R)
  : result (list (list R)) :=
  match assoc (functions derived) name with
  | None => Raise (AttributeError name)
  | Some matrix =>
      let* _ :=
        match si, String.eqb name "f" with
        | Some _, false | None, true => Ok tt
        | _, _ => Raise TypeError
        end in
      let args := [("x", xi); ("u", ui)] in
      let* vars := run_unpackings self args variables_unpacking in
      let* consts := run_unpackings self args constants_unpacking in
      let env := vars ++ consts ++ match si with Some val => [("s", val)] | None => [] end in
      mapM (mapM (entry_value env)) matrix
  end.

(* ===================================================================== *)
(** * Definitions used by the statements *)
(* ===================================================================== *)

(** The environment [rho] with the symbol [x] moved to [t]. *)
Definition update (rho : string -> R) (x : string) (t : R) : string -> R :=
  fun y => if String.eqb y x then t else rho y.

(** A map between two scalar domains that commutes with the arithmetic. *)
Class ScalarHom {T U : Type} `{Scalar T} `{Scalar U} (h : T -> U) : Prop := {
  hom_int z : h (s_int z) = s_int z;
  hom_add a b : h (s_add a b) = s_add (h a) (h b);
  hom_sub a b : h (s_sub a b) = s_sub (h a) (h b);
  hom_mul a b : h (s_mul a b) = s_mul (h a) (h b);
  hom_div a b : h (s_div a b) = s_div (h a) (h b);
  hom_neg a : h (s_neg a) = s_neg (h a);
  hom_pow a z : h (s_pow a z) = s_pow (h a) z
}.

(** The constants the derivation works with have the shapes of the model:
    two columns of three entries and a 3 x 3 tensor. *)
Definition shaped (rTB J g : list (list expr)) : Prop :=
  (exists r0 r1 r2, rTB = [[r0]; [r1]; [r2]]) /\
  (exists a b c d e f g' h i, J = [[a; b; c]; [d; e; f]; [g'; h; i]]) /\
  (exists g0 g1 g2, g = [[g0]; [g1]; [g2]]).

Definition state_names : list string :=
  ["m"; "r0"; "r1"; "r2"; "v0"; "v1"; "v2"; "q0"; "q1"; "q2"; "q3"; "w0"; "w1"; "w2"].

Definition control_names : list string := ["u0"; "u1"; "u2"].

Definition is3x3 (X : list (list R)) : Prop :=
  exists a b c d e f g h i, X = [[a; b; c]; [d; e; f]; [g; h; i]].

(** The four Penrose equations: [P] is the pseudo-inverse of [M]. *)
Definition moore_penrose (M P : list (list R)) : Prop :=
  mmul (mmul M P) M = M /\
  mmul (mmul P M) P = P /\
  mtranspose (mmul M P) = mmul M P /\
  mtranspose (mmul P M) = mmul P M.

(** The environment a substitution list denotes, and the expressions all
    of whose symbols it binds. *)
Definition env_of (subst : list (binding R)) : string -> R :=
  fun x => default 0%R (assoc subst x).

Fixpoint bound (subst : list (binding R)) (e : expr) : bool :=
  match e with
  | Num _ => true
  | Sym x => match assoc subst x with Some _ => true | None => false end
  | Add a b | Mul a b => bound subst a && bound subst b
  | Pow a _ | Sqrt a => bound subst a
  end.

Definition symbol_rows (xs : list (list expr)) : Prop :=
  Forall (fun row => exists name, row = [Sym name]) xs.

Definition symbols_only (us : list expr) : Prop :=
  Forall (fun e => exists name, e = Sym name) us.

(** The instance [Dynamics(example_constants)]. *)
Definition numeric : Dynamics.t :=
  derive (Num (Flt (1 # 2)))
         (column [Num (Flt (-1)); Num (Flt 0); Num (Flt 0)])
         [[Num (Flt 1); Num (Flt 0); Num (Flt 0)];
          [Num (Flt 0); Num (Flt 1); Num (Flt 0)];
          [Num (Flt 0); Num (Flt 0); Num (Flt 1)]]
         (column [Num (Int (-1)); Num (Int 0); Num (Int 0)]).

(** The same constants with gravity under the key the generated
    evaluators read. *)
Definition module_constants : gmap string pyval :=
  <["g_I" := PyArray1 [Int (-1); Int 0; Int 0]]> (delete "g" example_constants).

(** The substitution list [get] builds for a state of 14 rows, a control
    of 3 entries and a scaling [si]. *)
Definition substitutions (xs us : list R) (si : R) : list (binding R) :=
  zip state_names xs ++ zip control_names us ++ [("s", si)].



(** Occurrence of a character in a text. *)
Fixpoint has (c : ascii) (text : string) : bool :=
  match text with
  | EmptyString => false
  | String c' rest => Ascii.eqb c c' || has c rest
  end.

(** The names the constructor gives to symbols: the state, the control,
    the scaling, the scalar constants, and the entries of the inertia
    tensor. *)
Definition plain_names : list string :=
  state_names ++ control_names
    ++ ["s"; "alpha"; "rTB0"; "rTB1"; "rTB2"; "gx"; "gy"; "gz"].

Definition J_names : list string := map (fun '(i, j) => J_name i j) index_pairs.

Definition known (name : string) : bool :=
  existsb (String.eqb name) (plain_names ++ J_names).

Fixpoint wf (e : expr) : bool :=
  match e with
  | Num _ => true
  | Sym name => known name
  | Add a b | Mul a b => wf a && wf b
  | Pow a _ | Sqrt a => wf a
  end.



(** All rows have the length of the first. *)
Definition rectangular {T : Type} (M : list (list T)) : bool :=
  forallb (fun row => Nat.eqb (length row) (snd (shape M))) M.














Section RealValued.
Local Open Scope R_scope.

(** The right-hand side on numbers, block by block: mass rate, position
  rate, velocity rate, quaternion rate and angular-velocity rate, for
  the state and control read from [rho]. *)
Definition rhs_model (alpha : R) (rTB J g : list (list R)) (rho : string -> R)
: list (list R) :=
let u := column [rho "u0"; rho "u1"; rho "u2"] in
let v := column [rho "v0"; rho "v1"; rho "v2"] in
let q := column [rho "q0"; rho "q1"; rho "q2"; rho "q3"] in
let w := column [rho "w0"; rho "w1"; rho "w2"] in
[[- alpha * sqrt (rho "u0" ^ 2 + rho "u1" ^ 2 + rho "u2" ^ 2)]]
  ++ v
  ++ madd (smul (1 / rho "m")
                (mmul (cIB (rho "q0", rho "q1", rho "q2", rho "q3")) u)) g
  ++ smul (1 / 2) (mmul (Om (rho "w0", rho "w1", rho "w2")) q)
  ++ mmul (pinv J) (msub (cross rTB u) (cross w (mmul J w))).

Definition written_value (rho : string -> R) (e : expr) : R :=
if negb (String.eqb (str e) "0") then evalR rho e else 0.

(** The state of mass one at rest, with the identity attitude. *)
Definition rest_state : list R := [1; 0; 0; 0; 0; 0; 0; 1; 0; 0; 0; 0; 0; 0].

End RealValued.

(* ===================================================================== *)
(** * Definitions used by the further statements *)
(* ===================================================================== *)

(** Occurrence of a symbol in an expression. *)
Fixpoint mentions (x : string) (e : expr) : bool :=
  match e with
  | Num _ => false
  | Sym y => String.eqb y x
  | Add a b | Mul a b => mentions x a || mentions x b
  | Pow a _ | Sqrt a => mentions x a
  end.

(** A property [P] of scalars that the arithmetic keeps; [N] is what a
    quotient asks of its divisor, and a power of its exponent that it is
    not negative. *)
Class ScalarClosed {T : Type} `{Scalar T} (P N : T -> Prop) : Prop := {
  closed_int z : P (s_int z);
  closed_add a b : P a -> P b -> P (s_add a b);
  closed_sub a b : P a -> P b -> P (s_sub a b);
  closed_mul a b : P a -> P b -> P (s_mul a b);
  closed_div a b : P a -> P b -> N b -> P (s_div a b);
  closed_neg a : P a -> P (s_neg a);
  closed_pow a z : (0 <= z)%Z -> P a -> P (s_pow a z)
}.

(** Every entry of a matrix has the property. *)
Definition all_entries {T : Type} (P : T -> Prop) (M : list (list T)) : Prop :=
  Forall (Forall P) M.

(** The symbols the right-hand side is built from, besides the constants. *)
Definition used_names : list string :=
  ["m"; "v0"; "v1"; "v2"; "q0"; "q1"; "q2"; "q3"; "w0"; "w1"; "w2"; "u0"; "u1"; "u2"].

(** A test on expressions that only looks at the symbols. *)
Class Syntactic (S : expr -> bool) : Prop := {
  syn_num n : S (Num n) = true;
  syn_add a b : S (Add a b) = S a && S b;
  syn_mul a b : S (Mul a b) = S a && S b;
  syn_pow a k : S (Pow a k) = S a;
  syn_sqrt a : S (Sqrt a) = S a
}.

Definition free_of (x : string) (e : expr) : bool := negb (mentions x e).

(** The names of the symbolic constants, and the expressions a constant
    can be: a number or one of these symbols. *)
Definition constant_names : list string :=
  ["alpha"; "rTB0"; "rTB1"; "rTB2"; "gx"; "gy"; "gz"; "J00"; "J11"; "J22"].

Definition constant_expr (e : expr) : bool :=
  match e with
  | Num _ => true
  | Sym x => existsb (String.eqb x) constant_names
  | _ => false
  end.

Definition is_num (e : expr) : bool :=
  match e with
  | Num _ => true
  | _ => false
  end.


(** The bindings an evaluator of the generated module makes from its
    arguments and from the attributes [J], [alpha], [g_I] and [rTB]. *)
Definition constants_env (alpha : number) (rTB g : list number)
    (J : list (list number)) : list (binding R) :=
  flat (imap (fun i row =>
                imap (fun j n => ("J" +:+ str_nat i +:+ str_nat j, nreal n)) row) J)
  ++ [("alpha", nreal alpha)]
  ++ zip ["gx"; "gy"; "gz"] (map nreal g)
  ++ zip ["rTB0"; "rTB1"; "rTB2"] (map nreal rTB).

Definition evaluator_env (xs us : list R) (consts : list (binding R))
    (si : option R) : list (binding R) :=
  (zip state_names xs ++ zip control_names us)
  ++ consts
  ++ match si with Some val => [("s", val)] | None => [] end.

(** The scaling argument an evaluator takes: none for [f]. *)
Definition takes_scaling (name : string) (si : option R) : Prop :=
  match si, String.eqb name "f" with
  | Some _, false | None, true => True
  | _, _ => False
  end.

(** The names of the entries of the inertia tensor off the diagonal. *)
Definition off_diagonal_names : list string :=
  ["J01"; "J02"; "J10"; "J12"; "J20"; "J21"].

(** The constants of the script (lines 297-301). *)
Definition script_constants : gmap string pyval :=
  <["alpha" := PyNum (Flt (1 # 10))]>
  (<["rTB" := PyArray1 [Flt (-1 # 100); Flt 0; Flt 0]]>
  (<["J" := PyArray2 [[Flt (1 # 100); Flt 0; Flt 0];
                      [Flt 0; Flt (1 # 100); Flt 0];
                      [Flt 0; Flt 0; Flt (1 # 100)]]]>
  (<["g_I" := PyArray1 [Int (-1); Int 0; Int 0]]> ∅))).

(** The example constants with a symmetric inertia tensor that couples
    two axes. *)
Definition coupled_constants : gmap string pyval :=
  <["J" := PyArray2 [[Flt 2; Flt 1; Flt 0];
                     [Flt 1; Flt 2; Flt 0];
                     [Flt 0; Flt 0; Flt 1]]]> example_constants.

(* ===================================================================== *)
(** * The denotation of automatic evaluation *)
(* ===================================================================== *)

Section SmartConstructors.
Local Open Scope R_scope.
Variable rho : string -> R.

Lemma nreal_int z : nreal (Int z) = IZR z.
Proof. unfold nreal, Q2R. simpl. field. Qed.

Lemma nreal_mkflt q : nreal (mkflt q) = Q2R q.
Proof.
  unfold mkflt. destruct (Qeq_bool q 0) eqn:E.
  - apply Qeq_bool_eq in E. rewrite nreal_int.
    rewrite (Qeq_eqR _ _ E). unfold Q2R. simpl. lra.
  - unfold nreal. simpl. apply Qeq_eqR, Qred_correct.
Qed.

Lemma nreal_nadd a b : nreal (nadd a b) = nreal a + nreal b.
Proof.
  destruct a, b; simpl; rewrite ?nreal_mkflt; unfold nreal; simpl;
    rewrite <- ?Q2R_plus; try reflexivity.
  rewrite inject_Z_plus. reflexivity.
Qed.

Lemma nreal_nmul a b : nreal (nmul a b) = nreal a * nreal b.
Proof.
  destruct a, b; simpl; rewrite ?nreal_mkflt; unfold nreal; simpl;
    rewrite <- ?Q2R_mult; reflexivity.
Qed.

Lemma is_zero_evalR e : is_zero e = true -> evalR rho e = 0.
Proof.
  destruct e; simpl; try discriminate. unfold nis_zero. intros E.
  apply Qeq_bool_eq in E. unfold nreal. rewrite (Qeq_eqR _ _ E).
  unfold Q2R. simpl. lra.
Qed.

Lemma is_one_evalR e : is_one e = true -> evalR rho e = 1.
Proof.
  destruct e as [[[|[]|]|]| | | | |]; simpl; try discriminate.
  intros _. apply nreal_int.
Qed.

Lemma evalR_eadd a b : evalR rho (eadd a b) = evalR rho a + evalR rho b.
Proof.
  assert (G : evalR rho (if is_zero a then b else if is_zero b then a else Add a b)
              = evalR rho a + evalR rho b).
  { destruct (is_zero a) eqn:Ea; [rewrite (is_zero_evalR a Ea); lra|].
    destruct (is_zero b) eqn:Eb; [rewrite (is_zero_evalR b Eb); lra|].
    reflexivity. }
  destruct a, b; try exact G. simpl. apply nreal_nadd.
Qed.

Lemma evalR_emul a b : evalR rho (emul a b) = evalR rho a * evalR rho b.
Proof.
  assert (G : evalR rho (if is_zero a then zero else if is_zero b then zero
                         else if is_one a then b else if is_one b then a else Mul a b)
              = evalR rho a * evalR rho b).
  { destruct (is_zero a) eqn:Ea.
    { rewrite (is_zero_evalR a Ea). simpl. rewrite nreal_int. lra. }
    destruct (is_zero b) eqn:Eb.
    { rewrite (is_zero_evalR b Eb). simpl. rewrite nreal_int. lra. }
    destruct (is_one a) eqn:Oa; [rewrite (is_one_evalR a Oa); lra|].
    destruct (is_one b) eqn:Ob; [rewrite (is_one_evalR b Ob); lra|].
    reflexivity. }
  destruct a, b; try exact G. simpl. apply nreal_nmul.
Qed.

Lemma evalR_epow a k : evalR rho (epow a k) = evalR rho (Pow a k).
Proof.
  destruct k as [[|[]|]|]; try reflexivity; simpl.
  - apply nreal_int.
  - unfold rpow. simpl. lra.
Qed.

Lemma evalR_eneg a : evalR rho (eneg a) = - evalR rho a.
Proof. unfold eneg. rewrite evalR_emul. simpl. rewrite nreal_int. lra. Qed.

Lemma evalR_esub a b : evalR rho (esub a b) = evalR rho a - evalR rho b.
Proof. unfold esub. rewrite evalR_eadd, evalR_eneg. lra. Qed.

Lemma rpow_inv x : rpow x (-1) = / x.
Proof. unfold rpow. simpl. rewrite Rmult_1_r. reflexivity. Qed.

Lemma evalR_einv a : evalR rho (einv a) = / evalR rho a.
Proof. unfold einv. rewrite evalR_epow. simpl. apply rpow_inv. Qed.

Lemma evalR_ediv a b : evalR rho (ediv a b) = evalR rho a / evalR rho b.
Proof. unfold ediv. rewrite evalR_emul, evalR_einv. reflexivity. Qed.

End SmartConstructors.

(* ===================================================================== *)
(** * Differentiation is exact *)
(* ===================================================================== *)

Section Differentiation.
Local Open Scope R_scope.

Lemma evalR_ext rho1 rho2 e :
  (forall y, rho1 y = rho2 y) -> evalR rho1 e = evalR rho2 e.
Proof.
  intros E. induction e; simpl; try congruence.
  destruct (exponent k); congruence.
Qed.

Lemma update_same rho x e : evalR (update rho x (rho x)) e = evalR rho e.
Proof.
  apply evalR_ext. intros y. unfold update.
  destruct (String.eqb_spec y x); congruence.
Qed.

Lemma rpow_nat b (n : nat) : rpow b (Z.of_nat n) = b ^ n.
Proof. unfold rpow. symmetry. apply pow_powerRZ. Qed.

(** The derivative of [y ** z] for an integer [z]. *)
Lemma derivable_pt_lim_rpow (z : Z) (b : R) :
  ((z < 0)%Z -> b <> 0) ->
  derivable_pt_lim (fun y => rpow y z) b (IZR z * rpow b (z - 1)).
Proof.
  intros Hb. destruct z as [|p|p].
  - apply derivable_pt_lim_ext with (f := fct_cte 1).
    + intros y. reflexivity.
    + replace (0 * rpow b (0 - 1)) with 0 by lra. apply derivable_pt_lim_const.
  - apply derivable_pt_lim_ext with (f := fun y => y ^ Pos.to_nat p).
    + intros y. reflexivity.
    + replace (IZR (Z.pos p) * rpow b (Z.pos p - 1))
        with (INR (Pos.to_nat p) * b ^ pred (Pos.to_nat p)).
      * apply derivable_pt_lim_pow.
      * rewrite <- rpow_nat. f_equal.
        -- rewrite INR_IZR_INZ. f_equal. lia.
        -- f_equal. lia.
  - assert (Hb0 : b <> 0) by (apply Hb; lia).
    destruct (Pos.to_nat p) as [|k] eqn:Ek; [lia|].
    apply derivable_pt_lim_ext with (f := (fct_cte 1 / (fun y => y ^ S k))%F).
    + intros y. unfold div_fct, fct_cte, rpow. simpl. rewrite Ek. simpl. lra.
    + assert (Hk : b ^ k <> 0) by (apply pow_nonzero; exact Hb0).
      replace (IZR (Z.neg p) * rpow b (Z.neg p - 1))
        with ((0 * b ^ S k - INR (S k) * b ^ pred (S k) * fct_cte 1 b) / Rsqr (b ^ S k)).
      * apply derivable_pt_lim_div.
        -- apply derivable_pt_lim_const.
        -- apply derivable_pt_lim_pow.
        -- apply pow_nonzero. exact Hb0.
      * replace (Z.neg p - 1)%Z with (- Z.of_nat (S (S k)))%Z by lia.
        replace (IZR (Z.neg p)) with (- INR (S k))
          by (rewrite INR_IZR_INZ, <- opp_IZR; f_equal; lia).
        unfold rpow. rewrite powerRZ_neg', <- pow_powerRZ.
        unfold fct_cte, Rsqr. simpl pred. simpl pow.
        field. split; assumption.
Qed.

Lemma exponent_nreal k z : exponent k = Some z -> nreal k = IZR z.
Proof.
  destruct k as [z'|q]; unfold exponent.
  - intros [= ->]. apply nreal_int.
  - destruct (Z.eqb_spec (Z.pos (Qden (Qred q))) 1) as [E|]; [|discriminate].
    intros [= <-]. unfold nreal. simpl.
    rewrite (Qeq_eqR _ _ (Qeq_sym _ _ (Qred_correct q))).
    unfold Q2R. rewrite E. simpl. lra.
Qed.

Lemma Qred_inject_Z z : Qred (inject_Z z) = inject_Z z.
Proof. apply Qred_identity. simpl. apply Z.gcd_1_r. Qed.

Lemma exponent_pred k z :
  exponent k = Some z -> exponent (nadd k (Int (-1))) = Some (z - 1)%Z.
Proof.
  destruct k as [z'|q]; unfold exponent at 1.
  - intros [= ->]. reflexivity.
  - destruct (Z.eqb_spec (Z.pos (Qden (Qred q))) 1) as [E|]; [|discriminate].
    intros [= <-]. simpl nadd.
    assert (Hq : (q == inject_Z (Qnum (Qred q)))%Q).
    { rewrite <- (Qred_correct q) at 1. destruct (Qred q) as [n d].
      simpl in *. injection E as ->. reflexivity. }
    assert (Hs : (q + inject_Z (-1) == inject_Z (Qnum (Qred q) - 1))%Q).
    { rewrite Hq at 1. rewrite <- inject_Z_plus. reflexivity. }
    unfold mkflt. destruct (Qeq_bool (q + inject_Z (-1)) 0) eqn:E0.
    + apply Qeq_bool_eq in E0. rewrite Hs in E0.
      simpl. f_equal. unfold Qeq in E0. simpl in E0. lia.
    + simpl. rewrite Qred_involutive.
      rewrite (Qred_complete _ _ Hs), Qred_inject_Z. reflexivity.
Qed.

(** The derivative computed by [diff] is the derivative of the
    denotation, wherever the expression is differentiable. *)
Lemma diff_correct (rho : string -> R) (x : string) (e : expr) :
  smooth rho e ->
  derivable_pt_lim (fun t => evalR (update rho x t) e) (rho x)
                   (evalR rho (diff e x)).
Proof.
  induction e as [n|y|a IHa b IHb|a IHa b IHb|a IHa k|a IHa];
    cbn [diff smooth evalR]; intros Hs.
  - unfold zero. cbn [evalR]. rewrite nreal_int. apply (derivable_pt_lim_const (nreal n)).
  - unfold update. destruct (String.eqb_spec y x) as [->|Hne];
      unfold one, zero; cbn [evalR]; rewrite nreal_int.
    + apply derivable_pt_lim_id.
    + apply (derivable_pt_lim_const (rho y)).
  - destruct Hs as [Ha Hb]. rewrite evalR_eadd.
    apply (derivable_pt_lim_plus _ _ _ _ _ (IHa Ha) (IHb Hb)).
  - destruct Hs as [Ha Hb]. rewrite evalR_eadd, !evalR_emul.
    pose proof (derivable_pt_lim_mult _ _ _ _ _ (IHa Ha) (IHb Hb)) as D.
    cbv beta in D. rewrite !update_same in D. exact D.
  - destruct Hs as [Ha Hk]. destruct (exponent k) as [z|] eqn:Ek; [|contradiction].
    rewrite !evalR_emul, evalR_epow. cbn [evalR].
    rewrite (exponent_pred _ _ Ek), (exponent_nreal _ _ Ek).
    replace (IZR z * rpow (evalR rho a) (z - 1) * evalR rho (diff a x))
      with (IZR z * rpow (evalR (update rho x (rho x)) a) (z - 1)
            * evalR rho (diff a x))
      by (rewrite update_same; reflexivity).
    apply (derivable_pt_lim_comp (fun t => evalR (update rho x t) a)
             (fun y => rpow y z)).
    + exact (IHa Ha).
    + apply derivable_pt_lim_rpow. rewrite update_same. exact Hk.
  - destruct Hs as [Ha Hpos]. rewrite evalR_ediv, evalR_emul. cbn [evalR].
    rewrite nreal_int.
    replace (evalR rho (diff a x) / (2 * sqrt (evalR rho a)))
      with (/ (2 * sqrt (evalR (update rho x (rho x)) a)) * evalR rho (diff a x))
      by (rewrite update_same; unfold Rdiv; ring).
    apply (derivable_pt_lim_comp (fun t => evalR (update rho x t) a) sqrt).
    + exact (IHa Ha).
    + apply derivable_pt_lim_sqrt. rewrite update_same. exact Hpos.
Qed.

End Differentiation.

(* ===================================================================== *)
(** * Symbolic matrices denote numeric matrices *)
(* ===================================================================== *)

#[export] Instance evalR_hom (rho : string -> R) : ScalarHom (evalR rho).
Proof.
  split; intros.
  - exact (nreal_int z).
  - exact (evalR_eadd rho a b).
  - exact (evalR_esub rho a b).
  - exact (evalR_emul rho a b).
  - exact (evalR_ediv rho a b).
  - exact (evalR_eneg rho a).
  - change (evalR rho (epow a (Int z)) = rpow (evalR rho a) z).
    rewrite evalR_epow. reflexivity.
Qed.

Section Homomorphism.
Context {T U : Type} `{Scalar T} `{Scalar U} (h : T -> U) `{!ScalarHom h}.

Local Abbreviation hm := (map (map h)).

Lemma hom_zeros rows cols : hm (zeros rows cols) = zeros rows cols.
Proof.
  unfold zeros. rewrite !fmap_replicate. rewrite (hom_int (h := h)). reflexivity.
Qed.

Lemma hom_entry (M : list (list T)) n m : entry (hm M) n m = h <$> entry M n m.
Proof.
  unfold entry. rewrite list_lookup_fmap.
  destruct (M !! n) as [row|]; simpl; [|reflexivity].
  apply list_lookup_fmap.
Qed.

Lemma hom_mset (M : list (list T)) n m a :
  hm (mset M n m a) = mset (hm M) n m (h a).
Proof.
  unfold mset. rewrite list_lookup_fmap.
  destruct (M !! n) as [row|]; simpl; [|reflexivity].
  rewrite list_fmap_insert. f_equal. apply list_fmap_insert.
Qed.

Lemma hom_set_rows (M rows : list (list T)) k :
  hm (set_rows M k rows) = set_rows (hm M) k (hm rows).
Proof.
  unfold set_rows. rewrite !fmap_app, fmap_take, fmap_drop, !length_fmap.
  reflexivity.
Qed.


Lemma hom_flat (M : list (list T)) : flat (hm M) = map h (flat M).
Proof.
  unfold flat. induction M as [|row M IH]; simpl; [reflexivity|].
  rewrite IH. symmetry. apply fmap_app.
Qed.

Lemma hom_dot (a b : list T) : dot (map h a) (map h b) = h (dot a b).
Proof.
  unfold dot. revert b. induction a as [|x a IH]; intros [|y b]; simpl;
    rewrite ?(hom_int (h := h)); try reflexivity.
  rewrite (hom_add (h := h)), (hom_mul (h := h)). f_equal. apply IH.
Qed.

Lemma hom_mcol (M : list (list T)) j : mcol (hm M) j = map h (mcol M j).
Proof.
  unfold mcol. induction M as [|row M IH]; simpl; [reflexivity|].
  rewrite list_lookup_fmap. destruct (row !! j); simpl; [f_equal|]; exact IH.
Qed.

Lemma hom_ncols (M : list (list T)) : ncols (hm M) = ncols M.
Proof. destruct M; simpl; [reflexivity|]. unfold ncols. simpl. apply length_fmap. Qed.

Lemma hom_mmul (M N : list (list T)) : hm (mmul M N) = mmul (hm M) (hm N).
Proof.
  unfold mmul. rewrite hom_ncols. rewrite <- !list_fmap_compose.
  apply list_fmap_ext. intros _ row _. simpl.
  rewrite <- list_fmap_compose. apply list_fmap_ext. intros _ j _. simpl.
  rewrite hom_mcol. symmetry. apply hom_dot.
Qed.

Lemma hom_smul a (M : list (list T)) : hm (smul a M) = smul (h a) (hm M).
Proof.
  unfold smul. rewrite <- !list_fmap_compose.
  apply list_fmap_ext. intros _ row _. simpl.
  rewrite <- !list_fmap_compose. apply list_fmap_ext. intros _ b _. simpl.
  apply (hom_mul (h := h)).
Qed.

Lemma hom_zip_with (op : T -> T -> T) (op' : U -> U -> U) :
  (forall a b, h (op a b) = op' (h a) (h b)) ->
  forall M N : list (list T),
    hm (zip_with (zip_with op) M N) = zip_with (zip_with op') (hm M) (hm N).
Proof.
  intros Hop M. induction M as [|row M IH]; intros [|row' N]; simpl; try reflexivity.
  f_equal; [|apply IH].
  revert row'. induction row as [|a row IHr]; intros [|b row']; simpl; try reflexivity.
  rewrite Hop. f_equal. apply IHr.
Qed.

Lemma hom_madd (M N : list (list T)) : hm (madd M N) = madd (hm M) (hm N).
Proof. apply hom_zip_with. apply (hom_add (h := h)). Qed.

Lemma hom_msub (M N : list (list T)) : hm (msub M N) = msub (hm M) (hm N).
Proof. apply hom_zip_with. apply (hom_sub (h := h)). Qed.

Lemma hom_mtranspose (M : list (list T)) : hm (mtranspose M) = mtranspose (hm M).
Proof.
  unfold mtranspose. rewrite hom_ncols, <- !list_fmap_compose.
  apply list_fmap_ext. intros _ j _. simpl. symmetry. apply hom_mcol.
Qed.

Lemma hom_cross (a b : list (list T)) : hm (cross a b) = cross (hm a) (hm b).
Proof.
  unfold cross. rewrite !hom_flat.
  destruct (flat a) as [|a0 [|a1 [|a2 [|]]]]; try reflexivity.
  destruct (flat b) as [|b0 [|b1 [|b2 [|]]]]; try reflexivity.
  simpl. rewrite !(hom_sub (h := h)), !(hom_mul (h := h)). reflexivity.
Qed.

Lemma hom_det2 a b c d : h (det2 a b c d) = det2 (h a) (h b) (h c) (h d).
Proof. unfold det2. rewrite (hom_sub (h := h)), !(hom_mul (h := h)). reflexivity. Qed.

Lemma hom_det3 (M : list (list T)) : h (det3 M) = det3 (hm M).
Proof.
  destruct M as [|[|a [|b [|c [|]]]] [|[|d [|e [|f [|]]]] [|[|g [|k [|i [|]]]] [|]]]];
    simpl; rewrite ?(hom_int (h := h)); try reflexivity.
  rewrite (hom_add (h := h)), (hom_sub (h := h)), !(hom_mul (h := h)), !hom_det2. reflexivity.
Qed.

Lemma hom_inv3 (M : list (list T)) : hm (inv3 M) = inv3 (hm M).
Proof.
  destruct M as [|[|a [|b [|c [|]]]] [|[|d [|e [|f [|]]]] [|[|g [|k [|i [|]]]] [|]]]];
    try reflexivity.
  pose proof (hom_det3 [[a; b; c]; [d; e; f]; [g; k; i]]) as HD.
  unfold inv3. cbn [map]. rewrite !(hom_div (h := h)), !hom_det2, !HD. reflexivity.
Qed.

Lemma hom_pinv (M : list (list T)) : hm (pinv M) = pinv (hm M).
Proof.
  unfold pinv. rewrite hom_mmul, hom_inv3, hom_mmul, !hom_mtranspose. reflexivity.
Qed.

Lemma hom_pinv_solve (M b : list (list T)) :
  hm (pinv_solve M b) = pinv_solve (hm M) (hm b).
Proof. unfold pinv_solve. rewrite hom_mmul, hom_pinv. reflexivity. Qed.

Lemma hom_Om w0 w1 w2 : hm (Om (w0, w1, w2)) = Om (h w0, h w1, h w2).
Proof.
  unfold Om. rewrite !hom_mset, hom_zeros, !(hom_neg (h := h)), !(hom_int (h := h)). reflexivity.
Qed.

Lemma hom_cIB q0 q1 q2 q3 :
  hm (cIB (q0, q1, q2, q3)) = cIB (h q0, h q1, h q2, h q3).
Proof.
  unfold cIB. rewrite !hom_mset, hom_zeros.
  rewrite ?(hom_sub (h := h)), ?(hom_mul (h := h)), ?(hom_add (h := h)), ?(hom_sub (h := h)), ?(hom_mul (h := h)), ?(hom_pow (h := h)), ?(hom_int (h := h)).
  reflexivity.
Qed.

End Homomorphism.

Arguments eadd : simpl never.
Arguments emul : simpl never.
Arguments epow : simpl never.
Arguments eneg : simpl never.
Arguments esub : simpl never.
Arguments einv : simpl never.
Arguments ediv : simpl never.

(* ===================================================================== *)
(** * The instances built by the constructor *)
(* ===================================================================== *)

Lemma require_shape_3_1 (M : list (list expr)) :
  require_shape M 3 1 = Ok tt -> exists a b c, M = [[a]; [b]; [c]].
Proof.
  unfold require_shape.
  destruct M as [|[|a [|]] [|[|b [|]] [|[|c [|]] [|]]]]; simpl;
    try discriminate; try (rewrite ?andb_false_r; discriminate).
  intros _. eauto.
Qed.

Lemma require_shape_3_3 (M : list (list expr)) :
  require_shape M 3 3 = Ok tt ->
  exists a b c d e f g h i, M = [[a; b; c]; [d; e; f]; [g; h; i]].
Proof.
  unfold require_shape.
  destruct M as [|[|a [|b [|c [|]]]] [|[|d [|e [|f [|]]]] [|[|g [|h [|i [|]]]] [|]]]];
    simpl; try discriminate; try (rewrite ?andb_false_r; discriminate).
  intros _. do 9 eexists. reflexivity.
Qed.

Lemma symbolic_shaped : shaped symbolic_rTB symbolic_J symbolic_g.
Proof.
  repeat split.
  - do 3 eexists. reflexivity.
  - do 9 eexists. reflexivity.
  - do 3 eexists. reflexivity.
Qed.

Lemma init_derive constants d out :
  init constants = Ok (d, out) ->
  exists alpha rTB J g,
    bind_constants constants = Ok (alpha, rTB, J, g) /\
    d = derive alpha rTB J g /\ shaped rTB J g.
Proof.
  unfold init, bind at 1.
  destruct (bind_constants constants) as [[[[alpha rTB] J] g]|]; [|discriminate].
  unfold bind.
  destruct (require_shape g 3 1) as [[]|] eqn:Hg; [|discriminate].
  destruct (require_shape rTB 3 1) as [[]|] eqn:Hr; [|discriminate].
  destruct (require_shape J 3 3) as [[]|] eqn:HJ; [|discriminate].
  intros [= <- <-]. exists alpha, rTB, J, g.
  split; [reflexivity|]. split; [reflexivity|].
  split; [|split].
  - apply require_shape_3_1, Hr.
  - apply require_shape_3_3, HJ.
  - apply require_shape_3_1, Hg.
Qed.

(** The right-hand side is a column of fourteen entries. *)
Lemma assemble_column alpha rTB J g :
  shaped rTB J g ->
  exists l, length l = 14%nat /\ assemble alpha rTB J g = column l.
Proof.
  intros ((r0 & r1 & r2 & ->) & (a & b & c & d & e & f & g' & h & i & ->)
          & (g0 & g1 & g2 & ->)).
  eexists (cons _ (cons _ (cons _ (cons _ (cons _ (cons _ (cons _
          (cons _ (cons _ (cons _ (cons _ (cons _ (cons _ (cons _ nil)))))))))))))).
  split; reflexivity.
Qed.

Lemma entry_column {T : Type} (l : list T) i : entry (column l) i 0 = l !! i.
Proof.
  unfold entry, column. rewrite list_lookup_fmap.
  destruct (l !! i); reflexivity.
Qed.

Lemma flat_column {T : Type} (l : list T) : flat (column l) = l.
Proof. unfold flat, column. induction l; simpl; congruence. Qed.

Section Jacobians.
Local Open Scope R_scope.

(** Entry [(i, j)] of [scale * F.jacobian(X)] is [scale] times the
    derivative of the [i]-th entry of [F] in the [j]-th symbol of [X]. *)
Lemma scaled_jacobian_entry scale (l : list expr) (X : list (list expr))
    names i j fi xj :
  flat X = map Sym names ->
  l !! i = Some fi -> names !! j = Some xj ->
  exists aij,
    entry (smul scale (jacobian (column l) X)) i j = Some aij /\
    forall rho, smooth rho fi ->
      exists d,
        derivable_pt_lim (fun t => evalR (update rho xj t) fi) (rho xj) d /\
        evalR rho aij = evalR rho scale * d.
Proof.
  intros HX Hi Hj. exists (emul scale (diff fi xj)). split.
  - unfold entry, smul, jacobian. rewrite flat_column, HX.
    rewrite !list_lookup_fmap, Hi. simpl.
    rewrite !list_lookup_fmap, Hj. reflexivity.
  - intros rho Hs. exists (evalR rho (diff fi xj)). split.
    + apply diff_correct, Hs.
    + apply evalR_emul.
Qed.

Lemma scaled_jacobian_shape scale (l : list expr) (X : list (list expr)) :
  l <> [] ->
  shape (smul scale (jacobian (column l) X)) = (length l, length (flat X)).
Proof.
  intros Hl. unfold shape, smul, jacobian. rewrite flat_column.
  rewrite !length_fmap. destruct l as [|fi l]; [contradiction|].
  simpl. rewrite !length_fmap. reflexivity.
Qed.

End Jacobians.

(* ===================================================================== *)
(** * Linearisation *)
(* ===================================================================== *)

Section Linearisation.
Local Open Scope R_scope.

(** C3: for every instance the constructor builds, [A] is 14 x 14 and [B]
    is 14 x 3, and wherever an entry of [f] is differentiable, the entry
    of [A] (of [B]) in that row denotes [s] times the partial derivative
    of that entry of [f] in the state symbol (control symbol) of its
    column, the symbols taken in the fixed order; the derivative is the
    limit of the difference quotient itself, not an approximation. *)
Theorem jacobians_are_scaled_exact_derivatives constants d out :
  init constants = Ok (d, out) ->
  shape (Dynamics.A d) = (14, 14)%nat /\
  shape (Dynamics.B d) = (14, 3)%nat /\
  forall i, (i < 14)%nat ->
    exists fi,
      entry (Dynamics.f d) i 0 = Some fi /\
      (forall j xj, state_names !! j = Some xj ->
         exists aij,
           entry (Dynamics.A d) i j = Some aij /\
           forall rho, smooth rho fi ->
             exists l,
               derivable_pt_lim (fun t => evalR (update rho xj t) fi) (rho xj) l /\
               evalR rho aij = rho "s" * l) /\
      (forall j uj, control_names !! j = Some uj ->
         exists bij,
           entry (Dynamics.B d) i j = Some bij /\
           forall rho, smooth rho fi ->
             exists l,
               derivable_pt_lim (fun t => evalR (update rho uj t) fi) (rho uj) l /\
               evalR rho bij = rho "s" * l).
Proof.
  intros Hinit.
  destruct (init_derive _ _ _ Hinit) as (alpha & rTB & J & g & _ & -> & Hshape).
  destruct (assemble_column alpha rTB J g Hshape) as (l & Hlen & Hl).
  assert (Hne : l <> []) by (intros ->; discriminate).
  unfold derive. cbn [Dynamics.A Dynamics.B Dynamics.f]. rewrite Hl.
  split; [|split].
  - rewrite scaled_jacobian_shape, Hlen by exact Hne. reflexivity.
  - rewrite scaled_jacobian_shape, Hlen by exact Hne. reflexivity.
  - intros i Hi.
    destruct (lookup_lt_is_Some_2 l i) as [fi Hfi]; [rewrite Hlen; exact Hi|].
    exists fi. rewrite entry_column. split; [exact Hfi|]. split.
    + intros j xj Hj.
      apply (scaled_jacobian_entry self_s l self_x state_names i j fi xj);
        [reflexivity|exact Hfi|exact Hj].
    + intros j uj Hj.
      apply (scaled_jacobian_entry self_s l self_u control_names i j fi uj);
        [reflexivity|exact Hfi|exact Hj].
Qed.

Lemma jacobians_are_scaled_exact_derivatives_witness :
  shape (Dynamics.A symbolic) = (14, 14)%nat /\
  shape (Dynamics.B symbolic) = (14, 3)%nat /\
  forall i, (i < 14)%nat ->
    exists fi,
      entry (Dynamics.f symbolic) i 0 = Some fi /\
      (forall j xj, state_names !! j = Some xj ->
         exists aij,
           entry (Dynamics.A symbolic) i j = Some aij /\
           forall rho, smooth rho fi ->
             exists l,
               derivable_pt_lim (fun t => evalR (update rho xj t) fi) (rho xj) l /\
               evalR rho aij = rho "s" * l) /\
      (forall j uj, control_names !! j = Some uj ->
         exists bij,
           entry (Dynamics.B symbolic) i j = Some bij /\
           forall rho, smooth rho fi ->
             exists l,
               derivable_pt_lim (fun t => evalR (update rho uj t) fi) (rho uj) l /\
               evalR rho bij = rho "s" * l).
Proof.
  apply (jacobians_are_scaled_exact_derivatives None symbolic
           (Some (generate_functions symbolic))).
  reflexivity.
Defined.

End Linearisation.

(* ===================================================================== *)
(** * Real 3 x 3 matrices *)
(* ===================================================================== *)

Section RealMatrices.
Local Open Scope R_scope.

Ltac explicit :=
  repeat match goal with
         | H : is3x3 _ |- _ => destruct H as (?&?&?&?&?&?&?&?&?&->)
         end.

Ltac entries :=
  cbn; repeat match goal with |- _ :: _ = _ :: _ => f_equal end.

Lemma is3x3_mmul X Y : is3x3 X -> is3x3 Y -> is3x3 (mmul X Y).
Proof. intros. explicit. do 9 eexists. reflexivity. Qed.

Lemma is3x3_mtranspose X : is3x3 X -> is3x3 (mtranspose X).
Proof. intros. explicit. do 9 eexists. reflexivity. Qed.

Lemma is3x3_inv3 X : is3x3 X -> is3x3 (inv3 X).
Proof. intros. explicit. do 9 eexists. reflexivity. Qed.

Lemma is3x3_identity3 : is3x3 identity3.
Proof. do 9 eexists. reflexivity. Qed.

Lemma mmul_assoc3 X Y Z :
  is3x3 X -> is3x3 Y -> is3x3 Z -> mmul (mmul X Y) Z = mmul X (mmul Y Z).
Proof. intros. explicit. entries; ring. Qed.

Lemma mmul_identity3_l X : is3x3 X -> mmul identity3 X = X.
Proof. intros. explicit. unfold identity3. entries; ring. Qed.

Lemma mmul_identity3_r X : is3x3 X -> mmul X identity3 = X.
Proof. intros. explicit. unfold identity3. entries; ring. Qed.

Lemma mtranspose_identity3 : mtranspose (identity3 (T := R)) = identity3.
Proof. reflexivity. Qed.

Lemma det3_gram X :
  is3x3 X -> det3 (mmul (mtranspose X) X) = det3 X * det3 X.
Proof. intros. explicit. cbn. unfold det2. cbn. ring. Qed.

Lemma inv3_l X : is3x3 X -> det3 X <> 0 -> mmul (inv3 X) X = identity3.
Proof.
  intros HX. explicit. intros HD. unfold identity3, inv3.
  set (D := det3 _) in *. entries; unfold det2; cbn.
  all: try (field; exact HD).
  all: unfold D, det3, det2; cbn; field_simplify_eq; try exact HD; ring.
Qed.

Lemma inv3_r X : is3x3 X -> det3 X <> 0 -> mmul X (inv3 X) = identity3.
Proof.
  intros HX. explicit. intros HD. unfold identity3, inv3.
  set (D := det3 _) in *. entries; unfold det2; cbn.
  all: try (field; exact HD).
  all: unfold D, det3, det2; cbn; field_simplify_eq; try exact HD; ring.
Qed.

(** For a tensor of full rank, [pinv] is the pseudo-inverse. *)
Lemma pinv_moore_penrose X :
  is3x3 X -> det3 X <> 0 -> moore_penrose X (pinv X).
Proof.
  intros HX HD. unfold pinv.
  set (Xt := mtranspose X). set (M := mmul Xt X). set (N := inv3 M).
  assert (HXt : is3x3 Xt) by (apply is3x3_mtranspose, HX).
  assert (HM : is3x3 M) by (apply is3x3_mmul; assumption).
  assert (HN : is3x3 N) by (apply is3x3_inv3, HM).
  assert (HDM : det3 M <> 0).
  { unfold M, Xt. rewrite det3_gram by exact HX. nra. }
  set (P := mmul N Xt).
  assert (HP : is3x3 P) by (apply is3x3_mmul; assumption).
  assert (HPX : mmul P X = identity3).
  { unfold P. rewrite mmul_assoc3 by assumption. apply inv3_l; assumption. }
  assert (HXP : mmul X P = identity3).
  { rewrite <- (mmul_identity3_r (mmul X P)) by (apply is3x3_mmul; assumption).
    rewrite <- (inv3_r X HX HD).
    rewrite <- (mmul_assoc3 (mmul X P) X (inv3 X));
      [|apply is3x3_mmul; assumption|assumption|apply is3x3_inv3, HX].
    rewrite (mmul_assoc3 X P X) by assumption.
    rewrite HPX, mmul_identity3_r by assumption. reflexivity. }
  unfold moore_penrose. rewrite HXP, HPX.
  rewrite !mmul_identity3_l by assumption.
  repeat split; reflexivity.
Qed.

End RealMatrices.

(* ===================================================================== *)
(** * The right-hand side *)
(* ===================================================================== *)

Section RightHandSide.
Local Open Scope R_scope.

Lemma nreal_one : nreal (Flt 1) = 1.
Proof. unfold nreal, Q2R. simpl. lra. Qed.

Lemma nreal_half : nreal (Flt (1 # 2)) = 1 / 2.
Proof. unfold nreal, Q2R. simpl. lra. Qed.

Lemma evalR_u_mag rho :
  evalR rho u_mag = sqrt (rho "u0" ^ 2 + rho "u1" ^ 2 + rho "u2" ^ 2).
Proof. reflexivity. Qed.

(** Scaling the rotation before or after it is applied to the thrust. *)
Lemma thrust_block a X (u0 u1 u2 g0 g1 g2 : R) :
  is3x3 X ->
  madd (mmul (smul a X) [[u0]; [u1]; [u2]]) [[g0]; [g1]; [g2]]
  = madd (smul a (mmul X [[u0]; [u1]; [u2]])) [[g0]; [g1]; [g2]].
Proof.
  intros (x0 & x1 & x2 & x3 & x4 & x5 & x6 & x7 & x8 & ->).
  cbn. repeat match goal with |- _ :: _ = _ :: _ => f_equal end; ring.
Qed.

Lemma quaternion_block a X (q0 q1 q2 q3 : R) :
  length X = 4%nat ->
  mmul (smul a X) [[q0]; [q1]; [q2]; [q3]]
  = smul a (mmul X [[q0]; [q1]; [q2]; [q3]]).
Proof.
  intros HX. unfold mmul, smul. rewrite <- !list_fmap_compose.
  apply list_fmap_ext. intros _ row _. cbn.
  f_equal. unfold dot. cbn.
  destruct row as [|x0 [|x1 [|x2 [|x3 [|x4 row]]]]]; cbn; ring.
Qed.

Lemma blocks_of_set_rows (F0 : R) (V X4 X7 X11 : list (list R)) :
  length V = 3%nat -> length X4 = 3%nat -> length X7 = 4%nat ->
  length X11 = 3%nat ->
  set_rows (set_rows (set_rows (set_rows (mset (zeros 14 1) 0 0 F0) 1 V) 4 X4) 7 X7)
           11 X11
  = [[F0]] ++ V ++ X4 ++ X7 ++ X11.
Proof.
  intros HV H4 H7 H11.
  destruct V as [|? [|? [|? [|]]]]; try discriminate.
  destruct X4 as [|? [|? [|? [|]]]]; try discriminate.
  destruct X7 as [|? [|? [|? [|? [|]]]]]; try discriminate.
  destruct X11 as [|? [|? [|? [|]]]]; try discriminate.
  reflexivity.
Qed.



End RightHandSide.

(* ===================================================================== *)
(** * Numeric evaluation *)
(* ===================================================================== *)

Section EvalLemmas.
Local Open Scope R_scope.

Lemma eval_defined subst e :
  bound subst e = true -> defined (env_of subst) e ->
  eval subst e = Ok (evalR (env_of subst) e).
Proof.
  induction e as [n|y|a IHa b IHb|a IHa b IHb|a IHa k|a IHa]; cbn [bound defined eval evalR].
  - reflexivity.
  - unfold env_of. destruct (assoc subst y); [reflexivity|discriminate].
  - intros [Ha Hb]%andb_true_iff [Da Db]. rewrite IHa, IHb by assumption. reflexivity.
  - intros [Ha Hb]%andb_true_iff [Da Db]. rewrite IHa, IHb by assumption. reflexivity.
  - intros Ha [Da Dk]. rewrite IHa by assumption. cbn [bind].
    destruct (exponent k) as [z|]; [|contradiction].
    destruct (Z.ltb_spec z 0) as [Hz|Hz]; [|reflexivity].
    destruct (Req_dec_T (evalR (env_of subst) a) 0) as [E|E]; [|reflexivity].
    exfalso. exact (Dk Hz E).
  - intros Ha [Da Dk]. rewrite IHa by assumption. cbn [bind].
    destruct (Rle_dec 0 (evalR (env_of subst) a)); [reflexivity|contradiction].
Qed.



Lemma mapM_ok {A B : Type} (f : A -> result B) (g : A -> B) (l : list A) :
  Forall (fun a => f a = Ok (g a)) l -> mapM f l = Ok (map g l).
Proof.
  induction 1 as [|a l Ha _ IH]; cbn [mapM map]; [reflexivity|].
  rewrite Ha, IH. reflexivity.
Qed.

End EvalLemmas.

(* ===================================================================== *)
(** * Lengths of the vectors passed to [get] *)
(* ===================================================================== *)

Section Dimensions.

Lemma state_substitutions_short xs xi n :
  symbol_rows xs -> (n <= length xi)%nat -> (length xi < n + length xs)%nat ->
  state_substitutions n xs xi = Raise IndexError.
Proof.
  intros Hxs. revert n. induction Hxs as [|row xs [name ->] _ IH]; intros n Hn Hlen.
  - simpl in Hlen. lia.
  - cbn [state_substitutions lookup list_lookup symbol_name bind].
    destruct (entry xi n 0) as [val|] eqn:E; [|reflexivity].
    cbn [bind]. rewrite IH; [reflexivity| |simpl in Hlen; lia].
    unfold entry in E. destruct (xi !! n) eqn:En; [|discriminate].
    apply lookup_lt_Some in En. lia.
Qed.

Lemma state_substitutions_error xs xi n err :
  symbol_rows xs -> state_substitutions n xs xi = Raise err -> err = IndexError.
Proof.
  intros Hxs. revert n. induction Hxs as [|row xs [name ->] _ IH]; intros n.
  - discriminate.
  - cbn [state_substitutions lookup list_lookup symbol_name bind].
    destruct (entry xi n 0); [|intros [= <-]; reflexivity].
    cbn [bind]. destruct (state_substitutions (S n) xs xi) eqn:E; [discriminate|].
    intros [= <-]. exact (IH _ E).
Qed.

Lemma control_substitutions_short us ui n :
  symbols_only us -> (n <= length ui)%nat -> (length ui < n + length us)%nat ->
  control_substitutions n us ui = Raise IndexError.
Proof.
  intros Hus. revert n. induction Hus as [|e us [name ->] _ IH]; intros n Hn Hlen.
  - simpl in Hlen. lia.
  - cbn [control_substitutions symbol_name bind].
    destruct (ui !! n) as [val|] eqn:E; [|reflexivity].
    cbn [bind]. rewrite IH; [reflexivity| |simpl in Hlen; lia].
    apply lookup_lt_Some in E. lia.
Qed.

Lemma state_substitutions_app xs xi extra n :
  (n + length xs <= length xi)%nat ->
  state_substitutions n xs (xi ++ extra) = state_substitutions n xs xi.
Proof.
  revert n. induction xs as [|row xs IH]; intros n Hlen; [reflexivity|].
  cbn [state_substitutions]. simpl in Hlen.
  rewrite IH by lia. unfold entry. rewrite lookup_app_l by lia. reflexivity.
Qed.

Lemma control_substitutions_app us ui extra n :
  (n + length us <= length ui)%nat ->
  control_substitutions n us (ui ++ extra) = control_substitutions n us ui.
Proof.
  revert n. induction us as [|e us IH]; intros n Hlen; [reflexivity|].
  cbn [control_substitutions]. simpl in Hlen.
  rewrite IH by lia. rewrite lookup_app_l by lia. reflexivity.
Qed.

Lemma self_x_symbol_rows : symbol_rows self_x.
Proof. unfold self_x, Var.m. repeat constructor; eexists; reflexivity. Qed.

Lemma self_u_symbols_only : symbols_only (flat self_u).
Proof. repeat constructor; eexists; reflexivity. Qed.

Lemma get_short_raises alpha rTB J g name xi ui si :
  (length xi < 14)%nat \/ (length ui < 3)%nat ->
  get (derive alpha rTB J g) name xi ui si = Raise IndexError.
Proof.
  unfold get, derive. cbn [Dynamics.x Dynamics.u Dynamics.s].
  intros Hshort.
  destruct (state_substitutions 0 self_x xi) as [sx|err] eqn:Ex.
  - cbn [bind]. rewrite control_substitutions_short; [reflexivity| | |].
    + apply self_u_symbols_only.
    + lia.
    + destruct Hshort as [Hx|Hu]; [|simpl; lia].
      exfalso. rewrite state_substitutions_short in Ex; [discriminate| | |].
      * apply self_x_symbol_rows.
      * lia.
      * simpl. lia.
  - cbn [bind]. f_equal.
    apply (state_substitutions_error _ _ _ _ self_x_symbol_rows Ex).
Qed.

Lemma get_ignores_extra alpha rTB J g name xi ui si more_x more_u :
  (14 <= length xi)%nat -> (3 <= length ui)%nat ->
  get (derive alpha rTB J g) name (xi ++ more_x) (ui ++ more_u) si
  = get (derive alpha rTB J g) name xi ui si.
Proof.
  unfold get, derive. cbn [Dynamics.x Dynamics.u Dynamics.s].
  intros Hx Hu.
  rewrite state_substitutions_app by (simpl; lia).
  rewrite control_substitutions_app by (simpl; lia).
  reflexivity.
Qed.

(** C7, as the code has it: a state of fewer than 14 rows or a control
    of fewer than 3 entries makes [get] fail with an index error; rows
    and entries beyond the 14th and the 3rd are not read, so a longer
    vector gives the result of its first 14 (3) entries. *)
Theorem get_fails_on_short_vectors_only constants d out name xi ui si :
  init constants = Ok (d, out) ->
  ((length xi < 14)%nat \/ (length ui < 3)%nat ->
   get d name xi ui si = Raise IndexError) /\
  (forall more_x more_u,
     (14 <= length xi)%nat -> (3 <= length ui)%nat ->
     get d name (xi ++ more_x) (ui ++ more_u) si = get d name xi ui si).
Proof.
  intros Hinit.
  destruct (init_derive _ _ _ Hinit) as (alpha & rTB & J & g & _ & -> & _).
  split.
  - apply get_short_raises.
  - intros more_x more_u. apply get_ignores_extra.
Qed.

End Dimensions.

(* ===================================================================== *)
(** * A numeric instance and the module generated for it *)
(* ===================================================================== *)

Ltac compute_exponents :=
  repeat match goal with
         | |- context [exponent ?k] =>
             let v := eval vm_compute in (exponent k) in
             change (exponent k) with v
         end;
  cbv iota.

Section NumericInstance.
Local Open Scope R_scope.

Lemma init_example : init (Some example_constants) = Ok (numeric, None).
Proof. vm_compute. reflexivity. Qed.

Lemma get_explicit d name x0 x1 x2 x3 x4 x5 x6 x7 x8 x9 x10 x11 x12 x13
    u0 u1 u2 si (more_x : list (list R)) (more_u : list R) :
  Dynamics.x d = self_x -> Dynamics.u d = self_u -> Dynamics.s d = self_s ->
  get d name
      (column [x0; x1; x2; x3; x4; x5; x6; x7; x8; x9; x10; x11; x12; x13] ++ more_x)
      ([u0; u1; u2] ++ more_u) si
  = let* function := getattr d name in
    mapM (mapM (eval (substitutions
                        [x0; x1; x2; x3; x4; x5; x6; x7; x8; x9; x10; x11; x12; x13]
                        [u0; u1; u2] si)))
         function.
Proof. intros Hx Hu Hs. unfold get. rewrite Hx, Hu, Hs. reflexivity. Qed.

Lemma rpow_2_nonneg b : 0 <= rpow b 2.
Proof. unfold rpow. simpl. nra. Qed.

Lemma nreal_nonzero n : nis_zero n = false -> nreal n <> 0.
Proof.
  unfold nis_zero, nreal. intros E H.
  assert (Hq : (nvalue n == 0)%Q).
  { apply eqR_Qeq. rewrite H. unfold Q2R. simpl. lra. }
  apply Qeq_eq_bool in Hq. congruence.
Qed.

(** Wherever the mass is not zero, every entry of the numeric [f]
    evaluates. *)
Lemma numeric_f_defined rho :
  rho "m" <> 0 -> Forall (Forall (defined rho)) (Dynamics.f numeric).
Proof.
  intros Hm.
  let v := eval vm_compute in (Dynamics.f numeric) in
  change (Dynamics.f numeric) with v.
  repeat (apply Forall_cons; split); try apply Forall_nil.
  all: cbn [defined evalR]; compute_exponents; repeat split; try exact I.
  all: try (intros _; first [exact Hm | apply nreal_nonzero; reflexivity]).
  all: try lia.
  pose proof (rpow_2_nonneg (rho "u0")).
  pose proof (rpow_2_nonneg (rho "u1")).
  pose proof (rpow_2_nonneg (rho "u2")).
  lra.
Qed.

End NumericInstance.

Section GeneratedModule.
Local Open Scope R_scope.

Lemma eval_matrix_ok subst (M : list (list expr)) :
  forallb (forallb (bound subst)) M = true ->
  Forall (Forall (defined (env_of subst))) M ->
  mapM (mapM (eval subst)) M = Ok (map (map (evalR (env_of subst))) M).
Proof.
  intros Hb Hd. apply mapM_ok.
  rewrite forallb_forall in Hb. rewrite Forall_forall in *.
  intros row Hrow. apply mapM_ok. specialize (Hb row). specialize (Hd row Hrow).
  rewrite forallb_forall in Hb. rewrite Forall_forall in *.
  intros e He. apply eval_defined; [apply Hb|apply Hd]; try assumption.
  all: apply list_elem_of_In; assumption.
Qed.

Lemma entry_matrix_ok env (M : list (list expr)) :
  forallb (forallb (bound env)) M = true ->
  Forall (Forall (defined (env_of env))) M ->
  mapM (mapM (entry_value env)) M
  = Ok (map (map (written_value (env_of env))) M).
Proof.
  intros Hb Hd. apply mapM_ok.
  rewrite forallb_forall in Hb. rewrite Forall_forall in *.
  intros row Hrow. apply mapM_ok. specialize (Hb row). specialize (Hd row Hrow).
  rewrite forallb_forall in Hb. rewrite Forall_forall in *.
  intros e He. unfold entry_value, written_value.
  destruct (negb (String.eqb (str e) "0")); [|reflexivity].
  apply eval_defined; [apply Hb|apply Hd]; try assumption.
  all: apply list_elem_of_In; assumption.
Qed.


End GeneratedModule.

(* ===================================================================== *)
(** * The control Jacobian at zero control *)
(* ===================================================================== *)

Section ZeroControl.
Local Open Scope R_scope.



End ZeroControl.

Section ZeroControlTheorem.
Local Open Scope R_scope.


Lemma get_column d name x0 x1 x2 x3 x4 x5 x6 x7 x8 x9 x10 x11 x12 x13
    u0 u1 u2 si :
  Dynamics.x d = self_x -> Dynamics.u d = self_u -> Dynamics.s d = self_s ->
  get d name
      (column [x0; x1; x2; x3; x4; x5; x6; x7; x8; x9; x10; x11; x12; x13])
      [u0; u1; u2] si
  = let* function := getattr d name in
    mapM (mapM (eval (substitutions
                        [x0; x1; x2; x3; x4; x5; x6; x7; x8; x9; x10; x11; x12; x13]
                        [u0; u1; u2] si)))
         function.
Proof. intros Hx Hu Hs. unfold get. rewrite Hx, Hu, Hs. reflexivity. Qed.



End ZeroControlTheorem.

(* ===================================================================== *)
(** * The names of the constants *)
(* ===================================================================== *)

Section ConstantNames.
Local Open Scope R_scope.

Lemma constructor_needs_g (C : gmap string pyval) r :
  C !! "g" = None -> init (Some C) <> Ok r.
Proof.
  intros Hg. unfold init, bind_constants, bind.
  destruct (getitem C "alpha"); [|discriminate].
  destruct (getitem C "rTB") as [val|]; [|discriminate].
  destruct (Matrix val); [|discriminate].
  destruct (getitem C "J") as [val'|]; [|discriminate].
  destruct (Matrix val'); [|discriminate].
  unfold getitem at 1. rewrite Hg. discriminate.
Qed.

Lemma constants_unpacking_raises (C : gmap string pyval) args :
  C !! "g_I" = None ->
  exists err,
    run_unpackings (set_parameters C ∅) args constants_unpacking = Raise err.
Proof.
  intros Hg.
  assert (E : set_parameters C ∅ !! "g_I" = None).
  { unfold set_parameters. rewrite lookup_union, Hg, lookup_empty. reflexivity. }
  unfold constants_unpacking. cbn [run_unpackings].
  unfold run_unpacking.
  repeat match goal with
         | |- context [parse_unpacking ?stmt] =>
             let v := eval vm_compute in (parse_unpacking stmt) in
             change (parse_unpacking stmt) with v
         end.
  cbv iota beta. rewrite E.
  destruct (set_parameters C ∅ !! "J") as [vJ|]; [|eexists; reflexivity].
  destruct (bind_targets ["J"] vJ); cbn [bind]; [|eexists; reflexivity].
  destruct (set_parameters C ∅ !! "alpha") as [va|]; [|eexists; reflexivity].
  destruct (bind_targets ["alpha"] va); cbn [bind]; eexists; reflexivity.
Qed.

Lemma module_needs_g_I (C : gmap string pyval) name xs us si M :
  C !! "g_I" = None ->
  generated symbolic name (set_parameters C ∅) xs us si <> Ok M.
Proof.
  intros Hg. unfold generated.
  destruct (assoc (functions symbolic) name); [|discriminate].
  unfold bind at 1.
  destruct (match si with Some _ => _ | None => _ end); [|discriminate].
  unfold bind at 1.
  destruct (run_unpackings _ _ variables_unpacking); [|discriminate].
  destruct (constants_unpacking_raises C [("x", xs); ("u", us)] Hg) as [err ->].
  discriminate.
Qed.

End ConstantNames.

Section RoundTrip.
Local Open Scope R_scope.

Lemma get_f_at_rest :
  get numeric "f" (column rest_state) [0; 0; 0] 1
  = Ok (column [0; 0; 0; 0; -1; 0; 0; 0; 0; 0; 0; 0; 0; 0]).
Proof.
  unfold rest_state. rewrite get_column by reflexivity.
  change (getattr numeric "f") with (Ok (Dynamics.f numeric)). cbn [bind].
  rewrite eval_matrix_ok;
    [|vm_compute; reflexivity|apply numeric_f_defined; apply R1_neq_R0].
  f_equal.
  let v := eval vm_compute in (Dynamics.f numeric) in
  change (Dynamics.f numeric) with v.
  cbn [map evalR column]. compute_exponents.
  repeat match goal with
         | |- context [env_of ?s ?x] =>
             let v := eval lazy in (assoc s x) in
             change (env_of s x) with (default 0 v)
         end.
  cbn [default].
  change (Datatypes.id R0) with 0. change (Datatypes.id R1) with 1.
  unfold nreal, Q2R, rpow. cbn [nvalue inject_Z Qnum Qden powerRZ].
  change (Pos.to_nat 2) with 2%nat. change (Pos.to_nat 1) with 1%nat.
  simpl pow.
  replace (0 * (0 * 1) + 0 * (0 * 1) + 0 * (0 * 1)) with 0 by ring.
  rewrite sqrt_0.
  repeat match goal with |- _ :: _ = _ :: _ => f_equal end.
  all: field; lra.
Qed.

(** C1, at the constants [alpha], [rTB], [J], [g] of the example and the
    state at rest with zero control: the constructor accepts the mapping
    and [get] returns [f = (0, 0, 0, 0, -1, 0, ...)], while the evaluator
    [f] of the generated module configured with the same mapping raises
    an attribute error for [g_I] and returns nothing. *)
Theorem round_trip_fails_on_the_gravity_key :
  init (Some example_constants) = Ok (numeric, None) /\
  get numeric "f" (column rest_state) [0; 0; 0] 1
  = Ok (column [0; 0; 0; 0; -1; 0; 0; 0; 0; 0; 0; 0; 0; 0]) /\
  generated symbolic "f" (set_parameters example_constants ∅) rest_state [0; 0; 0] None
  = Raise (AttributeError "g_I").
Proof.
  split; [exact init_example|]. split; [exact get_f_at_rest|].
  vm_compute. reflexivity.
Qed.

(** C6: the evaluators of the generated module read the attributes [J],
    [alpha], [g_I] and [rTB]; the constructor cannot be built from a
    mapping without the key [g], and no evaluator of the generated
    module returns when it is configured from a mapping without the key
    [g_I]. *)
Theorem gravity_is_read_under_two_names :
  attributes_read = ["J"; "alpha"; "g_I"; "rTB"] /\
  (forall (C : gmap string pyval) r, C !! "g" = None -> init (Some C) <> Ok r) /\
  (forall (C : gmap string pyval) name xs us si M,
     C !! "g_I" = None ->
     generated symbolic name (set_parameters C ∅) xs us si <> Ok M).
Proof.
  split; [vm_compute; reflexivity|]. split.
  - intros C r. apply constructor_needs_g.
  - intros C name xs us si M. apply module_needs_g_I.
Qed.

(** A state of 15 rows and a control of 4 entries are accepted. *)
Lemma get_accepts_longer_vectors :
  length (column rest_state ++ [[7]]) <> 14%nat /\
  length [0; 0; 0; 7] <> 3%nat /\
  get numeric "f" (column rest_state ++ [[7]]) [0; 0; 0; 7] 1
  = Ok (column [0; 0; 0; 0; -1; 0; 0; 0; 0; 0; 0; 0; 0; 0]).
Proof.
  split; [simpl; lia|]. split; [simpl; lia|].
  rewrite <- get_f_at_rest.
  apply (get_ignores_extra _ _ _ _ "f" (column rest_state) [0; 0; 0] 1 [[7]] [7]).
  - simpl. lia.
  - simpl. lia.
Qed.

Lemma get_fails_on_short_vectors_only_witness :
  get numeric "f" [] [] 1 = Raise IndexError.
Proof.
  apply (proj1 (get_fails_on_short_vectors_only (Some example_constants) numeric
                  None "f" [] [] 1 init_example)).
  left. simpl. lia.
Defined.

End RoundTrip.

(* ===================================================================== *)
(** * The rotation matrix *)
(* ===================================================================== *)

Section Rotation.
Local Open Scope R_scope.

(** C8: on numbers, [cIB(q)] times its transpose is the identity for
    every quaternion of unit norm, [cIB((1, 0, 0, 0))] is the identity,
    and the function does not normalise its argument: for the quaternion
    [(0, 0, 0, 2)] of norm 2 the product is not the identity. *)
Theorem cIB_is_orthogonal_on_unit_quaternions :
  (forall q0 q1 q2 q3 : R,
     q0 ^ 2 + q1 ^ 2 + q2 ^ 2 + q3 ^ 2 = 1 ->
     mmul (cIB (q0, q1, q2, q3)) (mtranspose (cIB (q0, q1, q2, q3))) = identity3) /\
  cIB (1, 0, 0, 0) = identity3 /\
  mmul (cIB (0, 0, 0, 2)) (mtranspose (cIB (0, 0, 0, 2))) <> identity3.
Proof.
  split; [|split].
  - intros q0 q1 q2 q3 Hq. unfold identity3. cbn. unfold rpow. cbn.
    change (Pos.to_nat 2) with 2%nat. simpl pow in *.
    repeat match goal with |- _ :: _ = _ :: _ => f_equal end.
    all: nsatz.
  - unfold identity3. cbn. unfold rpow. cbn.
    change (Pos.to_nat 2) with 2%nat. simpl pow.
    repeat match goal with |- _ :: _ = _ :: _ => f_equal end.
    all: ring.
  - unfold identity3. cbn. unfold rpow. cbn.
    change (Pos.to_nat 2) with 2%nat. simpl pow.
    intros E. injection E as E _. lra.
Qed.

Lemma cIB_is_orthogonal_on_unit_quaternions_witness :
  mmul (cIB (0, 1, 0, 0)) (mtranspose (cIB (0, 1, 0, 0))) = identity3 (T := R).
Proof.
  apply (proj1 cIB_is_orthogonal_on_unit_quaternions). lra.
Defined.

End Rotation.

(* ===================================================================== *)
(** * The text of printed expressions *)
(* ===================================================================== *)

Section Text.
Lemma append_cons c (a b : string) : String c a +:+ b = String c (a +:+ b).
Proof. reflexivity. Qed.

Lemma append_nil_l (a : string) : "" +:+ a = a.
Proof. reflexivity. Qed.

Lemma has_app c a b : has c (a +:+ b) = has c a || has c b.
Proof.
  induction a as [|c' a IH]; [reflexivity|].
  rewrite append_cons. cbn [has]. rewrite IH. apply orb_assoc.
Qed.








End Text.

Section ZeroTest.
Lemma length_append (a b : string) :
  String.length (a +:+ b) = (String.length a + String.length b)%nat.
Proof.
  induction a as [|c a IH]; [reflexivity|].
  rewrite append_cons. cbn [String.length]. rewrite IH. reflexivity.
Qed.

Lemma length_digits fuel n acc :
  (String.length acc + (if fuel is O then 0 else 1)
   <= String.length (digits fuel n acc))%nat.
Proof.
  revert n acc. induction fuel as [|fuel IH]; intros n acc; cbn [digits]; [lia|].
  destruct (n <? 10)%N; [cbn [String.length]; lia|].
  specialize (IH (n / 10)%N (String (digit n) acc)). cbn [String.length] in IH.
  destruct fuel; lia.
Qed.

Lemma str_N_zero n : str_N n = "0" -> n = 0%N.
Proof.
  unfold str_N. cbn [digits]. destruct (N.ltb_spec n 10) as [Hlt|Hge].
  - intros [= E]. unfold digit in E. rewrite N.mod_small in E by exact Hlt.
    assert (Hn : In n [0; 1; 2; 3; 4; 5; 6; 7; 8; 9]%N) by (simpl; lia).
    simpl in Hn.
    repeat (destruct Hn as [<-|Hn]; [first [reflexivity|discriminate]|]).
    contradiction.
  - intros E. apply (f_equal String.length) in E. cbn [String.length] in E.
    pose proof (length_digits (N.size_nat n) (n / 10) (String (digit n) "")) as H.
    cbn [String.length] in H. destruct n as [|p]; [lia|].
    destruct (N.size_nat (N.pos p)) eqn:Es; [destruct p; discriminate|]. lia.
Qed.

Lemma str_eq_has c (a b : string) : a = b -> has c a = has c b.
Proof. intros ->. reflexivity. Qed.

(** Only the Integer zero is printed as [0]. *)
Lemma str_zero e : wf e = true -> str e = "0" -> e = zero.
Proof.
  destruct e as [[z|q]|name|a b|a b|a k|a]; cbn [wf str str_number].
  - intros _ E. unfold zero. do 2 f_equal. destruct z as [|p|p].
    + reflexivity.
    + unfold str_Z in E. apply str_N_zero in E. discriminate.
    + unfold str_Z in E. rewrite append_cons in E. discriminate.
  - intros _ E. apply (str_eq_has ".") in E. unfold str_Q in E.
    rewrite !has_app in E. cbn in E. rewrite ?orb_true_r in E. discriminate.
  - intros Hk ->. discriminate.
  - intros _ E. apply (str_eq_has " ") in E.
    rewrite !has_app in E. cbn in E. rewrite ?orb_true_r in E. discriminate.
  - intros _ E. apply (str_eq_has "*") in E.
    rewrite !has_app in E. cbn in E. rewrite ?orb_true_r in E. discriminate.
  - intros _ E. apply (str_eq_has "*") in E.
    rewrite !has_app in E. cbn in E. rewrite ?orb_true_r in E. discriminate.
  - intros _ E. apply (str_eq_has "s") in E.
    rewrite !has_app in E. cbn in E. discriminate.
Qed.

Lemma str_zero_iff e : wf e = true -> (str e = "0" <-> e = zero).
Proof.
  intros Hwf. split; [apply str_zero, Hwf|]. intros ->. reflexivity.
Qed.

End ZeroTest.

(* ===================================================================== *)
(** * The assignments of the generated text *)
(* ===================================================================== *)

Section Assignments.



Lemma entry_in_range {T : Type} (M : list (list T)) n m e :
  rectangular M = true -> entry M n m = Some e ->
  (n < fst (shape M))%nat /\ (m < snd (shape M))%nat.
Proof.
  unfold rectangular, entry. intros Hrect He.
  destruct (M !! n) as [row|] eqn:En; [|discriminate].
  split.
  - apply lookup_lt_Some in En. exact En.
  - rewrite forallb_forall in Hrect.
    assert (Hin : In row M) by (apply list_elem_of_In, list_elem_of_lookup; eauto).
    apply Hrect, Nat.eqb_eq in Hin. rewrite <- Hin.
    apply lookup_lt_Some in He. exact He.
Qed.

Lemma assignments_elem name (M : list (list expr)) n m line :
  (n, m, line) ∈ assignments name M <->
  (n < fst (shape M))%nat /\ (m < snd (shape M))%nat /\
  exists e, entry M n m = Some e /\ str e <> "0" /\
            line = tab +:+ genline name n m (str e) +:+ nl.
Proof.
  unfold assignments. rewrite list_elem_of_bind. split.
  - intros (n' & Hin & Hn). rewrite elem_of_seq in Hn.
    rewrite list_elem_of_bind in Hin. destruct Hin as (m' & Hin & Hm).
    rewrite elem_of_seq in Hm.
    destruct (entry M n' m') as [e|] eqn:He; [|inversion Hin].
    destruct (String.eqb_spec (str e) "0") as [E|E]; simpl in Hin; [inversion Hin|].
    apply list_elem_of_singleton in Hin. injection Hin as -> -> ->.
    repeat split; [lia|lia|]. exists e. auto.
  - intros (Hn & Hm & e & He & Hnz & ->).
    exists n. split; [|apply elem_of_seq; lia].
    rewrite list_elem_of_bind. exists m. split; [|apply elem_of_seq; lia].
    rewrite He. destruct (String.eqb_spec (str e) "0") as [E|E]; [contradiction|].
    simpl. apply list_elem_of_singleton. reflexivity.
Qed.

(** In a rectangular matrix of well-formed entries, an assignment is
    written for an entry exactly when the entry is not the Integer
    zero. *)
Lemma assignment_iff_nonzero name (M : list (list expr)) n m e :
  rectangular M = true -> forallb (forallb wf) M = true ->
  entry M n m = Some e ->
  (e <> zero <-> exists line, (n, m, line) ∈ assignments name M).
Proof.
  intros Hrect Hwf He.
  assert (Hwe : wf e = true).
  { unfold entry in He. destruct (M !! n) as [row|] eqn:En; [|discriminate].
    rewrite forallb_forall in Hwf.
    assert (Hrow : forallb wf row = true)
      by (apply Hwf, list_elem_of_In, list_elem_of_lookup; eauto).
    rewrite forallb_forall in Hrow.
    apply Hrow, list_elem_of_In, list_elem_of_lookup. eauto. }
  destruct (entry_in_range M n m e Hrect He) as [Hn Hm].
  split.
  - intros Hnz. eexists. apply assignments_elem.
    repeat split; [exact Hn|exact Hm|]. exists e.
    repeat split; [exact He|]. intros E. apply Hnz, str_zero; assumption.
  - intros (line & Hin) ->. apply assignments_elem in Hin.
    destruct Hin as (_ & _ & e' & He' & Hnz & _).
    rewrite He in He'. injection He' as <-. apply Hnz. reflexivity.
Qed.


End Assignments.

Section GeneratedText.

Lemma symbolic_matrices name matrix :
  In (name, matrix) (functions symbolic) ->
  rectangular matrix = true /\ forallb (forallb wf) matrix = true.
Proof.
  intros [E|[E|[E|[]]]]; apply pair_equal_spec in E as [<- <-];
    split; vm_compute; reflexivity.
Qed.





(** An entry that is a number as small as [1e-30] is written. *)
Lemma tiny_entry_is_written name :
  exists line, (0%nat, 0%nat, line) ∈ assignments name [[Num (Flt (1 # 10 ^ 30))]].
Proof.
  apply (assignment_iff_nonzero name [[Num (Flt (1 # 10 ^ 30))]] 0 0
           (Num (Flt (1 # 10 ^ 30)))); try reflexivity.
  discriminate.
Qed.




End GeneratedText.

(* ===================================================================== *)
(** * The rewrite of the inertia-tensor names *)
(* ===================================================================== *)


Section Rewrite.










End Rewrite.

Section PrintedLines.








End PrintedLines.

Section IndexedLines.





End IndexedLines.

(* ===================================================================== *)
(** * Properties kept by the matrix operations *)
(* ===================================================================== *)

Ltac split_entries :=
  repeat match goal with
         | H : Forall _ (_ :: _) |- _ => apply Forall_cons in H as [? ?]
         | H : all_entries _ (_ :: _) |- _ => apply Forall_cons in H as [? ?]
         end.

Section Closure.
Context {T : Type} `{Scalar T} (P N : T -> Prop) `{!ScalarClosed P N}.

Local Abbreviation all := (all_entries P).

Lemma closed_zeros rows cols : all (zeros rows cols).
Proof.
  unfold all_entries, zeros. apply Forall_replicate, Forall_replicate.
  apply (closed_int (P := P)).
Qed.

Lemma closed_mset M n m a : all M -> P a -> all (mset M n m a).
Proof.
  intros HM Ha. unfold mset. destruct (M !! n) as [row|] eqn:E; [|exact HM].
  apply Forall_insert; [exact HM|].
  apply Forall_insert; [|exact Ha].
  exact (Forall_lookup_1 _ _ _ _ HM E).
Qed.

Lemma closed_set_rows M k rows : all M -> all rows -> all (set_rows M k rows).
Proof.
  intros HM Hr. unfold set_rows, all_entries.
  rewrite !Forall_app. repeat split.
  - apply Forall_take, HM.
  - exact Hr.
  - apply Forall_drop, HM.
Qed.

Lemma closed_column l : Forall P l -> all (column l).
Proof.
  intros Hl. unfold all_entries, column. apply Forall_fmap.
  eapply Forall_impl; [exact Hl|]. intros a Ha. simpl. repeat constructor. exact Ha.
Qed.

Lemma closed_flat M : all M -> Forall P (flat M).
Proof.
  unfold flat. induction 1 as [|row M Hrow _ IH]; simpl; [constructor|].
  apply Forall_app. split; assumption.
Qed.

Lemma closed_dot a b : Forall P a -> Forall P b -> P (dot a b).
Proof.
  unfold dot. intros Ha. revert b. induction Ha as [|x a Hx _ IH]; intros b Hb.
  - apply (closed_int (P := P)).
  - destruct Hb as [|y b Hy Hb]; simpl.
    + apply (closed_int (P := P)).
    + apply (closed_add (P := P)); [apply (closed_mul (P := P)); assumption|].
      apply IH, Hb.
Qed.

Lemma closed_mcol M j : all M -> Forall P (mcol M j).
Proof.
  unfold mcol. induction 1 as [|row M Hrow _ IH]; simpl; [constructor|].
  destruct (row !! j) as [a|] eqn:E; simpl; [|exact IH].
  constructor; [|exact IH]. exact (Forall_lookup_1 _ _ _ _ Hrow E).
Qed.

Lemma closed_mmul M M' : all M -> all M' -> all (mmul M M').
Proof.
  intros HM HM'. unfold mmul, all_entries. apply Forall_fmap.
  eapply Forall_impl; [exact HM|]. intros row Hrow. simpl.
  apply Forall_fmap, Forall_forall. intros j _. simpl.
  apply closed_dot; [exact Hrow|]. apply closed_mcol, HM'.
Qed.

Lemma closed_smul a M : P a -> all M -> all (smul a M).
Proof.
  intros Ha HM. unfold smul, all_entries. apply Forall_fmap.
  eapply Forall_impl; [exact HM|]. intros row Hrow. simpl.
  apply Forall_fmap. eapply Forall_impl; [exact Hrow|]. intros b Hb. simpl.
  apply (closed_mul (P := P)); assumption.
Qed.

Lemma closed_zip_with (op : T -> T -> T) :
  (forall a b, P a -> P b -> P (op a b)) ->
  forall M M', all M -> all M' -> all (zip_with (zip_with op) M M').
Proof.
  intros Hop M M' HM. revert M'.
  induction HM as [|row M Hrow _ IH]; intros M' HM'; [constructor|].
  destruct HM' as [|row' M' Hrow' HM']; simpl; constructor; [|apply IH, HM'].
  clear IH. revert row' Hrow'.
  induction Hrow as [|a row Ha _ IHr]; intros row' Hrow'; [constructor|].
  destruct Hrow' as [|b row' Hb Hrow']; simpl; constructor; [|apply IHr, Hrow'].
  apply Hop; assumption.
Qed.

Lemma closed_madd M M' : all M -> all M' -> all (madd M M').
Proof. apply closed_zip_with. apply (closed_add (P := P)). Qed.

Lemma closed_msub M M' : all M -> all M' -> all (msub M M').
Proof. apply closed_zip_with. apply (closed_sub (P := P)). Qed.

Lemma closed_mtranspose M : all M -> all (mtranspose M).
Proof.
  intros HM. unfold mtranspose, all_entries. apply Forall_fmap, Forall_forall.
  intros j _. simpl. apply closed_mcol, HM.
Qed.

Lemma closed_cross a b : all a -> all b -> all (cross a b).
Proof.
  intros Ha%closed_flat Hb%closed_flat. unfold cross.
  unfold all_entries.
  destruct (flat a) as [|a0 [|a1 [|a2 [|]]]]; try (constructor; fail).
  destruct (flat b) as [|b0 [|b1 [|b2 [|]]]]; try (constructor; fail).
  split_entries.
  simpl. repeat constructor.
  all: apply (closed_sub (P := P)); apply (closed_mul (P := P)); assumption.
Qed.

Lemma closed_det2 a b c d : P a -> P b -> P c -> P d -> P (det2 a b c d).
Proof.
  intros. unfold det2.
  apply (closed_sub (P := P)); apply (closed_mul (P := P)); assumption.
Qed.

Lemma closed_det3 M : all M -> P (det3 M).
Proof.
  intros HM.
  destruct M as [|[|a [|b [|c [|]]]] [|[|d [|e [|f [|]]]] [|[|g [|k [|i [|]]]] [|]]]];
    try apply (closed_int (P := P)).
  split_entries.
  unfold det3.
  apply (closed_add (P := P)); [apply (closed_sub (P := P))|];
    apply (closed_mul (P := P)); try assumption; apply closed_det2; assumption.
Qed.

Lemma closed_inv3 M : all M -> N (det3 M) -> all (inv3 M).
Proof.
  intros HM HN. pose proof (closed_det3 M HM) as HD.
  destruct M as [|[|a [|b [|c [|]]]] [|[|d [|e [|f [|]]]] [|[|g [|k [|i [|]]]] [|]]]];
    try (constructor; fail).
  split_entries.
  unfold inv3, all_entries. repeat constructor.
  all: apply (closed_div (P := P) (N := N)); [apply closed_det2; assumption| |];
    assumption.
Qed.

Lemma closed_pinv_solve M b :
  all M -> all b -> N (det3 (mmul (mtranspose M) M)) -> all (pinv_solve M b).
Proof.
  intros HM Hb HN. unfold pinv_solve, pinv.
  apply closed_mmul; [|exact Hb].
  apply closed_mmul; [|apply closed_mtranspose, HM].
  apply closed_inv3; [|exact HN].
  apply closed_mmul; [apply closed_mtranspose|]; exact HM.
Qed.

Lemma closed_Om w0 w1 w2 : P w0 -> P w1 -> P w2 -> all (Om (w0, w1, w2)).
Proof.
  intros. unfold Om.
  repeat (apply closed_mset;
          [|first [assumption | apply (closed_neg (P := P)); assumption
                  | apply (closed_int (P := P))]]).
  apply closed_zeros.
Qed.

Lemma closed_cIB q0 q1 q2 q3 :
  P q0 -> P q1 -> P q2 -> P q3 -> all (cIB (q0, q1, q2, q3)).
Proof.
  intros. unfold cIB.
  repeat (apply closed_mset;
          [|repeat first [assumption
                         | apply (closed_int (P := P))
                         | apply (closed_pow (P := P)); [lia|]
                         | apply (closed_sub (P := P))
                         | apply (closed_add (P := P))
                         | apply (closed_mul (P := P))]]).
  apply closed_zeros.
Qed.

End Closure.

(* ===================================================================== *)
(** * Properties of expressions kept by automatic evaluation *)
(* ===================================================================== *)

Section SyntacticTests.
Context (S : expr -> bool) `{!Syntactic S}.

Lemma syn_zero : S zero = true.
Proof. apply syn_num. Qed.

Lemma syn_eadd a b : S a = true -> S b = true -> S (eadd a b) = true.
Proof.
  intros Ha Hb.
  assert (G : S (if is_zero a then b else if is_zero b then a else Add a b) = true).
  { destruct (is_zero a); [exact Hb|]. destruct (is_zero b); [exact Ha|].
    rewrite syn_add, Ha, Hb. reflexivity. }
  unfold eadd. destruct a, b; try exact G. apply syn_num.
Qed.

Lemma syn_emul a b : S a = true -> S b = true -> S (emul a b) = true.
Proof.
  intros Ha Hb.
  assert (G : S (if is_zero a then zero else if is_zero b then zero
                 else if is_one a then b else if is_one b then a else Mul a b) = true).
  { destruct (is_zero a); [apply syn_zero|]. destruct (is_zero b); [apply syn_zero|].
    destruct (is_one a); [exact Hb|]. destruct (is_one b); [exact Ha|].
    rewrite syn_mul, Ha, Hb. reflexivity. }
  unfold emul. destruct a, b; try exact G. apply syn_num.
Qed.

Lemma syn_epow a k : S a = true -> S (epow a k) = true.
Proof.
  intros Ha. unfold epow.
  destruct k as [[|[]|]|]; rewrite ?syn_pow; try exact Ha. apply syn_num.
Qed.

Lemma syn_eneg a : S a = true -> S (eneg a) = true.
Proof. intros Ha. apply syn_emul; [apply syn_num|exact Ha]. Qed.

Lemma syn_ediv a b : S a = true -> S b = true -> S (ediv a b) = true.
Proof. intros Ha Hb. apply syn_emul; [exact Ha|]. apply syn_epow, Hb. Qed.

#[export] Instance syn_closed : ScalarClosed (fun e => S e = true) (fun _ => True).
Proof.
  split; intros.
  - apply syn_num.
  - apply syn_eadd; assumption.
  - apply syn_eadd; [|apply syn_eneg]; assumption.
  - apply syn_emul; assumption.
  - apply syn_ediv; assumption.
  - apply syn_eneg; assumption.
  - apply syn_epow; assumption.
Qed.

Lemma syn_diff e x : S e = true -> S (diff e x) = true.
Proof.
  induction e as [n|y|a IHa b IHb|a IHa b IHb|a IHa k|a IHa]; cbn [diff].
  - intros _. apply syn_zero.
  - intros _. destruct (String.eqb y x); apply syn_num.
  - rewrite syn_add. intros [Ha Hb]%andb_true_iff. apply syn_eadd; auto.
  - rewrite syn_mul. intros [Ha Hb]%andb_true_iff.
    apply syn_eadd; apply syn_emul; auto.
  - rewrite syn_pow. intros Ha.
    apply syn_emul; [apply syn_emul; [apply syn_num|apply syn_epow, Ha]|auto].
  - rewrite syn_sqrt. intros Ha. apply syn_ediv; [auto|].
    apply syn_emul; [apply syn_num|]. rewrite syn_sqrt. exact Ha.
Qed.

Lemma syn_u_mag :
  S (Sym "u0") = true -> S (Sym "u1") = true -> S (Sym "u2") = true ->
  S u_mag = true.
Proof.
  intros H0 H1 H2. unfold u_mag, esqrt. rewrite syn_sqrt.
  repeat apply syn_eadd; apply syn_epow; assumption.
Qed.

End SyntacticTests.

#[export] Instance bound_syntactic subst : Syntactic (bound subst).
Proof. split; reflexivity. Qed.

#[export] Instance free_of_syntactic x : Syntactic (free_of x).
Proof.
  split; intros; unfold free_of; cbn [mentions]; try reflexivity.
  all: apply negb_orb.
Qed.

#[export] Instance wf_syntactic : Syntactic wf.
Proof. split; reflexivity. Qed.

Section FreeSymbols.

Lemma nmul_zero_r x : nmul x (Int 0) = Int 0.
Proof.
  destruct x as [z|q]; cbn [nmul].
  - rewrite Z.mul_0_r. reflexivity.
  - unfold mkflt.
    replace (Qeq_bool (nvalue (Flt q) * nvalue (Int 0)) 0) with true; [reflexivity|].
    symmetry. apply Qeq_bool_iff. cbn [nvalue]. ring.
Qed.

Lemma nmul_zero_l y : nmul (Int 0) y = Int 0.
Proof.
  destruct y as [z|q]; cbn [nmul]; [reflexivity|].
  unfold mkflt.
  replace (Qeq_bool (nvalue (Int 0) * nvalue (Flt q)) 0) with true; [reflexivity|].
  symmetry. apply Qeq_bool_iff. cbn [nvalue]. ring.
Qed.

Lemma emul_zero_r a : emul a zero = zero.
Proof.
  unfold emul, zero. destruct a; try reflexivity.
  - rewrite nmul_zero_r. reflexivity.
Qed.

Lemma emul_zero_l b : emul zero b = zero.
Proof.
  unfold emul, zero. destruct b; try reflexivity.
  rewrite nmul_zero_l. reflexivity.
Qed.

Lemma emul_one_r a : is_num a = false -> emul a one = a.
Proof. destruct a; try discriminate; reflexivity. Qed.

(** An expression that does not mention [x] has derivative zero. *)
Lemma diff_free e x : free_of x e = true -> diff e x = zero.
Proof.
  unfold free_of.
  induction e as [n|y|a IHa b IHb|a IHa b IHb|a IHa k|a IHa]; cbn [diff mentions].
  - reflexivity.
  - intros E. apply negb_true_iff in E. rewrite E. reflexivity.
  - rewrite negb_orb. intros [Ha Hb]%andb_true_iff. rewrite IHa, IHb by assumption.
    reflexivity.
  - rewrite negb_orb. intros [Ha Hb]%andb_true_iff. rewrite IHa, IHb by assumption.
    rewrite emul_zero_l, emul_zero_r. reflexivity.
  - intros Ha. rewrite IHa by assumption. apply emul_zero_r.
  - intros Ha. rewrite IHa by assumption. unfold ediv. apply emul_zero_l.
Qed.

End FreeSymbols.

Section SemanticTests.
Local Open Scope R_scope.
Variable rho : string -> R.

Lemma smooth_defined e : smooth rho e -> defined rho e.
Proof.
  induction e as [n|y|a IHa b IHb|a IHa b IHb|a IHa k|a IHa]; cbn [smooth defined];
    try tauto.
  intros [Ha Hpos]. split; [auto|lra].
Qed.

Lemma defined_eadd a b : defined rho a -> defined rho b -> defined rho (eadd a b).
Proof.
  intros Ha Hb.
  assert (G : defined rho (if is_zero a then b else if is_zero b then a else Add a b)).
  { destruct (is_zero a); [exact Hb|]. destruct (is_zero b); [exact Ha|].
    split; assumption. }
  unfold eadd. destruct a, b; try exact G. exact I.
Qed.

Lemma defined_emul a b : defined rho a -> defined rho b -> defined rho (emul a b).
Proof.
  intros Ha Hb.
  assert (G : defined rho (if is_zero a then zero else if is_zero b then zero
                           else if is_one a then b else if is_one b then a
                           else Mul a b)).
  { destruct (is_zero a); [exact I|]. destruct (is_zero b); [exact I|].
    destruct (is_one a); [exact Hb|]. destruct (is_one b); [exact Ha|].
    split; assumption. }
  unfold emul. destruct a, b; try exact G. exact I.
Qed.

Lemma defined_epow a k :
  defined rho (Pow a k) -> defined rho (epow a k).
Proof.
  intros H. unfold epow. destruct k as [[|[]|]|]; try exact H.
  - exact I.
  - apply H.
Qed.

Lemma defined_eneg a : defined rho a -> defined rho (eneg a).
Proof. intros Ha. apply defined_emul; [exact I|exact Ha]. Qed.

Lemma defined_ediv a b :
  defined rho a -> defined rho b -> evalR rho b <> 0 -> defined rho (ediv a b).
Proof.
  intros Ha Hb Hn. apply defined_emul; [exact Ha|].
  apply defined_epow. split; [exact Hb|]. intros _. exact Hn.
Qed.

#[export] Instance defined_closed :
  ScalarClosed (defined rho) (fun b => evalR rho b <> 0).
Proof.
  split; intros.
  - exact I.
  - apply defined_eadd; assumption.
  - apply defined_eadd; [|apply defined_eneg]; assumption.
  - apply defined_emul; assumption.
  - apply defined_ediv; assumption.
  - apply defined_eneg; assumption.
  - apply defined_epow. split; [assumption|]. cbn [exponent]. lia.
Qed.

Lemma smooth_eadd a b : smooth rho a -> smooth rho b -> smooth rho (eadd a b).
Proof.
  intros Ha Hb.
  assert (G : smooth rho (if is_zero a then b else if is_zero b then a else Add a b)).
  { destruct (is_zero a); [exact Hb|]. destruct (is_zero b); [exact Ha|].
    split; assumption. }
  unfold eadd. destruct a, b; try exact G. exact I.
Qed.

Lemma smooth_emul a b : smooth rho a -> smooth rho b -> smooth rho (emul a b).
Proof.
  intros Ha Hb.
  assert (G : smooth rho (if is_zero a then zero else if is_zero b then zero
                          else if is_one a then b else if is_one b then a
                          else Mul a b)).
  { destruct (is_zero a); [exact I|]. destruct (is_zero b); [exact I|].
    destruct (is_one a); [exact Hb|]. destruct (is_one b); [exact Ha|].
    split; assumption. }
  unfold emul. destruct a, b; try exact G. exact I.
Qed.

Lemma smooth_epow a k : smooth rho (Pow a k) -> smooth rho (epow a k).
Proof.
  intros H. unfold epow. destruct k as [[|[]|]|]; try exact H.
  - exact I.
  - apply H.
Qed.

Lemma smooth_eneg a : smooth rho a -> smooth rho (eneg a).
Proof. intros Ha. apply smooth_emul; [exact I|exact Ha]. Qed.

Lemma smooth_ediv a b :
  smooth rho a -> smooth rho b -> evalR rho b <> 0 -> smooth rho (ediv a b).
Proof.
  intros Ha Hb Hn. apply smooth_emul; [exact Ha|].
  apply smooth_epow. split; [exact Hb|]. intros _. exact Hn.
Qed.

#[export] Instance smooth_closed :
  ScalarClosed (smooth rho) (fun b => evalR rho b <> 0).
Proof.
  split; intros.
  - exact I.
  - apply smooth_eadd; assumption.
  - apply smooth_eadd; [|apply smooth_eneg]; assumption.
  - apply smooth_emul; assumption.
  - apply smooth_ediv; assumption.
  - apply smooth_eneg; assumption.
  - apply smooth_epow. split; [assumption|]. cbn [exponent]. lia.
Qed.

Lemma exponent_zero k : exponent k = Some 0%Z -> nis_zero k = true.
Proof.
  intros E. unfold nis_zero. apply Qeq_bool_iff.
  apply eqR_Qeq. fold (nreal k). rewrite (exponent_nreal _ _ E).
  unfold Q2R. simpl. lra.
Qed.

Lemma emul_num_zero k e : nis_zero k = true -> exists n, emul (Num k) e = Num n.
Proof.
  intros Hk. unfold emul. destruct e; try (cbn [is_zero]; rewrite Hk; eexists; reflexivity).
  eexists. reflexivity.
Qed.

(** The derivative of a differentiable expression evaluates. *)
Lemma defined_diff e x : smooth rho e -> defined rho (diff e x).
Proof.
  induction e as [n|y|a IHa b IHb|a IHa b IHb|a IHa k|a IHa]; cbn [diff smooth].
  - intros _. exact I.
  - intros _. destruct (String.eqb y x); exact I.
  - intros [Ha Hb]. apply defined_eadd; auto.
  - intros [Ha Hb].
    apply defined_eadd; apply defined_emul; auto using smooth_defined.
  - intros [Ha Hk]. destruct (exponent k) as [z|] eqn:Ek; [|contradiction].
    apply defined_emul; [|auto].
    destruct (Z.eq_dec z 0%Z) as [->|Hz].
    + destruct (emul_num_zero k (epow a (nadd k (Int (-1)))) (exponent_zero _ Ek))
        as [n ->]. exact I.
    + apply defined_emul; [exact I|]. apply defined_epow.
      split; [apply smooth_defined, Ha|].
      rewrite (exponent_pred _ _ Ek). intros Hlt. apply Hk. lia.
  - intros [Ha Hpos]. apply defined_ediv; [auto| |].
    + apply defined_emul; [exact I|]. split; [apply smooth_defined, Ha|lra].
    + rewrite evalR_emul. cbn [evalR]. rewrite nreal_int.
      pose proof (sqrt_lt_R0 _ Hpos). lra.
Qed.

End SemanticTests.

(* ===================================================================== *)
(** * The entries of the right-hand side and of its Jacobians *)
(* ===================================================================== *)

Section Assembly.

Lemma assemble_blocks alpha rTB J g :
  shaped rTB J g ->
  exists a4 a5 a6 b7 b8 b9 b10 c11 c12 c13,
    assemble alpha rTB J g
    = column [emul (eneg alpha) u_mag; Sym "v0"; Sym "v1"; Sym "v2";
              a4; a5; a6; b7; b8; b9; b10; c11; c12; c13] /\
    column [a4; a5; a6]
    = madd (mmul (smul (ediv (Num (Flt 1)) Var.m)
                       (cIB (Sym "q0", Sym "q1", Sym "q2", Sym "q3")))
                 self_u) g /\
    column [b7; b8; b9; b10]
    = mmul (smul (Num (Flt (1 # 2))) (Om (Sym "w0", Sym "w1", Sym "w2"))) Var.q /\
    column [c11; c12; c13]
    = pinv_solve J (msub (cross rTB self_u) (cross Var.w (mmul J Var.w))).
Proof.
  intros ((r0 & r1 & r2 & ->) & (a & b & c & d & e & f & g' & h & i & ->)
          & (g0 & g1 & g2 & ->)).
  do 10 eexists. repeat split; reflexivity.
Qed.

Lemma closed_assemble (P N : expr -> Prop) `{!ScalarClosed P N} alpha rTB J g :
  (forall n, P (Num n)) -> Forall (fun x => P (Sym x)) used_names ->
  P u_mag -> N (Sym "m") -> P alpha ->
  all_entries P rTB -> all_entries P J -> all_entries P g ->
  N (det3 (mmul (mtranspose J) J)) ->
  all_entries P (assemble alpha rTB J g).
Proof.
  intros Hnum Hsym Hmag Hm Ha Hr HJ Hg Hdet.
  unfold used_names in Hsym.
  repeat (apply Forall_cons in Hsym as [? Hsym]).
  unfold assemble.
  assert (Hu : all_entries P self_u) by (repeat constructor; assumption).
  assert (Hw : all_entries P Var.w) by (repeat constructor; assumption).
  apply (closed_set_rows P); [apply (closed_set_rows P);
    [apply (closed_set_rows P); [apply (closed_set_rows P)| ]| ]| ].
  - apply (closed_mset P); [apply (closed_zeros P N)|].
    refine (closed_mul (P := P) (eneg alpha) u_mag _ Hmag).
    exact (closed_neg (P := P) alpha Ha).
  - repeat constructor; assumption.
  - apply (closed_madd P N); [|exact Hg].
    apply (closed_mmul P N); [|exact Hu].
    apply (closed_smul P N);
      [refine (closed_div (P := P) (N := N) (Num (Flt 1)) Var.m _ _ Hm);
       [apply Hnum|assumption]|].
    apply (closed_cIB P N); assumption.
  - apply (closed_mmul P N); [|repeat constructor; assumption].
    apply (closed_smul P N); [apply Hnum|]. apply (closed_Om P N); assumption.
  - apply (closed_pinv_solve P N); [exact HJ| |exact Hdet].
    apply (closed_msub P N); apply (closed_cross P N); try assumption.
    apply (closed_mmul P N); assumption.
Qed.

Lemma jacobian_entry scale (F X : list (list expr)) names i j fi xj :
  flat X = map Sym names -> flat F !! i = Some fi -> names !! j = Some xj ->
  entry (smul scale (jacobian F X)) i j = Some (emul scale (diff fi xj)).
Proof.
  intros HX Hi Hj. unfold entry, smul, jacobian. rewrite HX.
  rewrite !list_lookup_fmap, Hi. simpl.
  rewrite !list_lookup_fmap, Hj. reflexivity.
Qed.

Lemma jacobian_entries (P : expr -> Prop) scale (F X : list (list expr)) names :
  flat X = map Sym names ->
  (forall fi xj, fi ∈ flat F -> xj ∈ names -> P (emul scale (diff fi xj))) ->
  all_entries P (smul scale (jacobian F X)).
Proof.
  intros HX HP. unfold all_entries, smul, jacobian. rewrite HX.
  apply Forall_fmap, Forall_fmap, Forall_forall. intros fi Hfi. simpl.
  apply Forall_fmap, Forall_fmap, Forall_fmap, Forall_forall. intros xj Hxj. simpl.
  apply HP; assumption.
Qed.

Lemma matrix_of_numbers (l : list (list number)) :
  all_entries (fun e => is_num e = true) (map (map Num) l).
Proof.
  unfold all_entries. apply Forall_fmap, Forall_forall. intros row _. simpl.
  apply Forall_fmap, Forall_forall. intros n _. reflexivity.
Qed.

(** In numeric mode every constant is a number. *)
Lemma bind_constants_numeric C alpha rTB J g :
  bind_constants (Some C) = Ok (alpha, rTB, J, g) ->
  is_num alpha = true /\
  all_entries (fun e => is_num e = true) rTB /\
  all_entries (fun e => is_num e = true) J /\
  all_entries (fun e => is_num e = true) g.
Proof.
  assert (HM : forall val M, Matrix val = Ok M ->
                 all_entries (fun e => is_num e = true) M).
  { intros [n|l|l] M; cbn [Matrix]; [discriminate| |]; intros [= <-].
    - unfold column. rewrite <- list_fmap_compose.
      unfold all_entries. apply Forall_fmap, Forall_forall. intros n _.
      repeat constructor.
    - apply matrix_of_numbers. }
  unfold bind_constants, bind.
  destruct (getitem C "alpha") as [va|]; [|discriminate].
  destruct (getitem C "rTB") as [vr|]; [|discriminate].
  destruct (Matrix vr) as [Mr|] eqn:Er; [|discriminate].
  destruct (getitem C "J") as [vJ|]; [|discriminate].
  destruct (Matrix vJ) as [MJ|] eqn:EJ; [|discriminate].
  destruct (getitem C "g") as [vg|]; [|discriminate].
  destruct (Matrix vg) as [Mg|] eqn:Eg; [|discriminate].
  destruct va as [n|l|l]; cbn [scalar]; try discriminate.
  intros [= <- <- <- <-]. repeat split; eauto.
Qed.

(** In either mode a constant is a number or a constant symbol. *)
Lemma bind_constants_constant constants alpha rTB J g :
  bind_constants constants = Ok (alpha, rTB, J, g) ->
  constant_expr alpha = true /\
  all_entries (fun e => constant_expr e = true) rTB /\
  all_entries (fun e => constant_expr e = true) J /\
  all_entries (fun e => constant_expr e = true) g.
Proof.
  destruct constants as [C|].
  - intros (Ha & Hr & HJ & Hg)%bind_constants_numeric.
    assert (Hn : forall e, is_num e = true -> constant_expr e = true)
      by (intros []; try discriminate; reflexivity).
    split; [apply Hn, Ha|].
    repeat split; eapply Forall_impl; eauto; intros row Hrow;
      eapply Forall_impl; eauto.
  - intros [= <- <- <- <-]. split; [reflexivity|].
    repeat split; repeat constructor.
Qed.

Lemma syn_constant (S : expr -> bool) `{!Syntactic S} e :
  Forall (fun c => S (Sym c) = true) constant_names ->
  constant_expr e = true -> S e = true.
Proof.
  intros Hc. destruct e as [n|y| | | |]; try discriminate.
  - intros _. apply syn_num.
  - cbn [constant_expr]. intros [c [Hin E]]%existsb_exists.
    apply String.eqb_eq in E as ->.
    rewrite Forall_forall in Hc. apply Hc, list_elem_of_In, Hin.
Qed.

Lemma syn_constants (S : expr -> bool) `{!Syntactic S} (M : list (list expr)) :
  Forall (fun c => S (Sym c) = true) constant_names ->
  all_entries (fun e => constant_expr e = true) M ->
  all_entries (fun e => S e = true) M.
Proof.
  intros Hc HM. eapply Forall_impl; [exact HM|]. intros row Hrow.
  eapply Forall_impl; [exact Hrow|]. intros e. apply syn_constant; assumption.
Qed.

(** Every entry of [f] passes a syntactic test that the constants and
    the symbols [f] is built from pass. *)
Lemma syn_assemble (S : expr -> bool) `{!Syntactic S} constants alpha rTB J g :
  bind_constants constants = Ok (alpha, rTB, J, g) ->
  Forall (fun c => S (Sym c) = true) constant_names ->
  Forall (fun x => S (Sym x) = true) used_names ->
  all_entries (fun e => S e = true) (assemble alpha rTB J g).
Proof.
  intros (Ha & Hr & HJ & Hg)%bind_constants_constant Hc Hu.
  apply (closed_assemble (fun e => S e = true) (fun _ => True));
    try (apply syn_constants; assumption); try exact I.
  - apply syn_num.
  - exact Hu.
  - unfold used_names in Hu. rewrite !Forall_cons in Hu. apply syn_u_mag; tauto.
  - apply syn_constant; assumption.
Qed.

End Assembly.

(* ===================================================================== *)
(** * Entries of the Jacobians that are zero for every instance *)
(* ===================================================================== *)

Section Sparsity.

Lemma column_lookup {T : Type} (l : list T) i : flat (column l) !! i = l !! i.
Proof. rewrite flat_column. reflexivity. Qed.

Lemma entry_of_all {T : Type} (P : T -> Prop) (l : list T) i a :
  all_entries P (column l) -> l !! i = Some a -> P a.
Proof.
  intros H%(closed_flat P) Hi. rewrite flat_column in H.
  exact (Forall_lookup_1 _ _ _ _ H Hi).
Qed.

Lemma quaternion_rate_free_of_control j uj :
  control_names !! j = Some uj ->
  all_entries (fun e => free_of uj e = true)
    (mmul (smul (Num (Flt (1 # 2))) (Om (Sym "w0", Sym "w1", Sym "w2"))) Var.q).
Proof.
  intros Hu.
  destruct j as [|[|[|j]]]; [| | |discriminate]; injection Hu as <-.
  all: apply (closed_mmul _ (fun _ => True));
    [apply (closed_smul _ (fun _ => True)); [reflexivity|];
     apply (closed_Om _ (fun _ => True)); reflexivity
    |repeat constructor].
Qed.

(** X5: for every instance the constructor builds: the columns of [A] for
    the position are zero, the row of [A] for the mass is zero, the rows
    of [A] for the position hold [s] in the column of the matching
    velocity and zero elsewhere, and the rows of [B] for the position and
    for the quaternion are zero. *)
Theorem jacobians_have_fixed_zero_blocks constants d out :
  init constants = Ok (d, out) ->
  (forall i j, (i < 14)%nat -> (1 <= j <= 3)%nat ->
     entry (Dynamics.A d) i j = Some zero) /\
  (forall j, (j < 14)%nat -> entry (Dynamics.A d) 0 j = Some zero) /\
  (forall i j, (1 <= i <= 3)%nat -> (j < 14)%nat ->
     entry (Dynamics.A d) i j
     = Some (if Nat.eqb j (i + 3) then Sym "s" else zero)) /\
  (forall i j, (1 <= i <= 3)%nat \/ (7 <= i <= 10)%nat -> (j < 3)%nat ->
     entry (Dynamics.B d) i j = Some zero).
Proof.
  intros Hinit.
  destruct (init_derive _ _ _ Hinit) as (alpha & rTB & J & g & Hc & -> & Hshape).
  destruct (assemble_blocks alpha rTB J g Hshape)
    as (a4 & a5 & a6 & b7 & b8 & b9 & b10 & c11 & c12 & c13 & Hf & _ & Hq & _).
  unfold derive. cbn [Dynamics.A Dynamics.B]. rewrite Hf.
  set (l := [_; _; _; _; _; _; _; _; _; _; _; _; _; _]) in *.
  assert (HA : forall i j fi xj, l !! i = Some fi -> state_names !! j = Some xj ->
                 entry (smul self_s (jacobian (column l) self_x)) i j
                 = Some (emul self_s (diff fi xj))).
  { intros i j fi xj Hi Hj.
    apply (jacobian_entry _ _ _ state_names); [reflexivity| |exact Hj].
    rewrite column_lookup. exact Hi. }
  assert (HB : forall i j fi uj, l !! i = Some fi -> control_names !! j = Some uj ->
                 entry (smul self_s (jacobian (column l) self_u)) i j
                 = Some (emul self_s (diff fi uj))).
  { intros i j fi uj Hi Hj.
    apply (jacobian_entry _ _ _ control_names); [reflexivity| |exact Hj].
    rewrite column_lookup. exact Hi. }
  split; [|split; [|split]].
  - intros i j Hi Hj.
    destruct (lookup_lt_is_Some_2 l i) as [fi Hfi]; [exact Hi|].
    destruct (lookup_lt_is_Some_2 state_names j) as [xj Hxj]; [simpl; lia|].
    rewrite (HA i j fi xj Hfi Hxj). f_equal.
    rewrite diff_free; [apply emul_zero_r|].
    apply (entry_of_all (fun e => free_of xj e = true) l i); [|exact Hfi].
    rewrite <- Hf.
    destruct j as [|[|[|[|j]]]]; try lia; injection Hxj as <-;
      (apply (syn_assemble _ constants); [exact Hc| |]);
      repeat constructor.
  - intros j Hj.
    destruct (lookup_lt_is_Some_2 state_names j) as [xj Hxj]; [exact Hj|].
    erewrite (HA 0%nat j _ xj); [|reflexivity|exact Hxj]. f_equal.
    rewrite diff_free; [apply emul_zero_r|].
    destruct (bind_constants_constant _ _ _ _ _ Hc) as (Ha & _).
    apply syn_emul; [apply _| |].
    + apply syn_eneg; [apply _|]. apply syn_constant; [apply _| |exact Ha].
      do 14 (destruct j as [|j]; [injection Hxj as <-; repeat constructor|]).
      discriminate.
    + apply syn_u_mag; [apply _| | |].
      all: do 14 (destruct j as [|j]; [injection Hxj as <-; reflexivity|]).
      all: discriminate.
  - intros i j Hi Hj.
    destruct (lookup_lt_is_Some_2 state_names j) as [xj Hxj]; [exact Hj|].
    destruct i as [|[|[|[|i]]]]; try lia.
    all: erewrite HA; [|reflexivity|exact Hxj].
    all: do 14 (destruct j as [|j]; [injection Hxj as <-; reflexivity|]).
    all: discriminate.
  - intros i j Hi Hj.
    destruct (lookup_lt_is_Some_2 control_names j) as [uj Huj]; [exact Hj|].
    destruct Hi as [Hi|Hi].
    + destruct i as [|[|[|[|i]]]]; try lia.
      all: erewrite HB; [|reflexivity|exact Huj].
      all: do 3 (destruct j as [|j]; [injection Huj as <-; reflexivity|]).
      all: discriminate.
    + pose proof (quaternion_rate_free_of_control j uj Huj) as Hfree.
      rewrite <- Hq in Hfree. unfold column in Hfree. cbn [map] in Hfree.
      unfold all_entries in Hfree. rewrite !Forall_cons in Hfree.
      destruct Hfree as ([H7 _] & [H8 _] & [H9 _] & [H10 _] & _).
      do 7 (destruct i as [|i]; [lia|]).
      destruct i as [|[|[|[|i]]]]; try lia.
      all: erewrite HB; [|reflexivity|exact Huj].
      all: f_equal; rewrite diff_free by assumption; apply emul_zero_r.
Qed.

Lemma jacobians_have_fixed_zero_blocks_witness :
  entry (Dynamics.A symbolic) 2 5 = Some (Sym "s") /\
  entry (Dynamics.B symbolic) 8 1 = Some zero.
Proof.
  destruct (jacobians_have_fixed_zero_blocks None symbolic
              (Some (generate_functions symbolic)) eq_refl) as (_ & _ & HA & HB).
  split.
  - apply (HA 2%nat 5%nat); lia.
  - apply (HB 8%nat 1%nat); [right|]; lia.
Defined.

End Sparsity.

(* ===================================================================== *)
(** * Evaluation of numeric instances by [get] *)
(* ===================================================================== *)

Section NumericEvaluation.
Local Open Scope R_scope.

(** The value of the right-hand side, for constants of the shapes of the
    model. *)
Lemma evalR_assemble rho alpha rTB J g :
  shaped rTB J g ->
  map (map (evalR rho)) (assemble alpha rTB J g)
  = rhs_model (evalR rho alpha) (map (map (evalR rho)) rTB)
              (map (map (evalR rho)) J) (map (map (evalR rho)) g) rho.
Proof.
  intros ((r0 & r1 & r2 & ->) & (a & b & c & d & e & f & g' & h & i & ->)
          & (g0 & g1 & g2 & ->)).
  unfold assemble.
  rewrite !hom_set_rows, hom_mset, hom_zeros by apply _.
  rewrite hom_madd, !hom_mmul, !hom_smul, hom_cIB, hom_Om, hom_pinv_solve
    by apply _.
  rewrite hom_msub, !hom_cross, hom_mmul by apply _.
  rewrite evalR_emul, evalR_eneg, evalR_u_mag, evalR_ediv.
  unfold self_u, Var.m, Var.v, Var.q, Var.w, column.
  cbn [map evalR]. rewrite nreal_one, nreal_half.
  rewrite thrust_block by (do 9 eexists; reflexivity).
  rewrite quaternion_block by reflexivity.
  rewrite blocks_of_set_rows by reflexivity.
  reflexivity.
Qed.

Lemma get_vectors d name (xs us : list R) si :
  Dynamics.x d = self_x -> Dynamics.u d = self_u -> Dynamics.s d = self_s ->
  length xs = 14%nat -> length us = 3%nat ->
  get d name (column xs) us si
  = let* function := getattr d name in
    mapM (mapM (eval (substitutions xs us si))) function.
Proof.
  intros Hx Hu Hs Hxs Hus. unfold get. rewrite Hx, Hu, Hs.
  do 14 (destruct xs as [|? xs]; [discriminate|]).
  destruct xs; [|discriminate].
  do 3 (destruct us as [|? us]; [discriminate|]).
  destruct us; [|discriminate].
  reflexivity.
Qed.

Lemma substitutions_bind (xs us : list R) si x :
  length xs = 14%nat -> length us = 3%nat ->
  existsb (String.eqb x) (state_names ++ control_names ++ ["s"]) = true ->
  bound (substitutions xs us si) (Sym x) = true.
Proof.
  intros Hxs Hus [y [Hy ->%String.eqb_eq]]%existsb_exists.
  do 14 (destruct xs as [|? xs]; [discriminate|]).
  destruct xs; [|discriminate].
  do 3 (destruct us as [|? us]; [discriminate|]).
  destruct us; [|discriminate].
  cbn in Hy.
  repeat (destruct Hy as [<-|Hy]; [reflexivity|]). contradiction.
Qed.

Lemma syn_numbers (S : expr -> bool) `{!Syntactic S} (M : list (list expr)) :
  all_entries (fun e => is_num e = true) M -> all_entries (fun e => S e = true) M.
Proof.
  intros HM. eapply Forall_impl; [exact HM|]. intros row Hrow.
  eapply Forall_impl; [exact Hrow|]. intros [] E; try discriminate. apply syn_num.
Qed.

Lemma numbers_defined rho (M : list (list expr)) :
  all_entries (fun e => is_num e = true) M -> all_entries (smooth rho) M.
Proof.
  intros HM. eapply Forall_impl; [exact HM|]. intros row Hrow.
  eapply Forall_impl; [exact Hrow|]. intros [] E; try discriminate. exact I.
Qed.

Lemma all_entries_impl {T : Type} (P Q : T -> Prop) (M : list (list T)) :
  (forall a, P a -> Q a) -> all_entries P M -> all_entries Q M.
Proof.
  intros HPQ HM. eapply Forall_impl; [exact HM|]. intros row Hrow.
  eapply Forall_impl; [exact Hrow|]. exact HPQ.
Qed.

Lemma all_entries_forallb (S : expr -> bool) (M : list (list expr)) :
  all_entries (fun e => S e = true) M -> forallb (forallb S) M = true.
Proof.
  intros HM. apply forallb_forall. intros row Hrow. apply forallb_forall.
  intros e He. unfold all_entries in HM. rewrite Forall_forall in HM.
  specialize (HM row (proj2 (list_elem_of_In _ _) Hrow)).
  rewrite Forall_forall in HM. apply HM, list_elem_of_In, He.
Qed.

(** Every symbol of a numeric instance is bound by the substitution
    list of [get]. *)
Lemma numeric_bound C alpha rTB J g (xs us : list R) si :
  bind_constants (Some C) = Ok (alpha, rTB, J, g) ->
  length xs = 14%nat -> length us = 3%nat ->
  let d := derive alpha rTB J g in
  let S := bound (substitutions xs us si) in
  all_entries (fun e => S e = true) (Dynamics.f d) /\
  all_entries (fun e => S e = true) (Dynamics.A d) /\
  all_entries (fun e => S e = true) (Dynamics.B d).
Proof.
  intros (Ha & Hr & HJ & Hg)%bind_constants_numeric Hxs Hus d S.
  assert (Hsym : forall x,
                   existsb (String.eqb x) (state_names ++ control_names ++ ["s"])
                   = true -> S (Sym x) = true)
    by (intros x; apply substitutions_bind; assumption).
  assert (Hf : all_entries (fun e => S e = true) (assemble alpha rTB J g)).
  { apply (closed_assemble (fun e => S e = true) (fun _ => True));
      try (apply syn_numbers; [apply _|assumption]); try exact I.
    - apply syn_num.
    - unfold used_names. repeat constructor; apply Hsym; reflexivity.
    - apply syn_u_mag; [apply _| | |]; apply Hsym; reflexivity.
    - destruct alpha; try discriminate. reflexivity. }
  split; [exact Hf|].
  assert (Hfl : Forall (fun e => S e = true) (flat (assemble alpha rTB J g)))
    by (apply (closed_flat (fun e => S e = true)), Hf).
  rewrite Forall_forall in Hfl.
  split; unfold d, derive; cbn [Dynamics.A Dynamics.B].
  - apply (jacobian_entries _ _ _ _ state_names); [reflexivity|].
    intros fi xj Hfi Hxj.
    apply syn_emul; [apply _|apply Hsym; reflexivity|].
    apply syn_diff; [apply _|]. apply Hfl, Hfi.
  - apply (jacobian_entries _ _ _ _ control_names); [reflexivity|].
    intros fi xj Hfi Hxj.
    apply syn_emul; [apply _|apply Hsym; reflexivity|].
    apply syn_diff; [apply _|]. apply Hfl, Hfi.
Qed.

Lemma defined_u_mag rho : defined rho u_mag.
Proof.
  change u_mag
    with (Sqrt (Add (Add (Pow (Sym "u0") (Flt 2)) (Pow (Sym "u1") (Flt 2)))
                     (Pow (Sym "u2") (Flt 2)))).
  cbn [defined evalR]. compute_exponents.
  repeat split; try exact I; try lia.
  pose proof (rpow_2_nonneg (rho "u0")).
  pose proof (rpow_2_nonneg (rho "u1")).
  pose proof (rpow_2_nonneg (rho "u2")).
  lra.
Qed.

Lemma rpow_2 b : rpow b 2 = b ^ 2.
Proof. unfold rpow. simpl. ring. Qed.

Lemma smooth_u_mag rho :
  0 < rho "u0" ^ 2 + rho "u1" ^ 2 + rho "u2" ^ 2 -> smooth rho u_mag.
Proof.
  intros Hpos.
  change u_mag
    with (Sqrt (Add (Add (Pow (Sym "u0") (Flt 2)) (Pow (Sym "u1") (Flt 2)))
                     (Pow (Sym "u2") (Flt 2)))).
  cbn [smooth evalR]. compute_exponents.
  repeat split; try exact I; try lia.
  rewrite !rpow_2. exact Hpos.
Qed.

Lemma evalR_gram_det rho (J : list (list expr)) :
  (exists a b c d e f g h i, J = [[a; b; c]; [d; e; f]; [g; h; i]]) ->
  det3 (map (map (evalR rho)) J) <> 0 ->
  evalR rho (det3 (mmul (mtranspose J) J)) <> 0.
Proof.
  intros (a & b & c & d & e & f & g & h & i & ->) HD.
  rewrite hom_det3, hom_mmul, hom_mtranspose by apply _.
  rewrite det3_gram by (do 9 eexists; reflexivity).
  apply Rmult_integral_contrapositive_currified; exact HD.
Qed.

(** Wherever the mass is not zero and the tensor has full rank, every
    entry of the right-hand side of a numeric instance evaluates; where
    the control is not zero as well, every entry is differentiable. *)
Lemma numeric_defined rho C alpha rTB J g :
  bind_constants (Some C) = Ok (alpha, rTB, J, g) -> shaped rTB J g ->
  rho "m" <> 0 -> det3 (map (map (evalR rho)) J) <> 0 ->
  all_entries (defined rho) (assemble alpha rTB J g) /\
  (0 < rho "u0" ^ 2 + rho "u1" ^ 2 + rho "u2" ^ 2 ->
   all_entries (smooth rho) (assemble alpha rTB J g)).
Proof.
  intros (Ha & Hr & HJ & Hg)%bind_constants_numeric (_ & HJs & _) Hm HD.
  pose proof (evalR_gram_det rho J HJs HD) as Hdet.
  split; [|intros Hpos].
  - apply (closed_assemble (defined rho) (fun b => evalR rho b <> 0));
      try (eapply all_entries_impl; [apply smooth_defined|];
           apply numbers_defined; assumption);
      try exact I; try assumption.
    + intros n. exact I.
    + repeat constructor.
    + apply defined_u_mag.
    + destruct alpha; try discriminate. exact I.
  - apply (closed_assemble (smooth rho) (fun b => evalR rho b <> 0));
      try (apply numbers_defined; assumption);
      try exact I; try assumption.
    + intros n. exact I.
    + repeat constructor.
    + apply smooth_u_mag, Hpos.
    + destruct alpha; try discriminate. exact I.
Qed.

Lemma smooth_jacobian rho scale (F X : list (list expr)) names :
  flat X = map Sym names -> defined rho scale ->
  all_entries (smooth rho) F ->
  all_entries (defined rho) (smul scale (jacobian F X)).
Proof.
  intros HX Hs HF. apply (jacobian_entries _ _ _ _ names); [exact HX|].
  intros fi xj Hfi _. apply defined_emul; [exact Hs|].
  apply defined_diff.
  apply (closed_flat (smooth rho)) in HF. rewrite Forall_forall in HF. apply HF, Hfi.
Qed.

End NumericEvaluation.

Section GetReturns.
Local Open Scope R_scope.




Lemma get_f_value C alpha rTB J g (xs us : list R) si :
  bind_constants (Some C) = Ok (alpha, rTB, J, g) -> shaped rTB J g ->
  length xs = 14%nat -> length us = 3%nat ->
  let rho := env_of (substitutions xs us si) in
  rho "m" <> 0 -> det3 (map (map (evalR rho)) J) <> 0 ->
  get (derive alpha rTB J g) "f" (column xs) us si
  = Ok (rhs_model (evalR rho alpha) (map (map (evalR rho)) rTB)
          (map (map (evalR rho)) J) (map (map (evalR rho)) g) rho).
Proof.
  intros Hc Hshape Hxs Hus rho Hm HD.
  rewrite get_vectors by (reflexivity || assumption).
  change (getattr (derive alpha rTB J g) "f") with (Ok (assemble alpha rTB J g)).
  cbn [bind].
  destruct (numeric_bound C alpha rTB J g xs us si Hc Hxs Hus) as (Hb & _).
  destruct (numeric_defined rho C alpha rTB J g Hc Hshape Hm HD) as (Hd & _).
  rewrite eval_matrix_ok; [|apply all_entries_forallb, Hb|exact Hd].
  f_equal. apply evalR_assemble, Hshape.
Qed.



End GetReturns.

(* ===================================================================== *)
(** * The scaling and the symbolic constants in [get] *)
(* ===================================================================== *)

Section Scaling.
Local Open Scope R_scope.

Lemma assoc_app {V : Type} (s1 s2 : list (binding V)) x :
  assoc (s1 ++ s2) x = match assoc s1 x with Some v => Some v | None => assoc s2 x end.
Proof.
  induction s1 as [|[y v] s1 IH]; [reflexivity|].
  cbn [app assoc]. destruct (String.eqb y x); [reflexivity|exact IH].
Qed.

(** The value of an expression depends on the bindings of its symbols
    only. *)
Lemma eval_ext s1 s2 e :
  (forall x, mentions x e = true -> assoc s1 x = assoc s2 x) ->
  eval s1 e = eval s2 e.
Proof.
  induction e as [n|y|a IHa b IHb|a IHa b IHb|a IHa k|a IHa]; cbn [mentions eval];
    intros H.
  - reflexivity.
  - rewrite (H y) by apply String.eqb_refl. reflexivity.
  - rewrite IHa, IHb; [reflexivity| |]; intros x Hx; apply H; rewrite Hx;
      [apply orb_true_r|reflexivity].
  - rewrite IHa, IHb; [reflexivity| |]; intros x Hx; apply H; rewrite Hx;
      [apply orb_true_r|reflexivity].
  - rewrite IHa by exact H. reflexivity.
  - rewrite IHa by exact H. reflexivity.
Qed.

Lemma eval_free_of_s (pre : list (binding R)) a b e :
  free_of "s" e = true -> eval (pre ++ [("s", a)]) e = eval (pre ++ [("s", b)]) e.
Proof.
  intros Hfree. apply eval_ext. intros x Hx.
  rewrite !assoc_app. destruct (assoc pre x); [reflexivity|].
  cbn [assoc]. destruct (String.eqb_spec "s" x) as [<-|]; [|reflexivity].
  unfold free_of in Hfree. rewrite Hx in Hfree. discriminate.
Qed.

(** A product of [s] with an expression that does not mention [s] is
    linear in the value of [s]. *)
Lemma eval_scaled (pre : list (binding R)) si e v :
  assoc pre "s" = None -> free_of "s" e = true ->
  eval (pre ++ [("s", 1)]) (emul (Sym "s") e) = Ok v ->
  eval (pre ++ [("s", si)]) (emul (Sym "s") e) = Ok (si * v).
Proof.
  intros Hpre Hfree.
  assert (Hs : forall a, eval (pre ++ [("s", a)]) (Sym "s") = Ok a).
  { intros a. cbn [eval]. rewrite assoc_app, Hpre. reflexivity. }
  assert (HM : eval (pre ++ [("s", 1)]) (Mul (Sym "s") e) = Ok v ->
               eval (pre ++ [("s", si)]) (Mul (Sym "s") e) = Ok (si * v)).
  { cbn [eval]. rewrite !assoc_app, Hpre. cbn [assoc String.eqb Ascii.eqb Bool.eqb bind].
    rewrite (eval_free_of_s pre si 1 e Hfree).
    destruct (eval (pre ++ [("s", 1)]) e) as [y|]; [|discriminate].
    cbn [bind]. intros [= <-]. f_equal. ring. }
  unfold emul.
  destruct e as [n|y|a b|a b|a k|a]; cbn [is_zero is_one]; try exact HM.
  destruct (nis_zero n) eqn:Hz.
  - unfold zero. cbn [eval]. intros [= <-]. f_equal. rewrite nreal_int. ring.
  - destruct (nis_int_one n) eqn:Ho; [|exact HM].
    rewrite !Hs. intros [= <-]. f_equal. ring.
Qed.

Lemma mapM_impl {A B : Type} (f f' : A -> result B) (h : B -> B) (l : list A) l' :
  Forall (fun a => forall b, f a = Ok b -> f' a = Ok (h b)) l ->
  mapM f l = Ok l' -> mapM f' l = Ok (map h l').
Proof.
  intros H. revert l'. induction H as [|a l Ha _ IH]; intros l'; cbn [mapM].
  - intros [= <-]. reflexivity.
  - destruct (f a) as [b|] eqn:Eb; [|discriminate]. cbn [bind].
    destruct (mapM f l) as [bs|]; [|discriminate]. cbn [bind].
    intros [= <-]. rewrite (Ha b eq_refl), (IH bs eq_refl). reflexivity.
Qed.

Lemma mapM_ext {A B : Type} (f f' : A -> result B) (l : list A) :
  Forall (fun a => f a = f' a) l -> mapM f l = mapM f' l.
Proof.
  induction 1 as [|a l Ha _ IH]; cbn [mapM]; [reflexivity|].
  rewrite Ha, IH. reflexivity.
Qed.

Lemma state_substitutions_assoc xs xi n sx y :
  state_substitutions n xs xi = Ok sx ->
  Forall (fun row => row !! 0%nat <> Some (Sym y)) xs ->
  assoc sx y = None.
Proof.
  revert n sx. induction xs as [|row xs IH]; intros n sx; cbn [state_substitutions].
  - intros [= <-] _. reflexivity.
  - intros E [Hrow Hxs]%Forall_cons.
    destruct (row !! 0%nat) as [e|]; [|discriminate].
    destruct e as [k|name| | | |]; try discriminate. cbn [symbol_name bind] in E.
    destruct (entry xi n 0); [|discriminate]. cbn [bind] in E.
    destruct (state_substitutions (S n) xs xi) as [more|] eqn:Em; [|discriminate].
    injection E as <-. cbn [assoc].
    destruct (String.eqb_spec name y) as [->|]; [contradiction|].
    apply (IH _ _ Em Hxs).
Qed.

Lemma control_substitutions_assoc us ui n su y :
  control_substitutions n us ui = Ok su ->
  Forall (fun e => e <> Sym y) us ->
  assoc su y = None.
Proof.
  revert n su. induction us as [|e us IH]; intros n su; cbn [control_substitutions].
  - intros [= <-] _. reflexivity.
  - intros E [He Hus]%Forall_cons.
    destruct e as [k|name| | | |]; try discriminate. cbn [symbol_name bind] in E.
    destruct (ui !! n); [|discriminate]. cbn [bind] in E.
    destruct (control_substitutions (S n) us ui) as [more|] eqn:Em; [|discriminate].
    injection E as <-. cbn [assoc].
    destruct (String.eqb_spec name y) as [->|]; [contradiction|].
    apply (IH _ _ Em Hus).
Qed.

(** The substitution list of [get] binds the state symbols, the control
    symbols and [s], and nothing else. *)
Lemma get_substitutions d name xi ui :
  Dynamics.x d = self_x -> Dynamics.u d = self_u -> Dynamics.s d = self_s ->
  (exists err, forall si', get d name xi ui si' = Raise err) \/
  (exists pre,
     (forall y, existsb (String.eqb y) (state_names ++ control_names) = false ->
        assoc pre y = None) /\
     forall si',
       get d name xi ui si'
       = let* function := getattr d name in
         mapM (mapM (eval (pre ++ [("s", si')]))) function).
Proof.
  intros Hx Hu Hs. unfold get. rewrite Hx, Hu, Hs.
  destruct (state_substitutions 0 self_x xi) as [sx|err] eqn:Ex;
    [|left; exists err; reflexivity].
  destruct (control_substitutions 0 (flat self_u) ui) as [su|err] eqn:Eu;
    [|left; exists err; reflexivity].
  right. exists (sx ++ su). split.
  - intros y Hy. rewrite assoc_app.
    rewrite (state_substitutions_assoc _ _ _ _ y Ex).
    + apply (control_substitutions_assoc _ _ _ _ y Eu).
      repeat constructor; intros [= <-]; discriminate.
    + repeat constructor; intros [= <-]; discriminate.
  - intros si'. cbn [bind symbol_name self_s]. rewrite <- app_assoc. reflexivity.
Qed.

(** X3: for every instance the constructor builds: the result of [get] for
    [f] does not depend on the scaling, and the results for [A] and [B]
    are linear in it. *)
Theorem get_is_linear_in_the_scaling constants d out xi ui si :
  init constants = Ok (d, out) ->
  get d "f" xi ui si = get d "f" xi ui 1 /\
  (forall M, get d "A" xi ui 1 = Ok M -> get d "A" xi ui si = Ok (smul si M)) /\
  (forall M, get d "B" xi ui 1 = Ok M -> get d "B" xi ui si = Ok (smul si M)).
Proof.
  intros Hinit.
  destruct (init_derive _ _ _ Hinit) as (alpha & rTB & J & g & Hc & -> & Hshape).
  assert (Hfree : all_entries (fun e => free_of "s" e = true) (assemble alpha rTB J g)).
  { apply (syn_assemble _ constants); [exact Hc| |]; repeat constructor. }
  assert (Hjac : forall X names, flat X = map Sym names ->
            all_entries (fun e => exists e', e = emul (Sym "s") e' /\
                                            free_of "s" e' = true)
              (smul self_s (jacobian (assemble alpha rTB J g) X))).
  { intros X names HX. apply (jacobian_entries _ _ _ _ names); [exact HX|].
    intros fi xj Hfi _. eexists. split; [reflexivity|].
    apply syn_diff; [apply _|].
    apply (closed_flat (fun e => free_of "s" e = true)) in Hfree.
    rewrite Forall_forall in Hfree. apply Hfree, Hfi. }
  split; [|split].
  - destruct (get_substitutions (derive alpha rTB J g) "f" xi ui
                eq_refl eq_refl eq_refl) as [[err Herr]|(pre & Hpre & Hget)].
    { rewrite !Herr. reflexivity. }
    rewrite !Hget.
    change (getattr (derive alpha rTB J g) "f") with (Ok (assemble alpha rTB J g)).
    cbn [bind]. apply mapM_ext.
    eapply Forall_impl; [exact Hfree|]. intros row Hrow. apply mapM_ext.
    eapply Forall_impl; [exact Hrow|]. intros e He. apply eval_free_of_s, He.
  - intros M.
    destruct (get_substitutions (derive alpha rTB J g) "A" xi ui
                eq_refl eq_refl eq_refl) as [[err Herr]|(pre' & Hpre' & Hget')].
    { rewrite Herr. discriminate. }
    rewrite !Hget'.
    change (getattr (derive alpha rTB J g) "A")
      with (Ok (smul self_s (jacobian (assemble alpha rTB J g) self_x))).
    cbn [bind]. apply mapM_impl.
    eapply Forall_impl; [apply (Hjac self_x state_names eq_refl)|].
    intros row Hrow brow. apply mapM_impl.
    eapply Forall_impl; [exact Hrow|].
    intros e (e' & -> & He') v. apply eval_scaled; [|exact He'].
    apply Hpre'. reflexivity.
  - intros M.
    destruct (get_substitutions (derive alpha rTB J g) "B" xi ui
                eq_refl eq_refl eq_refl) as [[err Herr]|(pre' & Hpre' & Hget')].
    { rewrite Herr. discriminate. }
    rewrite !Hget'.
    change (getattr (derive alpha rTB J g) "B")
      with (Ok (smul self_s (jacobian (assemble alpha rTB J g) self_u))).
    cbn [bind]. apply mapM_impl.
    eapply Forall_impl; [apply (Hjac self_u control_names eq_refl)|].
    intros row Hrow brow. apply mapM_impl.
    eapply Forall_impl; [exact Hrow|].
    intros e (e' & -> & He') v. apply eval_scaled; [|exact He'].
    apply Hpre'. reflexivity.
Qed.

End Scaling.

Section SymbolicMode.
Local Open Scope R_scope.







End SymbolicMode.

(* ===================================================================== *)
(** * The evaluators of the generated module *)
(* ===================================================================== *)

Ltac parse_statements :=
  repeat match goal with
         | |- context [parse_unpacking ?stmt] =>
             let v := eval vm_compute in (parse_unpacking stmt) in
             change (parse_unpacking stmt) with v
         end;
  cbv iota beta.

Section Evaluators.
Local Open Scope R_scope.

Lemma run_variables self (xi ui : list R) :
  run_unpackings self [("x", xi); ("u", ui)] variables_unpacking
  = if Nat.eqb (length xi) 14 && Nat.eqb (length ui) 3
    then Ok (zip state_names xi ++ zip control_names ui)
    else Raise ValueError.
Proof.
  unfold variables_unpacking. cbn [run_unpackings]. unfold run_unpacking.
  parse_statements. cbn [assoc String.eqb Ascii.eqb Bool.eqb].
  unfold bind_arguments. cbn [length].
  rewrite (Nat.eqb_sym 14), (Nat.eqb_sym 3).
  destruct (Nat.eqb (length xi) 14); [|reflexivity].
  destruct (Nat.eqb (length ui) 3); [|reflexivity].
  cbn [bind andb]. rewrite app_nil_r. reflexivity.
Qed.

Lemma run_constants (self : gmap string pyval) args alpha rTB g J :
  self !! "J" = Some (PyArray2 J) -> self !! "alpha" = Some (PyNum alpha) ->
  self !! "g_I" = Some (PyArray1 g) -> self !! "rTB" = Some (PyArray1 rTB) ->
  length g = 3%nat -> length rTB = 3%nat ->
  run_unpackings self args constants_unpacking = Ok (constants_env alpha rTB g J).
Proof.
  intros HJ Ha Hg Hr Lg Lr.
  unfold constants_unpacking. cbn [run_unpackings]. unfold run_unpacking.
  parse_statements. rewrite HJ, Ha, Hg, Hr.
  cbn [bind_targets length]. rewrite Lg, Lr. cbn [Nat.eqb bind].
  unfold constants_env. rewrite app_nil_r. reflexivity.
Qed.

(** An evaluator called with 14 state values and 3 control values on an
    instance that has the four attributes. *)
Lemma generated_run derived name matrix (self : gmap string pyval)
    (xs us : list R) si alpha rTB g J :
  assoc (functions derived) name = Some matrix -> takes_scaling name si ->
  self !! "J" = Some (PyArray2 J) -> self !! "alpha" = Some (PyNum alpha) ->
  self !! "g_I" = Some (PyArray1 g) -> self !! "rTB" = Some (PyArray1 rTB) ->
  length g = 3%nat -> length rTB = 3%nat ->
  length xs = 14%nat -> length us = 3%nat ->
  generated derived name self xs us si
  = mapM (mapM (entry_value (evaluator_env xs us (constants_env alpha rTB g J) si)))
         matrix.
Proof.
  intros Hname Hsi HJ Ha Hg Hr Lg Lr Lx Lu. unfold generated. rewrite Hname.
  rewrite run_variables, Lx, Lu.
  rewrite (run_constants self _ alpha rTB g J) by assumption.
  unfold takes_scaling in Hsi.
  destruct si as [val|], (String.eqb name "f"); try contradiction; reflexivity.
Qed.

(** X9: the evaluators of the generated module unpack their arguments: a
    state that does not have exactly 14 values, or a control that does
    not have exactly 3, is a value error, whatever the attributes of the
    instance are. *)
Theorem generated_evaluators_check_the_lengths derived name matrix
    (self : gmap string pyval) (xi ui : list R) si :
  assoc (functions derived) name = Some matrix -> takes_scaling name si ->
  length xi <> 14%nat \/ length ui <> 3%nat ->
  generated derived name self xi ui si = Raise ValueError.
Proof.
  intros Hname Hsi Hlen. unfold generated. rewrite Hname.
  rewrite run_variables.
  replace (Nat.eqb (length xi) 14 && Nat.eqb (length ui) 3) with false.
  - unfold takes_scaling in Hsi.
    destruct si as [val|], (String.eqb name "f"); try contradiction; reflexivity.
  - symmetry. apply andb_false_iff.
    destruct Hlen as [H|H]; [left|right]; apply Nat.eqb_neq, H.
Qed.

Lemma generated_evaluators_check_the_lengths_witness :
  generated symbolic "f" (set_parameters module_constants ∅)
    (rest_state ++ [7]) [0; 0; 0] None
  = Raise ValueError.
Proof.
  apply (generated_evaluators_check_the_lengths symbolic "f" (Dynamics.f symbolic)).
  - reflexivity.
  - exact I.
  - left. simpl. lia.
Defined.

End Evaluators.

(* ===================================================================== *)
(** * The generated module and [get] on a diagonal inertia tensor *)
(* ===================================================================== *)

Section Agreement.
Local Open Scope R_scope.



(** The right-hand side on numbers reads the environment at the symbols
    of the mass, velocity, quaternion, angular velocity and control. *)
Lemma rhs_model_ext alpha rTB J g rho rho' :
  Forall (fun x => rho x = rho' x) used_names ->
  rhs_model alpha rTB J g rho = rhs_model alpha rTB J g rho'.
Proof.
  unfold used_names. rewrite !Forall_cons.
  intros (Hm & Hv0 & Hv1 & Hv2 & Hq0 & Hq1 & Hq2 & Hq3 & Hw0 & Hw1 & Hw2
          & Hu0 & Hu1 & Hu2 & _).
  unfold rhs_model.
  rewrite Hm, Hv0, Hv1, Hv2, Hq0, Hq1, Hq2, Hq3, Hw0, Hw1, Hw2, Hu0, Hu1, Hu2.
  reflexivity.
Qed.

Lemma written_value_evalR rho e : wf e = true -> written_value rho e = evalR rho e.
Proof.
  intros Hwf. unfold written_value.
  destruct (String.eqb_spec (str e) "0") as [E|]; [|reflexivity].
  rewrite (str_zero e Hwf E). cbn [negb evalR zero]. rewrite nreal_int. reflexivity.
Qed.





End Agreement.

Section DiagonalTensor.
Local Open Scope R_scope.

Variables alpha r0 r1 r2 g0 g1 g2 j00 j11 j22 o01 o02 o10 o12 o20 o21 : number.

Local Abbreviation tensor :=
  [[j00; o01; o02]; [o10; j11; o12]; [o20; o21; j22]].

Local Abbreviation instance :=
  (derive (Num alpha) (column [Num r0; Num r1; Num r2]) (map (map Num) tensor)
          (column [Num g0; Num g1; Num g2])).

Hypothesis off_diagonal :
  Forall (fun o => nis_zero o = true) [o01; o02; o10; o12; o20; o21].
Hypothesis diagonal :
  Forall (fun j => nis_zero j = false) [j00; j11; j22].

Local Abbreviation rho := (fun xs us si => env_of (substitutions xs us si)).
Local Abbreviation module_rho :=
  (fun xs us scaling =>
     env_of (evaluator_env xs us
               (constants_env alpha [r0; r1; r2] [g0; g1; g2] tensor) scaling)).

Ltac explicit_vectors xs us :=
  do 14 (destruct xs as [|? xs]; [discriminate|]);
  destruct xs; [|discriminate];
  do 3 (destruct us as [|? us]; [discriminate|]);
  destruct us; [|discriminate].


Lemma module_rho_constants (xs us : list R) scaling :
  length xs = 14%nat -> length us = 3%nat ->
  module_rho xs us scaling "alpha" = nreal alpha /\
  map (map (evalR (module_rho xs us scaling))) symbolic_rTB
  = column [nreal r0; nreal r1; nreal r2] /\
  map (map (evalR (module_rho xs us scaling))) symbolic_g
  = column [nreal g0; nreal g1; nreal g2] /\
  map (map (evalR (module_rho xs us scaling))) symbolic_J
  = [[nreal j00; 0; 0]; [0; nreal j11; 0]; [0; 0; nreal j22]].
Proof using Type.
  intros Hxs Hus. explicit_vectors xs us.
  split; [reflexivity|]. split; [reflexivity|]. split; [reflexivity|].
  change symbolic_J
    with [[Sym "J00"; zero; zero]; [zero; Sym "J11"; zero]; [zero; zero; Sym "J22"]].
  unfold zero. cbn [map evalR]. rewrite !nreal_int. reflexivity.
Qed.



Lemma tensor_full_rank :
  det3 [[nreal j00; 0; 0]; [0; nreal j11; 0]; [0; 0; nreal j22]] <> 0.
Proof using diagonal.
  rewrite !Forall_cons in diagonal. destruct diagonal as (H0 & H1 & H2 & _).
  apply nreal_nonzero in H0, H1, H2.
  assert (E : det3 [[nreal j00; 0; 0]; [0; nreal j11; 0]; [0; 0; nreal j22]]
              = nreal j00 * nreal j11 * nreal j22)
    by (cbn; unfold det2; cbn; ring).
  rewrite E.
  apply Rmult_integral_contrapositive_currified;
    [apply Rmult_integral_contrapositive_currified|]; assumption.
Qed.


Lemma set_parameters_empty (parms : gmap string pyval) : set_parameters parms ∅ = parms.
Proof using Type. unfold set_parameters. apply (right_id ∅ (∪)). Qed.

Lemma module_bind (xs us : list R) scaling x :
  length xs = 14%nat -> length us = 3%nat ->
  existsb (String.eqb x) (state_names ++ control_names ++ constant_names) = true ->
  bound (evaluator_env xs us
           (constants_env alpha [r0; r1; r2] [g0; g1; g2] tensor) scaling) (Sym x)
  = true.
Proof using Type.
  intros Hxs Hus [y [Hy ->%String.eqb_eq]]%existsb_exists.
  explicit_vectors xs us.
  cbn in Hy. repeat (destruct Hy as [<-|Hy]; [reflexivity|]). contradiction.
Qed.

Lemma module_bind_s (xs us : list R) si :
  length xs = 14%nat -> length us = 3%nat ->
  bound (evaluator_env xs us
           (constants_env alpha [r0; r1; r2] [g0; g1; g2] tensor) (Some si))
        (Sym "s")
  = true.
Proof using Type.
  intros Hxs Hus. explicit_vectors xs us. reflexivity.
Qed.



(** Every entry of the symbolic right-hand side evaluates in an
    evaluator of the generated module wherever the mass is not zero, and
    is differentiable where the control is not zero as well. *)
Lemma symbolic_defined (xs us : list R) scaling :
  length xs = 14%nat -> length us = 3%nat ->
  let rho' := module_rho xs us scaling in
  rho' "m" <> 0 ->
  all_entries (defined rho') (Dynamics.f symbolic) /\
  (0 < rho' "u0" ^ 2 + rho' "u1" ^ 2 + rho' "u2" ^ 2 ->
   all_entries (smooth rho') (Dynamics.f symbolic)).
Proof using diagonal.
  intros Hxs Hus rho' Hm.
  destruct (module_rho_constants xs us scaling Hxs Hus) as (_ & _ & _ & EJ).
  assert (Hdet : evalR rho' (det3 (mmul (mtranspose symbolic_J) symbolic_J)) <> 0).
  { apply evalR_gram_det; [do 9 eexists; reflexivity|].
    fold rho' in EJ. rewrite EJ. apply tensor_full_rank. }
  change (Dynamics.f symbolic)
    with (assemble symbolic_alpha symbolic_rTB symbolic_J symbolic_g).
  split; [|intros Hpos].
  - apply (closed_assemble (defined rho') (fun b => evalR rho' b <> 0));
      try exact I; try assumption.
    + intros n. exact I.
    + repeat constructor.
    + apply defined_u_mag.
    + repeat constructor.
    + repeat constructor.
    + repeat constructor.
  - apply (closed_assemble (smooth rho') (fun b => evalR rho' b <> 0));
      try exact I; try assumption.
    + intros n. exact I.
    + repeat constructor.
    + apply smooth_u_mag, Hpos.
    + repeat constructor.
    + repeat constructor.
    + repeat constructor.
Qed.


Lemma instance_constants (C : gmap string pyval) :
  C !! "alpha" = Some (PyNum alpha) ->
  C !! "rTB" = Some (PyArray1 [r0; r1; r2]) ->
  C !! "J" = Some (PyArray2 tensor) ->
  C !! "g" = Some (PyArray1 [g0; g1; g2]) ->
  bind_constants (Some C)
  = Ok (Num alpha, column [Num r0; Num r1; Num r2], map (map Num) tensor,
        column [Num g0; Num g1; Num g2]) /\
  init (Some C) = Ok (instance, None).
Proof using Type.
  intros Ha Hr HJ Hg.
  assert (Hc : bind_constants (Some C)
               = Ok (Num alpha, column [Num r0; Num r1; Num r2], map (map Num) tensor,
                     column [Num g0; Num g1; Num g2])).
  { unfold bind_constants, getitem. rewrite Ha, Hr, HJ, Hg. reflexivity. }
  split; [exact Hc|]. unfold init. rewrite Hc. reflexivity.
Qed.

Lemma instance_shaped :
  shaped (column [Num r0; Num r1; Num r2]) (map (map Num) tensor)
         (column [Num g0; Num g1; Num g2]).
Proof using Type.
  repeat split.
  - do 3 eexists. reflexivity.
  - do 9 eexists. reflexivity.
  - do 3 eexists. reflexivity.
Qed.

Lemma module_attributes (C : gmap string pyval) :
  C !! "alpha" = Some (PyNum alpha) ->
  C !! "rTB" = Some (PyArray1 [r0; r1; r2]) ->
  C !! "J" = Some (PyArray2 tensor) ->
  let self := set_parameters (<["g_I" := PyArray1 [g0; g1; g2]]> C) ∅ in
  self !! "J" = Some (PyArray2 tensor) /\ self !! "alpha" = Some (PyNum alpha) /\
  self !! "g_I" = Some (PyArray1 [g0; g1; g2]) /\
  self !! "rTB" = Some (PyArray1 [r0; r1; r2]).
Proof using Type.
  intros Ha Hr HJ self. unfold self. rewrite set_parameters_empty.
  repeat split.
  - rewrite lookup_insert_ne by discriminate. exact HJ.
  - rewrite lookup_insert_ne by discriminate. exact Ha.
  - apply lookup_insert_eq.
  - rewrite lookup_insert_ne by discriminate. exact Hr.
Qed.


Lemma written_values rho' name matrix :
  In (name, matrix) (functions symbolic) ->
  map (map (written_value rho')) matrix = map (map (evalR rho')) matrix.
Proof using Type.
  intros Hin. destruct (symbolic_matrices name matrix Hin) as [_ Hwf].
  rewrite forallb_forall in Hwf.
  apply Forall_fmap_ext_1, Forall_forall. intros row Hrow.
  specialize (Hwf row (proj1 (list_elem_of_In _ _) Hrow)).
  rewrite forallb_forall in Hwf.
  apply Forall_fmap_ext_1, Forall_forall. intros e He.
  apply written_value_evalR, Hwf, list_elem_of_In, He.
Qed.



Lemma symbolic_bound (xs us : list R) scaling :
  length xs = 14%nat -> length us = 3%nat ->
  let S := bound (evaluator_env xs us
                    (constants_env alpha [r0; r1; r2] [g0; g1; g2] tensor) scaling) in
  all_entries (fun e => S e = true) (Dynamics.f symbolic) /\
  (forall si, scaling = Some si ->
     all_entries (fun e => S e = true) (Dynamics.A symbolic) /\
     all_entries (fun e => S e = true) (Dynamics.B symbolic)).
Proof using Type.
  intros Hxs Hus S.
  assert (Hf : all_entries (fun e => S e = true)
                 (assemble symbolic_alpha symbolic_rTB symbolic_J symbolic_g)).
  { apply (syn_assemble S None); [reflexivity| |];
      repeat constructor; apply module_bind; (assumption || reflexivity). }
  split; [exact Hf|]. intros si ->.
  assert (Hfl : Forall (fun e => S e = true)
                  (flat (assemble symbolic_alpha symbolic_rTB symbolic_J symbolic_g)))
    by (apply (closed_flat (fun e => S e = true)), Hf).
  rewrite Forall_forall in Hfl.
  split.
  - apply (jacobian_entries _ _ _ _ state_names); [reflexivity|].
    intros fi xj Hfi Hxj.
    apply syn_emul; [apply _|apply module_bind_s; assumption|].
    apply syn_diff; [apply _|]. apply Hfl, Hfi.
  - apply (jacobian_entries _ _ _ _ control_names); [reflexivity|].
    intros fi xj Hfi Hxj.
    apply syn_emul; [apply _|apply module_bind_s; assumption|].
    apply syn_diff; [apply _|]. apply Hfl, Hfi.
Qed.




Lemma module_rho_arguments (xs us : list R) scaling x :
  length xs = 14%nat -> length us = 3%nat ->
  existsb (String.eqb x) (state_names ++ control_names) = true ->
  module_rho xs us scaling x = env_of (zip state_names xs ++ zip control_names us) x.
Proof using Type.
  intros Hxs Hus [y [Hy ->%String.eqb_eq]]%existsb_exists.
  explicit_vectors xs us.
  cbn in Hy. repeat (destruct Hy as [<-|Hy]; [reflexivity|]). contradiction.
Qed.

Lemma generated_f_value (self : gmap string pyval) (xs us : list R) :
  self !! "J" = Some (PyArray2 tensor) ->
  self !! "alpha" = Some (PyNum alpha) ->
  self !! "g_I" = Some (PyArray1 [g0; g1; g2]) ->
  self !! "rTB" = Some (PyArray1 [r0; r1; r2]) ->
  length xs = 14%nat -> length us = 3%nat ->
  let arguments := env_of (zip state_names xs ++ zip control_names us) in
  arguments "m" <> 0 ->
  generated symbolic "f" self xs us None
  = Ok (rhs_model (nreal alpha) (column [nreal r0; nreal r1; nreal r2])
          [[nreal j00; 0; 0]; [0; nreal j11; 0]; [0; 0; nreal j22]]
          (column [nreal g0; nreal g1; nreal g2]) arguments).
Proof using diagonal.
  intros SJ Sa Sg Sr Hxs Hus arguments Hm.
  assert (Hvar : forall scaling x,
            existsb (String.eqb x) (state_names ++ control_names) = true ->
            module_rho xs us scaling x = arguments x)
    by (intros scaling x; apply module_rho_arguments; assumption).
  rewrite (generated_run symbolic "f" (Dynamics.f symbolic) self xs us None
             alpha [r0; r1; r2] [g0; g1; g2] tensor);
    try assumption; try reflexivity; try exact I.
  destruct (symbolic_bound xs us None Hxs Hus) as (Bs & _).
  destruct (symbolic_defined xs us None Hxs Hus) as (Ds & _).
  { rewrite Hvar by reflexivity. exact Hm. }
  rewrite entry_matrix_ok; [|apply all_entries_forallb, Bs|exact Ds].
  f_equal. rewrite (written_values _ "f") by (right; right; left; reflexivity).
  destruct (module_rho_constants xs us None Hxs Hus) as (Ea & Er & Eg & EJ).
  change (Dynamics.f symbolic)
    with (assemble symbolic_alpha symbolic_rTB symbolic_J symbolic_g).
  rewrite (evalR_assemble _ _ _ _ _ symbolic_shaped).
  cbn [evalR symbolic_alpha]. rewrite Ea, Er, Eg, EJ.
  apply rhs_model_ext. unfold used_names.
  repeat constructor; apply Hvar; reflexivity.
Qed.

(** X8: the generated module by itself: on an instance with the attributes
    [alpha], [rTB] and [g_I] of three entries and a 3 x 3 [J] without a
    zero on the diagonal, the evaluator [f] returns the right-hand side
    for the tensor [diag(J[0,0], J[1,1], J[2,2])] wherever the mass is not
    zero, and the evaluators [A] and [B] return where the control is not
    zero either. *)
Theorem generated_evaluators_return (self : gmap string pyval)
    (xs us : list R) si :
  self !! "J" = Some (PyArray2 tensor) ->
  self !! "alpha" = Some (PyNum alpha) ->
  self !! "g_I" = Some (PyArray1 [g0; g1; g2]) ->
  self !! "rTB" = Some (PyArray1 [r0; r1; r2]) ->
  length xs = 14%nat -> length us = 3%nat ->
  let arguments := env_of (zip state_names xs ++ zip control_names us) in
  arguments "m" <> 0 ->
  generated symbolic "f" self xs us None
  = Ok (rhs_model (nreal alpha) (column [nreal r0; nreal r1; nreal r2])
          [[nreal j00; 0; 0]; [0; nreal j11; 0]; [0; 0; nreal j22]]
          (column [nreal g0; nreal g1; nreal g2]) arguments) /\
  (0 < arguments "u0" ^ 2 + arguments "u1" ^ 2 + arguments "u2" ^ 2 ->
   (exists M, generated symbolic "A" self xs us (Some si) = Ok M) /\
   (exists M, generated symbolic "B" self xs us (Some si) = Ok M)).
Proof using diagonal.
  intros SJ Sa Sg Sr Hxs Hus arguments Hm.
  assert (Hvar : forall scaling x,
            existsb (String.eqb x) (state_names ++ control_names) = true ->
            module_rho xs us scaling x = arguments x)
    by (intros scaling x; apply module_rho_arguments; assumption).
  split; [|intros Hpos; split].
  - apply generated_f_value; assumption.
  - rewrite (generated_run symbolic "A" (Dynamics.A symbolic) self xs us (Some si)
               alpha [r0; r1; r2] [g0; g1; g2] tensor);
      try assumption; try reflexivity; try exact I.
    destruct (symbolic_bound xs us (Some si) Hxs Hus) as (_ & Bs).
    destruct (Bs si eq_refl) as (BsA & _).
    destruct (symbolic_defined xs us (Some si) Hxs Hus) as (_ & Ss).
    { rewrite Hvar by reflexivity. exact Hm. }
    eexists. apply entry_matrix_ok; [apply all_entries_forallb, BsA|].
    apply (smooth_jacobian _ _ _ _ state_names); [reflexivity|exact I|].
    apply Ss. rewrite !Hvar by reflexivity. exact Hpos.
  - rewrite (generated_run symbolic "B" (Dynamics.B symbolic) self xs us (Some si)
               alpha [r0; r1; r2] [g0; g1; g2] tensor);
      try assumption; try reflexivity; try exact I.
    destruct (symbolic_bound xs us (Some si) Hxs Hus) as (_ & Bs).
    destruct (Bs si eq_refl) as (_ & BsB).
    destruct (symbolic_defined xs us (Some si) Hxs Hus) as (_ & Ss).
    { rewrite Hvar by reflexivity. exact Hm. }
    eexists. apply entry_matrix_ok; [apply all_entries_forallb, BsB|].
    apply (smooth_jacobian _ _ _ _ control_names); [reflexivity|exact I|].
    apply Ss. rewrite !Hvar by reflexivity. exact Hpos.
Qed.

End DiagonalTensor.

(* ===================================================================== *)
(** * The inertia tensor in the generated module *)
(* ===================================================================== *)

Section DiagonalOnly.
Local Open Scope R_scope.

Lemma symbolic_off_diagonal name matrix :
  In (name, matrix) (functions symbolic) ->
  forallb (forallb (fun e => forallb (fun y => free_of y e) off_diagonal_names)) matrix
  = true.
Proof.
  intros [E|[E|[E|[]]]]; apply pair_equal_spec in E as [<- <-];
    vm_compute; reflexivity.
Qed.

Lemma assoc_In {V : Type} (l : list (binding V)) x v :
  assoc l x = Some v -> In (x, v) l.
Proof.
  induction l as [|[y w] l IH]; cbn [assoc]; [discriminate|].
  destruct (String.eqb_spec y x) as [->|].
  - intros [= ->]. left. reflexivity.
  - intros H. right. apply IH, H.
Qed.

Lemma bind_tensor a b c d e f g h i :
  bind_targets ["J"] (PyArray2 [[a; b; c]; [d; e; f]; [g; h; i]])
  = Ok [("J00", nreal a); ("J01", nreal b); ("J02", nreal c);
        ("J10", nreal d); ("J11", nreal e); ("J12", nreal f);
        ("J20", nreal g); ("J21", nreal h); ("J22", nreal i)].
Proof. reflexivity. Qed.

Lemma run_constants_tensor (self : gmap string pyval) args :
  run_unpackings self args constants_unpacking
  = let* here :=
      match self !! "J" with
      | Some val => bind_targets ["J"] val
      | None => Raise (AttributeError "J")
      end in
    let* more := run_unpackings self args (tail constants_unpacking) in
    Ok (here ++ more).
Proof.
  unfold constants_unpacking. cbn [run_unpackings tail]. unfold run_unpacking at 1.
  parse_statements. reflexivity.
Qed.

Lemma run_constants_rest (self : gmap string pyval) args val :
  run_unpackings (<["J" := val]> self) args (tail constants_unpacking)
  = run_unpackings self args (tail constants_unpacking).
Proof.
  unfold constants_unpacking. cbn [run_unpackings tail]. unfold run_unpacking.
  parse_statements. rewrite !lookup_insert_ne by discriminate. reflexivity.
Qed.

Lemma entry_value_ext s1 s2 e :
  (forall x, mentions x e = true -> assoc s1 x = assoc s2 x) ->
  entry_value s1 e = entry_value s2 e.
Proof.
  intros H. unfold entry_value.
  destruct (negb (String.eqb (str e) "0")); [|reflexivity]. apply eval_ext, H.
Qed.

(** X11: the evaluators of the generated module read the diagonal of the
    attribute [J] only: replacing the six entries off the diagonal by any
    other numbers changes no result. *)
Theorem generated_module_reads_the_diagonal_only (self : gmap string pyval)
    name (xs us : list R) si
    (j00 j11 j22 o01 o02 o10 o12 o20 o21 p01 p02 p10 p12 p20 p21 : number) :
  self !! "J" = Some (PyArray2 [[j00; o01; o02]; [o10; j11; o12]; [o20; o21; j22]]) ->
  generated symbolic name self xs us si
  = generated symbolic name
      (<["J" := PyArray2 [[j00; p01; p02]; [p10; j11; p12]; [p20; p21; j22]]]> self)
      xs us si.
Proof.
  intros HJ. unfold generated.
  destruct (assoc (functions symbolic) name) as [matrix|] eqn:Hname; [|reflexivity].
  destruct (match si with Some _ => _ | None => _ end); [|reflexivity].
  cbn [bind]. rewrite !run_variables.
  destruct (Nat.eqb (length xs) 14 && Nat.eqb (length us) 3); [|reflexivity].
  cbn [bind]. rewrite !run_constants_tensor, run_constants_rest.
  rewrite HJ, lookup_insert_eq, !bind_tensor. cbn [bind].
  destruct (run_unpackings self _ (tail constants_unpacking)) as [more|];
    [|reflexivity].
  cbn [bind].
  apply assoc_In in Hname.
  pose proof (symbolic_off_diagonal name matrix Hname) as Hfree.
  apply mapM_ext, Forall_forall. intros row Hrow.
  rewrite forallb_forall in Hfree.
  specialize (Hfree row (proj1 (list_elem_of_In _ _) Hrow)).
  apply mapM_ext, Forall_forall. intros e He.
  rewrite forallb_forall in Hfree.
  specialize (Hfree e (proj1 (list_elem_of_In _ _) He)).
  unfold off_diagonal_names in Hfree. cbn [forallb] in Hfree.
  rewrite !andb_true_iff in Hfree.
  destruct Hfree as (F1 & F2 & F3 & F4 & F5 & F6 & _).
  apply entry_value_ext. intros x Hx.
  assert (Hne : forall y, free_of y e = true -> String.eqb y x = false).
  { intros y Hy. destruct (String.eqb_spec y x) as [->|]; [|reflexivity].
    unfold free_of in Hy. rewrite Hx in Hy. discriminate. }
  rewrite !(assoc_app (zip state_names xs ++ zip control_names us)).
  destruct (assoc (zip state_names xs ++ zip control_names us) x); [reflexivity|].
  rewrite <- !app_assoc. cbn [app assoc].
  rewrite (Hne "J01" F1), (Hne "J02" F2), (Hne "J10" F3), (Hne "J12" F4),
    (Hne "J20" F5), (Hne "J21" F6).
  reflexivity.
Qed.

End DiagonalOnly.

(* ===================================================================== *)
(** * The kinematics matrices on numbers *)
(* ===================================================================== *)

Section Kinematics.
Local Open Scope R_scope.

Ltac rows := repeat match goal with |- _ :: _ = _ :: _ => f_equal end.
Ltac reals :=
  cbn; unfold det2, rpow; cbn; change (Pos.to_nat 2) with 2%nat; simpl pow in *.

Lemma Om_entries (w0 w1 w2 : R) :
  Om (w0, w1, w2)
  = [[0; - w0; - w1; - w2];
     [w0; 0; w2; - w1];
     [w1; - w2; 0; w0];
     [w2; w1; - w0; 0]].
Proof. reflexivity. Qed.

(** X15: [Om(w)] is a 4 x 4 skew-symmetric matrix, its square is
    [-||w||^2] times the identity, and [Om(w) q] is orthogonal to [q]. *)
Theorem Om_is_skew_symmetric (w0 w1 w2 : R) :
  let W := Om (w0, w1, w2) in
  shape W = (4, 4)%nat /\
  mtranspose W = smul (-1) W /\
  mmul W W
  = smul (- (w0 ^ 2 + w1 ^ 2 + w2 ^ 2))
         [[1; 0; 0; 0]; [0; 1; 0; 0]; [0; 0; 1; 0]; [0; 0; 0; 1]] /\
  forall q0 q1 q2 q3,
    dot [q0; q1; q2; q3] (flat (mmul W (column [q0; q1; q2; q3]))) = 0.
Proof.
  intros W. unfold W. rewrite Om_entries. split; [reflexivity|]. split; [|split].
  - cbn. rows; ring.
  - cbn. rows; ring.
  - intros. cbn. ring.
Qed.

(** X6: for every instance the constructor builds, the rate of the
    quaternion in [f] is orthogonal to the quaternion, under every
    assignment of the symbols: the dynamics keep the norm of [q]. *)
Theorem quaternion_rate_keeps_the_norm constants d out :
  init constants = Ok (d, out) ->
  exists f7 f8 f9 f10,
    entry (Dynamics.f d) 7 0 = Some f7 /\ entry (Dynamics.f d) 8 0 = Some f8 /\
    entry (Dynamics.f d) 9 0 = Some f9 /\ entry (Dynamics.f d) 10 0 = Some f10 /\
    forall rho,
      rho "q0" * evalR rho f7 + rho "q1" * evalR rho f8
      + rho "q2" * evalR rho f9 + rho "q3" * evalR rho f10 = 0.
Proof.
  intros Hinit.
  destruct (init_derive _ _ _ Hinit) as (alpha & rTB & J & g & Hc & -> & Hshape).
  destruct (assemble_blocks alpha rTB J g Hshape)
    as (a4 & a5 & a6 & b7 & b8 & b9 & b10 & c11 & c12 & c13 & Hf & _ & Hq & _).
  exists b7, b8, b9, b10. unfold derive. cbn [Dynamics.f]. rewrite Hf.
  do 4 (split; [reflexivity|]).
  intros rho. apply (f_equal (map (map (evalR rho)))) in Hq.
  rewrite hom_mmul, hom_smul, hom_Om in Hq by apply _.
  unfold Var.q, column in Hq. cbn [map evalR] in Hq.
  rewrite quaternion_block, Om_entries in Hq by reflexivity.
  cbn in Hq. injection Hq as -> -> -> ->. ring.
Qed.

Lemma quaternion_rate_keeps_the_norm_witness :
  exists f7 f8 f9 f10,
    entry (Dynamics.f symbolic) 7 0 = Some f7 /\
    entry (Dynamics.f symbolic) 8 0 = Some f8 /\
    entry (Dynamics.f symbolic) 9 0 = Some f9 /\
    entry (Dynamics.f symbolic) 10 0 = Some f10 /\
    forall rho,
      rho "q0" * evalR rho f7 + rho "q1" * evalR rho f8
      + rho "q2" * evalR rho f9 + rho "q3" * evalR rho f10 = 0.
Proof.
  apply (quaternion_rate_keeps_the_norm None symbolic
           (Some (generate_functions symbolic))).
  reflexivity.
Defined.


(** X16: on a quaternion of unit norm, [cIB(q)] is a proper rotation: its
    determinant is one, its transpose is its inverse on the left as
    well, and it keeps the norm of a vector. *)
Theorem cIB_is_a_proper_rotation (q0 q1 q2 q3 : R) :
  q0 ^ 2 + q1 ^ 2 + q2 ^ 2 + q3 ^ 2 = 1 ->
  let C := cIB (q0, q1, q2, q3) in
  det3 C = 1 /\
  mmul (mtranspose C) C = identity3 /\
  forall u0 u1 u2,
    dot (flat (mmul C (column [u0; u1; u2]))) (flat (mmul C (column [u0; u1; u2])))
    = u0 ^ 2 + u1 ^ 2 + u2 ^ 2.
Proof.
  intros Hq C. unfold C. split; [|split].
  - reals. nsatz.
  - unfold identity3. reals. rows; nsatz.
  - intros. reals. nsatz.
Qed.

Lemma cIB_is_a_proper_rotation_witness :
  det3 (cIB (0, 0, 1, 0)) = 1.
Proof.
  apply (cIB_is_a_proper_rotation 0 0 1 0). lra.
Defined.

(** X17: the conjugate quaternion gives the transposed matrix, and the
    opposite quaternion the same matrix. *)
Theorem cIB_of_the_conjugate_is_the_transpose (q0 q1 q2 q3 : R) :
  cIB (q0, - q1, - q2, - q3) = mtranspose (cIB (q0, q1, q2, q3)) /\
  cIB (- q0, - q1, - q2, - q3) = cIB (q0, q1, q2, q3).
Proof. split; reals; rows; ring. Qed.

Ltac explicit3 :=
  repeat match goal with
         | H : is3x3 _ |- _ => destruct H as (?&?&?&?&?&?&?&?&?&->)
         end.

Lemma mmul_pinv_r X : is3x3 X -> det3 X <> 0 -> mmul X (pinv X) = identity3.
Proof.
  intros HX HD. destruct (pinv_moore_penrose X HX HD) as (H1 & _).
  assert (HP : is3x3 (pinv X)).
  { unfold pinv. apply is3x3_mmul; [apply is3x3_inv3, is3x3_mmul|];
      try apply is3x3_mtranspose; assumption. }
  rewrite <- (mmul_identity3_r (mmul X (pinv X))) by (apply is3x3_mmul; assumption).
  rewrite <- (inv3_r X HX HD).
  rewrite <- mmul_assoc3;
    [|apply is3x3_mmul; assumption|assumption|apply is3x3_inv3, HX].
  rewrite H1. reflexivity.
Qed.

Lemma mmul_assoc_vector X Y (b0 b1 b2 : R) :
  is3x3 X -> is3x3 Y ->
  mmul X (mmul Y [[b0]; [b1]; [b2]]) = mmul (mmul X Y) [[b0]; [b1]; [b2]].
Proof. intros. explicit3. cbn. rows; ring. Qed.

Lemma mmul_identity_vector (b0 b1 b2 : R) :
  mmul identity3 [[b0]; [b1]; [b2]] = [[b0]; [b1]; [b2]].
Proof. cbn. rows; ring. Qed.

(** X7: for every instance the constructor builds, the rate of the angular
    velocity in [f] solves Euler's equation whenever the inertia tensor
    has full rank: [J] times entries 11 to 13 of [f] is the torque of the
    thrust [rTB x u] minus the gyroscopic term [w x (J w)]. *)
Theorem angular_rate_solves_the_euler_equation constants d out :
  init constants = Ok (d, out) ->
  exists alpha rTB J g f11 f12 f13,
    bind_constants constants = Ok (alpha, rTB, J, g) /\
    entry (Dynamics.f d) 11 0 = Some f11 /\ entry (Dynamics.f d) 12 0 = Some f12 /\
    entry (Dynamics.f d) 13 0 = Some f13 /\
    forall rho,
      let Jr := map (map (evalR rho)) J in
      let u := column [rho "u0"; rho "u1"; rho "u2"] in
      let w := column [rho "w0"; rho "w1"; rho "w2"] in
      det3 Jr <> 0 ->
      mmul Jr (column [evalR rho f11; evalR rho f12; evalR rho f13])
      = msub (cross (map (map (evalR rho)) rTB) u) (cross w (mmul Jr w)).
Proof.
  intros Hinit.
  destruct (init_derive _ _ _ Hinit) as (alpha & rTB & J & g & Hc & -> & Hshape).
  destruct (assemble_blocks alpha rTB J g Hshape)
    as (a4 & a5 & a6 & b7 & b8 & b9 & b10 & c11 & c12 & c13 & Hf & _ & _ & Hw).
  exists alpha, rTB, J, g, c11, c12, c13. split; [exact Hc|].
  unfold derive. cbn [Dynamics.f]. rewrite Hf.
  do 3 (split; [reflexivity|]).
  intros rho HD.
  set (Jr := map (map (evalR rho)) J) in *.
  set (u := column [rho "u0"; rho "u1"; rho "u2"]).
  set (w := column [rho "w0"; rho "w1"; rho "w2"]).
  apply (f_equal (map (map (evalR rho)))) in Hw.
  rewrite hom_pinv_solve, hom_msub, !hom_cross, hom_mmul in Hw by apply _.
  change (map (map (evalR rho)) self_u) with u in Hw.
  change (map (map (evalR rho)) Var.w) with w in Hw.
  fold Jr in Hw. change (map (map (evalR rho)) (column [c11; c12; c13]))
    with (column [evalR rho c11; evalR rho c12; evalR rho c13]) in Hw.
  rewrite Hw. unfold pinv_solve.
  destruct Hshape as ((r0 & r1 & r2 & ->) & (a & b & c & d & e & f & g' & h & i & ->)
                      & _).
  assert (HJ : is3x3 Jr) by (do 9 eexists; reflexivity).
  assert (Hb : exists b0 b1 b2,
             msub (cross (map (map (evalR rho)) [[r0]; [r1]; [r2]]) u)
                  (cross w (mmul Jr w)) = [[b0]; [b1]; [b2]])
    by (do 3 eexists; reflexivity).
  destruct Hb as (b0 & b1 & b2 & ->).
  assert (HP : is3x3 (pinv Jr)).
  { unfold pinv. apply is3x3_mmul; [apply is3x3_inv3, is3x3_mmul|];
      try apply is3x3_mtranspose; assumption. }
  rewrite mmul_assoc_vector by assumption.
  rewrite mmul_pinv_r by assumption. apply mmul_identity_vector.
Qed.

Lemma angular_rate_solves_the_euler_equation_witness :
  exists alpha rTB J g f11 f12 f13,
    bind_constants None = Ok (alpha, rTB, J, g) /\
    entry (Dynamics.f symbolic) 11 0 = Some f11 /\
    entry (Dynamics.f symbolic) 12 0 = Some f12 /\
    entry (Dynamics.f symbolic) 13 0 = Some f13 /\
    forall rho,
      let Jr := map (map (evalR rho)) J in
      let u := column [rho "u0"; rho "u1"; rho "u2"] in
      let w := column [rho "w0"; rho "w1"; rho "w2"] in
      det3 Jr <> 0 ->
      mmul Jr (column [evalR rho f11; evalR rho f12; evalR rho f13])
      = msub (cross (map (map (evalR rho)) rTB) u) (cross w (mmul Jr w)).
Proof.
  apply (angular_rate_solves_the_euler_equation None symbolic
           (Some (generate_functions symbolic))).
  reflexivity.
Defined.

End Kinematics.

(* ===================================================================== *)
(** * The constants the constructor accepts *)
(* ===================================================================== *)

Section Constructor.
Local Open Scope R_scope.

(** X13: in numeric mode the constructor reads the keys [alpha], [rTB], [J]
    and [g] in this order, and fails with a key error for the first one
    that the mapping does not have. *)
Theorem constructor_reports_the_first_missing_key (C : gmap string pyval) :
  (C !! "alpha" = None -> init (Some C) = Raise (KeyError "alpha")) /\
  (forall va, C !! "alpha" = Some va -> C !! "rTB" = None ->
     init (Some C) = Raise (KeyError "rTB")) /\
  (forall va vr rTB,
     C !! "alpha" = Some va -> C !! "rTB" = Some vr -> Matrix vr = Ok rTB ->
     C !! "J" = None -> init (Some C) = Raise (KeyError "J")) /\
  (forall va vr rTB vJ J,
     C !! "alpha" = Some va -> C !! "rTB" = Some vr -> Matrix vr = Ok rTB ->
     C !! "J" = Some vJ -> Matrix vJ = Ok J ->
     C !! "g" = None -> init (Some C) = Raise (KeyError "g")).
Proof.
  unfold init, bind_constants, getitem. repeat split.
  - intros ->. reflexivity.
  - intros va -> ->. reflexivity.
  - intros va vr rTB -> -> Hr ->. cbn [bind]. rewrite Hr. reflexivity.
  - intros va vr rTB vJ J -> -> Hr -> HJ ->. cbn [bind]. rewrite Hr. cbn [bind].
    rewrite HJ. reflexivity.
Qed.

Lemma constructor_reports_the_first_missing_key_witness :
  init (Some script_constants) = Raise (KeyError "g").
Proof.
  apply (proj2 (proj2 (proj2 (constructor_reports_the_first_missing_key
                                script_constants)))
           (PyNum (Flt (1 # 10)))
           (PyArray1 [Flt (-1 # 100); Flt 0; Flt 0])
           (column [Num (Flt (-1 # 100)); Num (Flt 0); Num (Flt 0)])
           (PyArray2 [[Flt (1 # 100); Flt 0; Flt 0];
                      [Flt 0; Flt (1 # 100); Flt 0];
                      [Flt 0; Flt 0; Flt (1 # 100)]])
           (map (map Num) [[Flt (1 # 100); Flt 0; Flt 0];
                           [Flt 0; Flt (1 # 100); Flt 0];
                           [Flt 0; Flt 0; Flt (1 # 100)]]));
    reflexivity.
Defined.


Lemma require_shape_column (a b c : expr) : require_shape [[a]; [b]; [c]] 3 1 = Ok tt.
Proof. reflexivity. Qed.

Lemma require_shape_tensor (a b c d e f g h i : expr) :
  require_shape [[a; b; c]; [d; e; f]; [g; h; i]] 3 3 = Ok tt.
Proof. reflexivity. Qed.



End Constructor.

(* ===================================================================== *)
(** * Instances of the statements *)
(* ===================================================================== *)

Section Instances.
Local Open Scope R_scope.





Lemma get_is_linear_in_the_scaling_witness :
  get numeric "f" (column rest_state) [0; 0; 0] 2
  = get numeric "f" (column rest_state) [0; 0; 0] 1.
Proof.
  apply (proj1 (get_is_linear_in_the_scaling (Some example_constants) numeric None
                  (column rest_state) [0; 0; 0] 2 init_example)).
Defined.


Lemma generated_module_reads_the_diagonal_only_witness :
  generated symbolic "f" (set_parameters module_constants ∅) rest_state [0; 0; 0] None
  = generated symbolic "f"
      (<["J" := PyArray2 [[Flt 1; Flt 5; Flt 0];
                          [Flt 0; Flt 1; Flt 0];
                          [Flt 7; Flt 0; Flt 1]]]>
         (set_parameters module_constants ∅))
      rest_state [0; 0; 0] None.
Proof.
  apply (generated_module_reads_the_diagonal_only
           (set_parameters module_constants ∅) "f" rest_state [0; 0; 0] None
           (Flt 1) (Flt 1) (Flt 1) (Flt 0) (Flt 0) (Flt 0) (Flt 0) (Flt 0) (Flt 0)).
  reflexivity.
Defined.

(** The evaluator [f] of the generated module on the constants of the
    script, at the state at rest. *)
Lemma generated_evaluators_return_witness :
  generated symbolic "f" (set_parameters script_constants ∅) rest_state [0; 0; 0] None
  = Ok (rhs_model (nreal (Flt (1 # 10)))
          (column [nreal (Flt (-1 # 100)); nreal (Flt 0); nreal (Flt 0)])
          [[nreal (Flt (1 # 100)); 0; 0];
           [0; nreal (Flt (1 # 100)); 0];
           [0; 0; nreal (Flt (1 # 100))]]
          (column [nreal (Int (-1)); nreal (Int 0); nreal (Int 0)])
          (env_of (zip state_names rest_state ++ zip control_names [0; 0; 0]))).
Proof.
  refine (proj1 (generated_evaluators_return
                   (Flt (1 # 10)) (Flt (-1 # 100)) (Flt 0) (Flt 0)
                   (Int (-1)) (Int 0) (Int 0)
                   (Flt (1 # 100)) (Flt (1 # 100)) (Flt (1 # 100))
                   (Flt 0) (Flt 0) (Flt 0) (Flt 0) (Flt 0) (Flt 0)
                   _ (set_parameters script_constants ∅) rest_state [0; 0; 0] 1
                   _ _ _ _ _ _ _));
    try reflexivity.
  - repeat constructor.
  - replace (env_of (zip state_names rest_state ++ zip control_names [0; 0; 0]) "m")
      with 1 by reflexivity.
    lra.
Defined.

End Instances.

(* ===================================================================== *)
(** * An inertia tensor that is not diagonal *)
(* ===================================================================== *)

Section Coupled.
Local Open Scope R_scope.

Lemma rhs_model_angular alpha rTB J (g0 g1 g2 : R) rho :
  exists pre,
    length pre = 11%nat /\
    rhs_model alpha rTB J [[g0]; [g1]; [g2]] rho
    = pre ++ mmul (pinv J)
               (msub (cross rTB (column [rho "u0"; rho "u1"; rho "u2"]))
                     (cross (column [rho "w0"; rho "w1"; rho "w2"])
                            (mmul J (column [rho "w0"; rho "w1"; rho "w2"])))).
Proof.
  unfold rhs_model. eexists. split; [|rewrite !app_assoc; reflexivity].
  reflexivity.
Qed.

Lemma entry_angular (pre X : list (list R)) i :
  length pre = 11%nat -> entry (pre ++ X) (11 + i) 0 = entry X i 0.
Proof.
  intros Hpre. unfold entry. rewrite lookup_app_r by lia.
  rewrite Hpre. replace (11 + i - 11)%nat with i by lia. reflexivity.
Qed.

Lemma nreal_flt_zero : nreal (Flt 0) = 0.
Proof. unfold nreal, Q2R. simpl. lra. Qed.

Lemma nreal_minus_one : nreal (Flt (-1)) = -1.
Proof. unfold nreal, Q2R. simpl. lra. Qed.

Lemma nreal_two : nreal (Flt 2) = 2.
Proof. unfold nreal, Q2R. simpl. lra. Qed.

(** X12: the generated module is derived for a diagonal inertia tensor: for
    the symmetric tensor [[2, 1, 0], [1, 2, 0], [0, 0, 1]], at rest and
    with the thrust along the third body axis, [get] and the evaluator
    [f] of the generated module configured with the same constants both
    return, and the rates of the first angular velocity differ: [-1/3]
    and [0]. *)
Theorem generated_module_differs_on_a_coupled_tensor :
  exists d M M',
    init (Some coupled_constants) = Ok (d, None) /\
    get d "f" (column rest_state) [0; 0; 1] 1 = Ok M /\
    generated symbolic "f"
      (set_parameters
         (<["g_I" := PyArray1 [Int (-1); Int 0; Int 0]]> coupled_constants) ∅)
      rest_state [0; 0; 1] None = Ok M' /\
    entry M 11 0 = Some (- (1 / 3)) /\ entry M' 11 0 = Some 0.
Proof.
  destruct (instance_constants (Flt (1 # 2)) (Flt (-1)) (Flt 0) (Flt 0)
              (Int (-1)) (Int 0) (Int 0) (Flt 2) (Flt 2) (Flt 1)
              (Flt 1) (Flt 0) (Flt 1) (Flt 0) (Flt 0) (Flt 0) coupled_constants)
    as (Hc & Hinit); try reflexivity.
  destruct (module_attributes (Flt (1 # 2)) (Flt (-1)) (Flt 0) (Flt 0)
              (Int (-1)) (Int 0) (Int 0) (Flt 2) (Flt 2) (Flt 1)
              (Flt 1) (Flt 0) (Flt 1) (Flt 0) (Flt 0) (Flt 0) coupled_constants)
    as (SJ & Sa & Sg & Sr); try reflexivity.
  do 3 eexists. split; [exact Hinit|]. split; [|split; [|split]].
  - refine (get_f_value coupled_constants _ _ _ _ rest_state [0; 0; 1] 1 Hc _
              eq_refl eq_refl _ _).
    + apply instance_shaped.
    + replace (env_of (substitutions rest_state [0; 0; 1] 1) "m") with 1 by reflexivity.
      lra.
    + cbn [map evalR]. rewrite !nreal_one, !nreal_two, !nreal_flt_zero.
      cbn. unfold det2. cbn. lra.
  - apply (generated_f_value (Flt (1 # 2)) (Flt (-1)) (Flt 0) (Flt 0)
             (Int (-1)) (Int 0) (Int 0) (Flt 2) (Flt 2) (Flt 1)
             (Flt 1) (Flt 0) (Flt 1) (Flt 0) (Flt 0) (Flt 0));
      try assumption; try reflexivity.
    + repeat constructor.
    + replace (env_of (zip state_names rest_state ++ zip control_names [0; 0; 1]) "m")
        with 1 by reflexivity.
      lra.
  - cbn [map evalR column].
    destruct (rhs_model_angular (nreal (Flt (1 # 2)))
                [[nreal (Flt (-1))]; [nreal (Flt 0)]; [nreal (Flt 0)]]
                [[nreal (Flt 2); nreal (Flt 1); nreal (Flt 0)];
                 [nreal (Flt 1); nreal (Flt 2); nreal (Flt 0)];
                 [nreal (Flt 0); nreal (Flt 0); nreal (Flt 1)]]
                (nreal (Int (-1))) (nreal (Int 0)) (nreal (Int 0))
                (env_of (substitutions rest_state [0; 0; 1] 1)))
      as (pre & Hpre & ->).
    rewrite (entry_angular pre _ 0 Hpre).
    rewrite !nreal_one, !nreal_two, !nreal_flt_zero, nreal_minus_one.
    replace (env_of (substitutions rest_state [0; 0; 1] 1) "u0") with 0 by reflexivity.
    replace (env_of (substitutions rest_state [0; 0; 1] 1) "u1") with 0 by reflexivity.
    replace (env_of (substitutions rest_state [0; 0; 1] 1) "u2") with 1 by reflexivity.
    replace (env_of (substitutions rest_state [0; 0; 1] 1) "w0") with 0 by reflexivity.
    replace (env_of (substitutions rest_state [0; 0; 1] 1) "w1") with 0 by reflexivity.
    replace (env_of (substitutions rest_state [0; 0; 1] 1) "w2") with 0 by reflexivity.
    cbn. unfold det2. cbn. f_equal. field.
  - destruct (rhs_model_angular (nreal (Flt (1 # 2)))
                (column [nreal (Flt (-1)); nreal (Flt 0); nreal (Flt 0)])
                [[nreal (Flt 2); 0; 0]; [0; nreal (Flt 2); 0]; [0; 0; nreal (Flt 1)]]
                (nreal (Int (-1))) (nreal (Int 0)) (nreal (Int 0))
                (env_of (zip state_names rest_state ++ zip control_names [0; 0; 1])))
      as (pre & Hpre & E).
    unfold column in E |- *. cbn [map] in E |- *. rewrite E.
    rewrite (entry_angular pre _ 0 Hpre).
    rewrite !nreal_one, !nreal_two, !nreal_flt_zero, nreal_minus_one.
    set (arguments := env_of _).
    replace (arguments "u0") with 0 by reflexivity.
    replace (arguments "u1") with 0 by reflexivity.
    replace (arguments "u2") with 1 by reflexivity.
    replace (arguments "w0") with 0 by reflexivity.
    replace (arguments "w1") with 0 by reflexivity.
    replace (arguments "w2") with 0 by reflexivity.
    cbn. unfold det2. cbn. f_equal. field.
Qed.

End Coupled.

(* ===================================================================== *)
(** * The control Jacobian at zero control, for all constants *)
(* ===================================================================== *)

Section ZeroControlEverywhere.
Local Open Scope R_scope.









End ZeroControlEverywhere.
